(** * dts-parse: flattening a TypeDoc declaration tree into documentation pages

    A shallow embedding of [external/build/lib/dts-parse.js] (class
    [Transform] and the helper [declarationWith]) and the properties of it
    that the specification states.

    Conventions of the embedding:
    - a JavaScript string is a [string]; [undefined] is [None];
    - the objects of the input tree are values of [Node]; the fields that the
      transform bolts onto them ([_name], [_pageHref], ...) are optional
      fields of the same type, as in the source, where a node is cast to
      [ExtendedReflection] and mutated in place;
    - [Transform]'s mutable fields form the record [State]; the indices hold
      references, so they map to handles into [heap], the store of the
      objects they refer to;
    - a [throw] is the result [Throw]. *)

From Stdlib Require Import ZArith String Ascii List Lia.
From stdpp Require Import base option list gmap strings.
From Equations Require Import Equations.

Set Warnings "-register-all".
Local Open Scope string_scope.
Local Open Scope Z_scope.
Local Open Scope list_scope.
Local Open Scope stdpp_scope.

(** ** JavaScript string primitives used by the source *)

Module Js.

(** White space as [String.prototype.trim] sees it, on the ASCII range. *)
Definition isSpace (a : ascii) : bool :=
  let n := nat_of_ascii a in
  ((9 <=? n)%nat && (n <=? 13)%nat) || (n =? 32)%nat.

Fixpoint trimStart (s : string) : string :=
  match s with
  | String a r => if isSpace a then trimStart r else s
  | EmptyString => EmptyString
  end.

Definition trim (s : string) : string :=
  String.rev (trimStart (String.rev (trimStart s))).

(** A string is truthy when it is not empty. *)
Definition truthy (s : string) : bool :=
  match s with EmptyString => false | _ => true end.

Definition startsWith (s p : string) : bool := String.prefix p s.

(** [s.substr(start)] *)
Fixpoint substr (start : nat) (s : string) : string :=
  match start, s with
  | O, _ => s
  | S n, String _ r => substr n r
  | S _, EmptyString => EmptyString
  end.

(** [s.substr(0, len)] *)
Fixpoint substr0 (len : nat) (s : string) : string :=
  match len, s with
  | S n, String a r => String a (substr0 n r)
  | _, _ => EmptyString
  end.

Fixpoint lastIndexOf_from (c : ascii) (s : string) (i acc : Z) : Z :=
  match s with
  | EmptyString => acc
  | String a r =>
      lastIndexOf_from c r (i + 1) (if Ascii.eqb a c then i else acc)
  end.

(** [s.lastIndexOf(c)], [-1] when [c] does not occur. *)
Definition lastIndexOf (c : ascii) (s : string) : Z :=
  lastIndexOf_from c s 0 (-1).

(** [s.replace(/c/g, d)] for a single character [c]. *)
Fixpoint replaceChar (c d : ascii) (s : string) : string :=
  match s with
  | EmptyString => EmptyString
  | String a r => String (if Ascii.eqb a c then d else a) (replaceChar c d r)
  end.

(** [s.replace(/^p/, '')] for a literal prefix [p]. *)
Definition removePrefix (p s : string) : string :=
  if String.prefix p s then substr (String.length p) s else s.

(** [s.replace(/\\_/g, '_')]: every backslash-underscore pair becomes an
    underscore. *)
Fixpoint unescapeUnderscore (s : string) : string :=
  match s with
  | EmptyString => EmptyString
  | String a r =>
      match r with
      | String b r' =>
          if Ascii.eqb a "\" && Ascii.eqb b "_"
          then String "_" (unescapeUnderscore r')
          else String a (unescapeUnderscore r)
      | EmptyString => String a EmptyString
      end
  end.

(** [s.split(' ')[0]] *)
Fixpoint splitSpaceHead (s : string) : string :=
  match s with
  | EmptyString => EmptyString
  | String a r => if Ascii.eqb a " " then EmptyString else String a (splitSpaceHead r)
  end.

(** How a template literal prints a value that may be [undefined]. *)
Definition str (o : option string) : string := default "undefined" o.

(** [a ?? b] *)
Definition nullish {A} (a b : option A) : option A :=
  match a with Some _ => a | None => b end.

End Js.

Infix "??" := Js.nullish (at level 61, left associativity).

(** ** The data model *)

(** A value produced by [JSON.parse]. *)
Inductive JsonValue : Type :=
| JNull
| JBool (b : bool)
| JNumber (lexeme : string)
| JString (s : string)
| JArray (items : list JsonValue)
| JObject (members : list (string * JsonValue)).

(** [typedoc.JSONOutput.CommentTag] *)
Record CommentTag := mkTag { tag : string; text : string }.

(** [typedoc.JSONOutput.Comment] *)
Record Comment := mkComment {
  shortText : option string;
  comment_text : option string;
  returns : option string;
  tags : option (list CommentTag) }.

Record Flags := mkFlags { isOptional : bool }.

Record Deprecated := mkDeprecated {
  dep_value : string;
  dep_since : option string }.

Record FeatureInfo := mkFeature {
  channel : string;
  since : option string;
  deprecated : option Deprecated;
  permissions : option (list string);
  manifestKeys : option (list string);
  minManifest : option string;
  maxManifest : option string;
  platformAppsOnly : option bool;
  disallowServiceWorkers : option bool }.

Record TypesEnumPair := mkEnumPair {
  value : JsonValue;
  description : string }.

(** [typedoc.JSONOutput.SomeType], the declarations and their signatures.
    [TyOther] stands for the remaining TypeDoc type kinds, those with none of
    the fields [types], [elements], [elementType], [typeArguments] and
    [declaration] that the transform looks at.  The fields whose name starts
    with an underscore are the ones of [ExtendedReflection]; [_type] holds
    [_type.properties]. *)
Inductive SomeType : Type :=
| TyReference (ref_id : option Z) (ref_name : string)
              (typeArguments : option (list SomeType))
| TyReflection (declaration : option Node)
| TyUnion (types : list SomeType)
| TyIntersection (types : list SomeType)
| TyArray (elementType : SomeType)
| TyTuple (elements : option (list SomeType))
| TyIntrinsic (intrinsic_name : string)
| TyOther (type_tag : string)
with Node : Type :=
| mkNode (id : Z) (name : string) (kind : Z) (flags : Flags)
         (children : option (list Node))
         (type : option SomeType)
         (signatures : option (list Signature))
         (comment : option Comment)
         (_name : option string)
         (_pageHref : option string)
         (_pageId : option string)
         (_feature : option FeatureInfo)
         (_enums : option (list TypesEnumPair))
         (_type : option (list Node))
         (_method : option Method)
         (_event : option EventInfo)
with Signature : Type :=
| mkSignature (parameters : option (list Node))
              (sig_type : option SomeType)
              (sig_comment : option Comment)
with Method : Type :=
| mkMethod (m_parameters : list Node) (m_return : option Node)
           (isReturnsAsync : bool)
with EventInfo : Type :=
| EventCallback
| EventDeclarative (conditions actions : list SomeType).

Definition id (n : Node) : Z :=
  let 'mkNode x _ _ _ _ _ _ _ _ _ _ _ _ _ _ _ := n in x.
Definition name (n : Node) : string :=
  let 'mkNode _ x _ _ _ _ _ _ _ _ _ _ _ _ _ _ := n in x.
Definition kind (n : Node) : Z :=
  let 'mkNode _ _ x _ _ _ _ _ _ _ _ _ _ _ _ _ := n in x.
Definition flags (n : Node) : Flags :=
  let 'mkNode _ _ _ x _ _ _ _ _ _ _ _ _ _ _ _ := n in x.
Definition children (n : Node) : option (list Node) :=
  let 'mkNode _ _ _ _ x _ _ _ _ _ _ _ _ _ _ _ := n in x.
Definition type (n : Node) : option SomeType :=
  let 'mkNode _ _ _ _ _ x _ _ _ _ _ _ _ _ _ _ := n in x.
Definition signatures (n : Node) : option (list Signature) :=
  let 'mkNode _ _ _ _ _ _ x _ _ _ _ _ _ _ _ _ := n in x.
Definition comment (n : Node) : option Comment :=
  let 'mkNode _ _ _ _ _ _ _ x _ _ _ _ _ _ _ _ := n in x.
Definition _name (n : Node) : option string :=
  let 'mkNode _ _ _ _ _ _ _ _ x _ _ _ _ _ _ _ := n in x.
Definition _pageHref (n : Node) : option string :=
  let 'mkNode _ _ _ _ _ _ _ _ _ x _ _ _ _ _ _ := n in x.
Definition _pageId (n : Node) : option string :=
  let 'mkNode _ _ _ _ _ _ _ _ _ _ x _ _ _ _ _ := n in x.
Definition _feature (n : Node) : option FeatureInfo :=
  let 'mkNode _ _ _ _ _ _ _ _ _ _ _ x _ _ _ _ := n in x.
Definition _enums (n : Node) : option (list TypesEnumPair) :=
  let 'mkNode _ _ _ _ _ _ _ _ _ _ _ _ x _ _ _ := n in x.
Definition _type (n : Node) : option (list Node) :=
  let 'mkNode _ _ _ _ _ _ _ _ _ _ _ _ _ x _ _ := n in x.
Definition _method (n : Node) : option Method :=
  let 'mkNode _ _ _ _ _ _ _ _ _ _ _ _ _ _ x _ := n in x.
Definition _event (n : Node) : option EventInfo :=
  let 'mkNode _ _ _ _ _ _ _ _ _ _ _ _ _ _ _ x := n in x.

Definition parameters (s : Signature) : option (list Node) :=
  let 'mkSignature x _ _ := s in x.
Definition sig_type (s : Signature) : option SomeType :=
  let 'mkSignature _ x _ := s in x.
Definition sig_comment (s : Signature) : option Comment :=
  let 'mkSignature _ _ x := s in x.

Definition m_parameters (m : Method) : list Node :=
  let 'mkMethod x _ _ := m in x.
Definition m_return (m : Method) : option Node :=
  let 'mkMethod _ x _ := m in x.
Definition isReturnsAsync (m : Method) : bool :=
  let 'mkMethod _ _ x := m in x.

(** Assignments to the fields of a node. *)
Definition set_children (v : option (list Node)) (n : Node) : Node :=
  mkNode (id n) (name n) (kind n) (flags n) v (type n) (signatures n) (comment n)
         (_name n) (_pageHref n) (_pageId n) (_feature n) (_enums n) (_type n) (_method n) (_event n).
Definition set_type (v : option SomeType) (n : Node) : Node :=
  mkNode (id n) (name n) (kind n) (flags n) (children n) v (signatures n) (comment n)
         (_name n) (_pageHref n) (_pageId n) (_feature n) (_enums n) (_type n) (_method n) (_event n).
Definition set_signatures (v : option (list Signature)) (n : Node) : Node :=
  mkNode (id n) (name n) (kind n) (flags n) (children n) (type n) v (comment n)
         (_name n) (_pageHref n) (_pageId n) (_feature n) (_enums n) (_type n) (_method n) (_event n).
Definition set_comment (v : option Comment) (n : Node) : Node :=
  mkNode (id n) (name n) (kind n) (flags n) (children n) (type n) (signatures n) v
         (_name n) (_pageHref n) (_pageId n) (_feature n) (_enums n) (_type n) (_method n) (_event n).
Definition set__name (v : option string) (n : Node) : Node :=
  mkNode (id n) (name n) (kind n) (flags n) (children n) (type n) (signatures n) (comment n)
         v (_pageHref n) (_pageId n) (_feature n) (_enums n) (_type n) (_method n) (_event n).
Definition set__pageHref (v : option string) (n : Node) : Node :=
  mkNode (id n) (name n) (kind n) (flags n) (children n) (type n) (signatures n) (comment n)
         (_name n) v (_pageId n) (_feature n) (_enums n) (_type n) (_method n) (_event n).
Definition set__pageId (v : option string) (n : Node) : Node :=
  mkNode (id n) (name n) (kind n) (flags n) (children n) (type n) (signatures n) (comment n)
         (_name n) (_pageHref n) v (_feature n) (_enums n) (_type n) (_method n) (_event n).
Definition set__feature (v : option FeatureInfo) (n : Node) : Node :=
  mkNode (id n) (name n) (kind n) (flags n) (children n) (type n) (signatures n) (comment n)
         (_name n) (_pageHref n) (_pageId n) v (_enums n) (_type n) (_method n) (_event n).
Definition set__enums (v : option (list TypesEnumPair)) (n : Node) : Node :=
  mkNode (id n) (name n) (kind n) (flags n) (children n) (type n) (signatures n) (comment n)
         (_name n) (_pageHref n) (_pageId n) (_feature n) v (_type n) (_method n) (_event n).
Definition set__type (v : option (list Node)) (n : Node) : Node :=
  mkNode (id n) (name n) (kind n) (flags n) (children n) (type n) (signatures n) (comment n)
         (_name n) (_pageHref n) (_pageId n) (_feature n) (_enums n) v (_method n) (_event n).
Definition set__method (v : option Method) (n : Node) : Node :=
  mkNode (id n) (name n) (kind n) (flags n) (children n) (type n) (signatures n) (comment n)
         (_name n) (_pageHref n) (_pageId n) (_feature n) (_enums n) (_type n) v (_event n).
Definition set__event (v : option EventInfo) (n : Node) : Node :=
  mkNode (id n) (name n) (kind n) (flags n) (children n) (type n) (signatures n) (comment n)
         (_name n) (_pageHref n) (_pageId n) (_feature n) (_enums n) (_type n) (_method n) v.

(** A declaration as the TypeDoc serializer emits it: none of the extended
    fields is present. *)
Definition declaration (id : Z) (name : string) (kind : Z) (flags : Flags)
    (children : option (list Node)) (type : option SomeType)
    (signatures : option (list Signature)) (comment : option Comment) : Node :=
  mkNode id name kind flags children type signatures comment
         None None None None None None None None.

(** [typedoc.JSONOutput.ProjectReflection]: only its children are read. *)
Record ProjectReflection := mkProject { project_children : option (list Node) }.

(** The members of [typedoc.ReflectionKind] that the source names.  The
    enumeration belongs to the TypeDoc library; its members are bit flags
    ([VariableOrProperty] is a mask), and the transform is taken over any
    assignment of them. *)
Class ReflectionKind := {
  Kind_Namespace : Z;
  Kind_VariableOrProperty : Z;
  Kind_Parameter : Z;
  Kind_TypeAlias : Z }.

(** The members as TypeDoc 0.20 to 0.22 publishes them
    ([Variable = 32], [Property = 1024], [VariableOrProperty] their union). *)
Definition typedoc_ReflectionKind : ReflectionKind := {|
  Kind_Namespace := 4;
  Kind_VariableOrProperty := 1056;
  Kind_Parameter := 32768;
  Kind_TypeAlias := 4194304 |}.

(** ** Results, errors and the state of a [Transform] *)

Inductive Error : Type :=
| EventWithoutArgument (referenceName : option string)
| UnexpectedFirstArgument (firstArgument : SomeType)
| DeclarativeMissingArgs (referenceType : option SomeType)
| JsonSyntaxError (raw : string)
| TypeError (what : string)
| BadPendingReference.

(** [OutOfFuel] is not a behaviour of the program: it is how a recursion
    bounded by a counter says that the counter was too small. *)
Inductive Result (A : Type) : Type :=
| Ok (a : A)
| Throw (e : Error)
| OutOfFuel.
Arguments Ok {A} a.
Arguments Throw {A} e.
Arguments OutOfFuel {A}.

(** A handle is the position of an object in the store. *)
Abbreviation Handle := nat.

(** The fields of [Transform].  [namespaces] is a JavaScript object whose
    values are enumerated, so it keeps its keys in insertion order (keys are
    taken not to be array indices, which an object would enumerate first).
    [allByName] is a JavaScript object too; it holds the entries filed in
    it, and [getAllByName] below is a read of it.  The keys of both are
    taken not to be [__proto__], an assignment to which adds no key. *)
Record State := mkState {
  heap : list Node;
  namespaces : list (string * Handle);
  pendingReferences : list Handle;
  indexForReferences : gmap Z Handle;
  allByName : gmap string Handle }.

Definition newTransform : State := mkState [] [] [] ∅ ∅.

(** Statements that read or write the fields of [this] and may throw. *)
Definition M (A : Type) : Type := State -> Result (A * State).

Definition ret {A} (a : A) : M A := fun st => Ok (a, st).

Definition bind {A B} (m : M A) (k : A -> M B) : M B :=
  fun st =>
    match m st with
    | Ok (a, st') => k a st'
    | Throw e => Throw e
    | OutOfFuel => OutOfFuel
    end.

Definition lift {A} (r : Result A) : M A :=
  fun st =>
    match r with
    | Ok a => Ok (a, st)
    | Throw e => Throw e
    | OutOfFuel => OutOfFuel
    end.

Definition throw {A} (e : Error) : M A := fun _ => Throw e.

Declare Scope js_scope.
Delimit Scope js_scope with js.
Notation "'let*' x := m 'in' k" := (bind m (fun x => k))
  (at level 10, x name, m at level 100, k at level 200) : js_scope.
Notation "'let*' ' p := m 'in' k" := (bind m (fun x => match x with p => k end))
  (at level 10, p pattern, m at level 100, k at level 200) : js_scope.
Notation "m ';;;' k" := (bind m (fun _ => k))
  (at level 100, k at level 200, right associativity) : js_scope.
Local Open Scope js_scope.

(** [for (const x of xs) { ... }], collecting what the body leaves of [x]. *)
Fixpoint forEach {A B} (body : A -> M B) (xs : list A) : M (list B) :=
  match xs with
  | [] => ret []
  | x :: xs' =>
      let* y := body x in
      let* ys := forEach body xs' in
      ret (y :: ys)
  end.

(** A new object enters the store. *)
Definition alloc (n : Node) : M Handle :=
  fun st =>
    Ok (length (heap st),
        mkState (heap st ++ [n]) (namespaces st) (pendingReferences st)
                (indexForReferences st) (allByName st)).

(** The object behind a handle takes its current value. *)
Definition store (h : Handle) (n : Node) : M unit :=
  fun st =>
    Ok (tt, mkState (<[h := n]> (heap st)) (namespaces st)
                    (pendingReferences st) (indexForReferences st)
                    (allByName st)).

(** [this.allByName[key] = node] *)
Definition setAllByName (key : string) (h : Handle) : M unit :=
  fun st =>
    Ok (tt, mkState (heap st) (namespaces st) (pendingReferences st)
                    (indexForReferences st) (<[key := h]> (allByName st))).

(** [this.indexForReferences.set(id, node)] *)
Definition setIndexForReferences (key : Z) (h : Handle) : M unit :=
  fun st =>
    Ok (tt, mkState (heap st) (namespaces st) (pendingReferences st)
                    (<[key := h]> (indexForReferences st)) (allByName st)).

(** [this.pendingReferences.push(node)] *)
Definition pushPendingReference (h : Handle) : M unit :=
  fun st =>
    Ok (tt, mkState (heap st) (namespaces st) (pendingReferences st ++ [h])
                    (indexForReferences st) (allByName st)).

(** [obj[key] = v] on an object enumerated in insertion order: an existing
    key keeps its place. *)
Fixpoint objectSet {V} (key : string) (v : V) (o : list (string * V))
  : list (string * V) :=
  match o with
  | [] => [(key, v)]
  | (k, w) :: o' =>
      if String.eqb k key then (k, v) :: o' else (k, w) :: objectSet key v o'
  end.

(** [this.namespaces[key] = node] *)
Definition setNamespace (key : string) (h : Handle) : M unit :=
  fun st =>
    Ok (tt, mkState (heap st) (objectSet key h (namespaces st))
                    (pendingReferences st) (indexForReferences st)
                    (allByName st)).

(** A [Map<string, V>]: [set] on a present key replaces the value where it
    stands, on a new key appends; [values()] follows that order. *)
Definition mapHas {V} (key : string) (m : list (string * V)) : bool :=
  existsb (fun kv => String.eqb (fst kv) key) m.

Definition mapSet {V} (key : string) (v : V) (m : list (string * V))
  : list (string * V) := objectSet key v m.

Definition mapValues {V} (m : list (string * V)) : list V := map snd m.

(** ** [declarationWith] *)

(** Returns this node, unless it is a type that points to a declaration. *)
Fixpoint declarationWith (node : Node) : Node :=
  match type node with
  | Some (TyReflection (Some d)) => declarationWith d
  | _ => node
  end.

(** [effectiveDeclarationNode] is a reference into [node]: an assignment to
    one of its fields is an assignment at that place of [node]. *)
Fixpoint updateDeclaration (f : Node -> Node) (node : Node) : Node :=
  match type node with
  | Some (TyReflection (Some d)) =>
      set_type (Some (TyReflection (Some (updateDeclaration f d)))) node
  | _ => f node
  end.

(** ** The tag extractors *)

Definition tagsOf (c : option Comment) : list CommentTag :=
  default [] (c ≫= tags).

Definition set_tags (v : option (list CommentTag)) (c : Comment) : Comment :=
  mkComment (shortText c) (comment_text c) (returns c) v.

Definition emptyComment : Comment := mkComment None None None None.

(** The last two statements of both tag promoters:
    [if (!param.comment) param.comment = {};
     param.comment.tags = (param.comment.tags ?? []).concat(virtualNodeTags)] *)
Definition concatCommentTags (virtualNodeTags : list CommentTag) (param : Node)
  : Node :=
  let c := default emptyComment (comment param) in
  set_comment (Some (set_tags (Some (default [] (tags c) ++ virtualNodeTags)) c))
              param.

Definition paramSinceTag (paramPrefix : string) (t : CommentTag)
  : list CommentTag :=
  if negb (Js.startsWith (text t) paramPrefix) then []
  else
    let text := Js.substr (String.length paramPrefix) (text t) in
    if String.eqb (tag t) "chrome-param-since" then [mkTag "since" text]
    else if String.eqb (tag t) "chrome-param-deprecated-since"
    then [mkTag "chrome-deprecated-since" text]
    else if String.eqb (tag t) "chrome-param-deprecated"
    then [mkTag "deprecated" text]
    else [].

(** Given tags from a method signature, upgrade this param with
    standardized-looking tags. *)
Definition upgradeParamWithParamSinceTags (param : Node)
    (tags : list CommentTag) : Node :=
  let paramPrefix := name param +:+ " " in
  concatCommentTags (flat_map (paramSinceTag paramPrefix) tags) param.

Definition returnSinceTag (t : CommentTag) : list CommentTag :=
  if String.eqb (tag t) "chrome-returns-since" then [mkTag "since" (text t)]
  else if String.eqb (tag t) "chrome-returns-deprecated-since"
  then [mkTag "chrome-deprecated-since" (text t)]
  else if String.eqb (tag t) "chrome-returns-deprecated"
  then [mkTag "deprecated" (text t)]
  else [].

Definition upgradeReturnWithReturnSinceTags (param : Node)
    (tags : list CommentTag) : Node :=
  concatCommentTags (flat_map returnSinceTag tags) param.

(** One step of the [forEach] of [_processTagsToFeature].  The local object
    [deprecated] is shared with [out.deprecated] once one of the two
    deprecation tags has been seen, so both tags write to the same record. *)
Definition featureStep (out : FeatureInfo) (t : CommentTag) : FeatureInfo :=
  let text := Js.trim (text t) in
  let 'mkFeature ch si de pe ma mi mx pa di := out in
  let dep := default (mkDeprecated "" None) de in
  if String.eqb (tag t) "chrome-platform-apps"
  then mkFeature ch si de pe ma mi mx (Some true) di
  else if String.eqb (tag t) "since"
  then mkFeature ch (Some text) de pe ma mi mx pa di
  else if String.eqb (tag t) "chrome-channel"
  then mkFeature text si de pe ma mi mx pa di
  else if String.eqb (tag t) "chrome-permission"
  then mkFeature ch si de (Some (default [] pe ++ [text])) ma mi mx pa di
  else if String.eqb (tag t) "chrome-manifest"
  then mkFeature ch si de pe (Some (default [] ma ++ [text])) mi mx pa di
  else if String.eqb (tag t) "deprecated"
  then mkFeature ch si (Some (mkDeprecated text (dep_since dep)))
                 pe ma mi mx pa di
  else if String.eqb (tag t) "chrome-deprecated-since"
  then mkFeature ch si (Some (mkDeprecated (dep_value dep) (Some text)))
                 pe ma mi mx pa di
  else if String.eqb (tag t) "chrome-min-manifest"
  then mkFeature ch si de pe ma (Some text) mx pa di
  else if String.eqb (tag t) "chrome-max-manifest"
  then mkFeature ch si de pe ma mi (Some text) pa di
  else if String.eqb (tag t) "chrome-disallow-service-workers"
  then mkFeature ch si de pe ma mi mx pa (Some true)
  else out.

Definition _processTagsToFeature (tags : list CommentTag) : FeatureInfo :=
  fold_left featureStep tags
            (mkFeature "stable" None None None None None None None None).

Section TagsForChromeEnum.

(** [JSON.parse], a function of the JavaScript runtime: [None] when it
    throws a [SyntaxError]. *)
Variable JSON_parse : string -> option JsonValue.

(** The body of the [forEach] for one tag of kind [chrome-enum]. *)
Definition chromeEnumPair (t : CommentTag) : Result TypesEnumPair :=
  let text := Js.trim (text t) in
  let raw := Js.unescapeUnderscore (Js.splitSpaceHead text) in
  match JSON_parse raw with
  | None => Throw (JsonSyntaxError raw)
  | Some value =>
      let rest := Js.trim (Js.substr (String.length raw + 1) text) in
      Ok (mkEnumPair value rest)
  end.

Fixpoint chromeEnumPairs (tags : list CommentTag) (enums : list TypesEnumPair)
  : Result (list TypesEnumPair) :=
  match tags with
  | [] => Ok enums
  | t :: tags' =>
      if negb (String.eqb (tag t) "chrome-enum")
      then chromeEnumPairs tags' enums
      else
        match chromeEnumPair t with
        | Ok e => chromeEnumPairs tags' (enums ++ [e])
        | Throw e => Throw e
        | OutOfFuel => OutOfFuel
        end
  end.

Definition _processTagsForChromeEnum (tags : list CommentTag)
  : Result (option (list TypesEnumPair)) :=
  match chromeEnumPairs tags [] with
  | Ok enums =>
      Ok (match enums with [] => None | _ => Some enums end)
  | Throw e => Throw e
  | OutOfFuel => OutOfFuel
  end.

End TagsForChromeEnum.

(** ** The event upgrader *)

(** nb. we include "Event" as typedoc flattens "event.Events" sometimes (?) *)
Definition chromeEventRefTypes : list string :=
  ["CustomChromeEvent"; "events.Event"; "Event"].

Definition includes (l : list string) (x : string) : bool :=
  existsb (String.eqb x) l.

(** [referenceType.typeArguments] and [referenceType.name], read off whatever
    type the node has. *)
Definition typeArgumentsOf (t : option SomeType) : option (list SomeType) :=
  match t with
  | Some (TyReference _ _ a) => a
  | _ => None
  end.

Definition typeNameOf (t : option SomeType) : option string :=
  match t with
  | Some (TyReference _ n _) => Some n
  | Some (TyIntrinsic n) => Some n
  | _ => None
  end.

Definition ensureArrayOfType (type : SomeType) : list SomeType :=
  match type with
  | TyUnion types => types
  | _ => [type]
  end.

(** [arg.declaration?.signatures?.[0]?.parameters ?? []] *)
Definition firstSignatureParameters (arg : SomeType) : list Node :=
  match arg with
  | TyReflection (Some d) =>
      match signatures d with
      | Some (s :: _) => default [] (parameters s)
      | _ => []
      end
  | _ => []
  end.

Section Transform.

Context {RK : ReflectionKind}.
Variable JSON_parse : string -> option JsonValue.

(** The object literal of a virtual node: [{id: -1, name, kind, flags: {},
    type}]. *)
Definition virtualNode (name : string) (kind : Z) (type : option SomeType)
  : Node :=
  declaration (-1) name kind (mkFlags false) None type None None.

(** Converts the passed node, which points to [chrome.Event] or
    [CustomChromeEvent], to have a magic [_event] property.  The result is
    the node as the call leaves it and the nodes to nest into. *)
Definition upgradeEventNode (node : Node) : Result (Node * list Node) :=
  let referenceType := type node in
  let typeArguments := typeArgumentsOf referenceType in
  match typeArguments ≫= head with
  | None => Throw (EventWithoutArgument (typeNameOf referenceType))
  | Some firstArgument =>
      let normal (parameters : list Node) :=
        Ok (set__event (Some EventCallback)
              (set__method (Some (mkMethod parameters None false)) node),
            parameters) in
      if bool_decide (typeNameOf referenceType = Some "CustomChromeEvent")
      then normal (firstSignatureParameters firstArgument)
      else
        match firstArgument with
        | TyIntrinsic intrinsicName =>
            if negb (String.eqb intrinsicName "never")
            then Throw (UnexpectedFirstArgument firstArgument)
            else
              let args := default [] typeArguments in
              match args !! 1%nat, args !! 2%nat with
              | Some a1, Some a2 =>
                  let conditions := ensureArrayOfType a1 in
                  let actions := ensureArrayOfType a2 in
                  Ok (set__event (Some (EventDeclarative conditions actions))
                                 node,
                      map (fun type =>
                             virtualNode "_declarative-fake" Kind_TypeAlias
                                         (Some type))
                          (conditions ++ actions))
              | _, _ => Throw (DeclarativeMissingArgs referenceType)
              end
        | _ =>
            normal [virtualNode "callback" Kind_Parameter
                                (Some firstArgument)]
        end
  end.

(** The nodes that [upgradeEventNode] returns are, or hold, objects of the
    event node itself: the parameter array of the listener's signature, the
    type arguments.  Walking them changes them in place; this is the event
    node seen afterwards. *)
Definition typesAfterWalk (before : list SomeType) (walked : list Node)
  : list SomeType :=
  zip_with (fun t w => default t (type w)) before walked.

Definition rejoinArrayOfType (type : SomeType) (members : list SomeType)
  : SomeType :=
  match type with
  | TyUnion _ => TyUnion members
  | _ => default type (head members)
  end.

Definition setFirstSignatureParameters (arg : SomeType) (ps : list Node)
  : SomeType :=
  match arg with
  | TyReflection (Some d) =>
      match signatures d with
      | Some (s :: ss) =>
          match parameters s with
          | Some _ =>
              TyReflection
                (Some (set_signatures
                         (Some (mkSignature (Some ps) (sig_type s)
                                            (sig_comment s) :: ss)) d))
          | None => arg
          end
      | _ => arg
      end
  | _ => arg
  end.

Definition eventNodeAfterWalk (node : Node) (walked : list Node) : Node :=
  match type node, _event node with
  | Some (TyReference rid rname (Some (first :: rest))),
    Some (EventDeclarative conditions actions) =>
      let members := typesAfterWalk (conditions ++ actions) walked in
      let conditions' := take (length conditions) members in
      let actions' := drop (length conditions) members in
      match rest with
      | a1 :: a2 :: rest' =>
          set_type
            (Some (TyReference rid rname
                     (Some (first :: rejoinArrayOfType a1 conditions'
                              :: rejoinArrayOfType a2 actions' :: rest'))))
            (set__event (Some (EventDeclarative conditions' actions')) node)
      | _ => node
      end
  | Some (TyReference rid rname (Some (first :: rest))), Some EventCallback =>
      let first' :=
        if String.eqb rname "CustomChromeEvent"
        then setFirstSignatureParameters first walked
        else default first (head (typesAfterWalk [first] walked)) in
      set_type (Some (TyReference rid rname (Some (first' :: rest))))
               (set__method (Some (mkMethod walked None false)) node)
  | _, _ => node
  end.

(** ** The signature loop of [walk] *)

Record SignatureScan := mkScan {
  allParams : list (string * Node);
  nodeComment : option Comment;
  returnSignatureComment : option Comment;
  returnType : option SomeType }.

(** The body of [for (const param of s.parameters ?? [])]. *)
Definition paramStep (s : Signature) (allParams : list (string * Node))
    (param : Node) : list (string * Node) :=
  if negb (mapHas (name param) allParams) || isOptional (flags param)
  then mapSet (name param)
              (upgradeParamWithParamSinceTags param (tagsOf (sig_comment s)))
              allParams
  else allParams.

Definition isVoid (t : SomeType) : bool :=
  match t with
  | TyIntrinsic n => String.eqb n "void"
  | _ => false
  end.

(** The body of [for (const s of signatures)]. *)
Definition signatureStep (acc : SignatureScan) (s : Signature)
  : SignatureScan :=
  let allParams :=
    fold_left (paramStep s) (default [] (parameters s)) (allParams acc) in
  match sig_type s with
  | Some t =>
      if isVoid t
      then mkScan allParams (nodeComment acc) (returnSignatureComment acc)
                  (returnType acc)
      else mkScan allParams (nodeComment acc ?? sig_comment s)
                  (sig_comment s) (Some t)
  | None =>
      mkScan allParams (nodeComment acc) (returnSignatureComment acc)
             (returnType acc)
  end.

Definition scanSignatures (signatures : list Signature)
    (nodeComment : option Comment) : SignatureScan :=
  fold_left signatureStep signatures (mkScan [] nodeComment None None).

(** The virtual [ParameterReflection] recorded in [_method.return]. *)
Definition returnVirtualNode (returnType : SomeType)
    (nodeComment returnSignatureComment : option Comment) : Node :=
  let v := virtualNode "return" Kind_Parameter (Some returnType) in
  let v :=
    match nodeComment ≫= returns with
    | Some r =>
        if Js.truthy r
        then set_comment (Some (mkComment (Some r) None None None)) v
        else v
    | None => v
    end in
  upgradeReturnWithReturnSinceTags v (tagsOf returnSignatureComment).

Definition isPromise (t : SomeType) : bool :=
  match t with
  | TyReference _ n _ => String.eqb n "Promise"
  | _ => false
  end.

(** ** The embedded types of [walk] *)

(** [[t?.types, t?.elements, t?.elementType, t?.typeArguments].flat()
    .filter(x => x)] *)
Definition embeddedTypes (t : option SomeType) : list SomeType :=
  match t with
  | Some (TyUnion types) | Some (TyIntersection types) => types
  | Some (TyTuple elements) => default [] elements
  | Some (TyArray elementType) => [elementType]
  | Some (TyReference _ _ typeArguments) => default [] typeArguments
  | _ => []
  end.

(** [Boolean(t && ('types' in t || 'elementType' in t))] *)
Definition hoistsProperties (t : option SomeType) : bool :=
  match t with
  | Some (TyUnion _) | Some (TyIntersection _) | Some (TyArray _) => true
  | _ => false
  end.

(** The embedded types are objects of [t], wrapped into virtual nodes and
    walked: [t] afterwards. *)
Definition setEmbeddedTypes (t : option SomeType) (ts : list SomeType)
  : option SomeType :=
  match t with
  | Some (TyUnion _) => Some (TyUnion ts)
  | Some (TyIntersection _) => Some (TyIntersection ts)
  | Some (TyTuple (Some _)) => Some (TyTuple (Some ts))
  | Some (TyArray e) => Some (TyArray (default e (head ts)))
  | Some (TyReference i n (Some _)) => Some (TyReference i n (Some ts))
  | _ => t
  end.

(** ** [walk] *)

Definition isNamespace (n : Node) : bool := kind n =? Kind_Namespace.

(** [this.walk(c, extendedNode, namespace)] for an object [c] that the
    transform meets for the first time. *)
Definition walkChild (walk : Handle -> Node -> option Node -> Node -> M Node)
    (parent namespace c : Node) : M Node :=
  let* h := alloc c in
  walk h c (Some parent) namespace.

(** The body of [walk] follows, block by block as the comments of the source
    divide it.  [walk] itself is the parameter of the same name, [self] is
    the handle of [node]; the local [extendedNode] is [node] again, and
    [effectiveDeclarationNode] is read as [declarationWith node] and written
    through [updateDeclaration]. *)
Definition Walk : Type := Handle -> Node -> option Node -> Node -> M Node.

Definition initialPrefix (node : Node) : string :=
  if Z.land (kind node) Kind_VariableOrProperty =? 0
  then "type" else "property".

(** Set the page that this node is on, which might be needed by children. *)
Definition walkPlace (self : Handle) (node : Node) (parent : option Node)
    (namespace : Node) : M Node :=
  match parent with
  | Some p =>
      let _name := Js.str (_name p) +:+ "." +:+ name node in
      let node :=
        set__pageHref (_pageHref namespace) (set__name (Some _name) node) in
      setAllByName _name self ;;;
      ret node
  | None => ret node
  end.

(** We create virtual nodes at -1, so don't store them. *)
Definition walkIndex (self : Handle) (node : Node) : M unit :=
  if 0 <? id node then setIndexForReferences (id node) self else ret tt.

(** A reference to a Chrome event type is upgraded and the parameters of its
    listener are walked; any other reference is resolved later. *)
Definition walkReference (walk : Walk) (self : Handle) (node namespace : Node)
    (nodePrefix : string) : M (Node * string) :=
  match type node with
  | Some (TyReference _ rname _) =>
      if includes chromeEventRefTypes rname
      then
        let* '(node, children) := lift (upgradeEventNode node) in
        let* walked := forEach (walkChild walk node namespace) children in
        ret (eventNodeAfterWalk node walked, "event")
      else
        pushPendingReference self ;;;
        ret (node, nodePrefix)
  | _ => ret (node, nodePrefix)
  end.

(** This is a type or namespace or something with children.  Only process
    non-namespace children. *)
Definition walkChildren (walk : Walk) (node namespace : Node) : M Node :=
  match children (declarationWith node) with
  | Some (c :: cs) =>
      let children := filter (fun c => negb (isNamespace c)) (c :: cs) in
      let node := updateDeclaration (set_children (Some [])) node in
      match children with
      | _ :: _ =>
          let* walked := forEach (walkChild walk node namespace) children in
          ret (set__type (Some walked) node)
      | [] => ret node
      end
  | _ => ret node
  end.

(** This is a function or a method. *)
Definition walkSignatures (walk : Walk) (node namespace : Node)
    (nodePrefix : string) : M (Node * string) :=
  match signatures (declarationWith node) with
  | Some (s0 :: ss) =>
      let signatures := s0 :: ss in
      let scan := scanSignatures signatures (comment (declarationWith node)) in
      let node := updateDeclaration (set_signatures (Some [])) node in
      let parameters := mapValues (allParams scan) in
      (* Hoist the comment onto the top node if it doesn't already have one. *)
      let nodeComment := nodeComment scan ?? sig_comment s0 in
      let node := set_comment nodeComment node in
      let node := set__method (Some (mkMethod parameters None false)) node in
      match returnType scan with
      | Some returnType =>
          let virtualNode :=
            returnVirtualNode returnType nodeComment
                              (returnSignatureComment scan) in
          let* walked := forEach (walkChild walk node namespace) parameters in
          let* walkedReturn := walkChild walk node namespace virtualNode in
          ret (set__method
                 (Some (mkMethod walked (Some walkedReturn)
                                 (isPromise returnType))) node,
               "method")
      | None =>
          let* walked := forEach (walkChild walk node namespace) parameters in
          ret (set__method (Some (mkMethod walked None false)) node, "method")
      end
  | _ => ret (node, nodePrefix)
  end.

(** This could have embedded types (intersection, union, array or tuple).
    We descend into them as a virtual reflection. *)
Definition walkEmbeddedTypes (walk : Walk) (node namespace : Node) : M Node :=
  match _event node with
  | Some _ => ret node
  | None =>
      let t := type (declarationWith node) in
      let allTypes := embeddedTypes t in
      let* walked :=
        forEach (fun t =>
                   walkChild walk node namespace
                     (virtualNode (name (declarationWith node))
                                  Kind_TypeAlias (Some t)))
                allTypes in
      let node :=
        updateDeclaration
          (set_type (setEmbeddedTypes t (typesAfterWalk allTypes walked)))
          node in
      let innerProperties :=
        if hoistsProperties t
        then flat_map (fun v => default [] (_type v)) walked
        else [] in
      (* Apply the properties if we found any. *)
      match innerProperties with
      | _ :: _ => ret (set__type (Some innerProperties) node)
      | [] => ret node
      end
  end.

(** Extract comment/tags, set feature information and the enum pairs. *)
Definition walkTags (node : Node) : M Node :=
  let effectiveComment := comment (declarationWith node) ?? comment node in
  let effectiveTags := tagsOf effectiveComment in
  let node := set__feature (Some (_processTagsToFeature effectiveTags)) node in
  let* maybeEumPairs :=
    lift (_processTagsForChromeEnum JSON_parse effectiveTags) in
  match maybeEumPairs with
  | Some _ => ret (set__enums maybeEumPairs node)
  | None => ret node
  end.

(** Set the ID on the page last, because we get its nodePrefix via the checks
    above. *)
Definition walkPageId (node : Node) (parent : option Node) (namespace : Node)
    (nodePrefix : string) : M Node :=
  match parent with
  | Some _ =>
      match _name node, _name namespace with
      | Some nodeName, Some namespaceName =>
          let pageIdPart :=
            Js.substr (String.length namespaceName + 1) nodeName in
          ret (set__pageId
                 (Some (nodePrefix +:+ "-"
                          +:+ Js.replaceChar "." "-" pageIdPart)) node)
      | _, _ => throw (TypeError "_name")
      end
  | None => ret node
  end.

Definition walk_body (walk : Walk) (self : Handle) (node : Node)
    (parent : option Node) (namespace : Node) : M Node :=
  let nodePrefix := initialPrefix node in
  let* node := walkPlace self node parent namespace in
  walkIndex self node ;;;
  let* '(node, nodePrefix) :=
    walkReference walk self node namespace nodePrefix in
  let* node := walkChildren walk node namespace in
  let* '(node, nodePrefix) := walkSignatures walk node namespace nodePrefix in
  let* node := walkEmbeddedTypes walk node namespace in
  let* node := walkTags node in
  let* node := walkPageId node parent namespace nodePrefix in
  store self node ;;;
  ret node.

(** The recursion of [walk] is on the objects nested in the node; the
    counter bounds its depth ([walk_terminates] below shows that the size
    of the node is depth enough). *)
Fixpoint walk (fuel : nat) (self : Handle) (node : Node)
    (parent : option Node) (namespace : Node) : M Node :=
  match fuel with
  | O => fun _ => OutOfFuel
  | S fuel' => walk_body (walk fuel') self node parent namespace
  end.

(** ** [findNamespaceRoots] *)

(** The loop of [traverse] over the children of a node, [traverse] itself
    being the parameter of the same name: the children as the loop leaves
    them, and [hasOnlyNamespaces]. *)
Definition traverseChildren (traverse : Node -> option Node -> M Node)
    (extendedNode : Node) : list Node -> M (list Node * bool) :=
  fix loop (cs : list Node) : M (list Node * bool) :=
    match cs with
    | [] => ret ([], true)
    | child :: cs' =>
        if isNamespace child
        then
          let* child' := traverse child (Some extendedNode) in
          let* '(cs'', hasOnlyNamespaces) := loop cs' in
          ret (child' :: cs'', hasOnlyNamespaces)
        else
          let* '(cs'', _) := loop cs' in
          ret (child :: cs'', false)
    end.

(** [const id = extendedNode._name.replace(/^chrome\./, '')] *)
Definition pageKey (qualifiedName : string) : string :=
  Js.removePrefix "chrome." qualifiedName.

(** [id.replace(/\./g, '_')] *)
Definition pageSlug (key : string) : string := Js.replaceChar "." "_" key.

(** The last statements of [traverse]: the node becomes a page root. *)
Definition registerRoot (extendedNode : Node) : M unit :=
  let _name := Js.str (_name extendedNode) in
  let* h := alloc extendedNode in
  setNamespace (pageKey _name) h ;;;
  setAllByName _name h.

(** The inner function [traverse]; [parent] is [None] for [this.project].
    The result is the node as the call leaves it. *)
Fixpoint traverse (node : Node) (parent : option Node) {struct node}
  : M Node :=
  let _name :=
    match parent with
    | None => name node
    | Some parentExtendedNode =>
        Js.str (_name parentExtendedNode) +:+ "." +:+ name node
    end in
  let extendedNode := set__name (Some _name) node in
  let id := pageKey _name in
  let extendedNode := set__pageHref (Some (pageSlug id)) extendedNode in
  let* '(extendedNode, hasOnlyNamespaces) :=
    match children node with
    | Some cs =>
        let* '(cs', hasOnlyNamespaces) :=
          traverseChildren traverse extendedNode cs in
        ret (set_children (Some cs') extendedNode, hasOnlyNamespaces)
    | None => ret (extendedNode, true)
    end in
  if hasOnlyNamespaces then ret extendedNode
  else
    registerRoot extendedNode ;;;
    ret extendedNode.

Definition findNamespaceRoots (project : ProjectReflection) : M unit :=
  forEach (fun child =>
             if isNamespace child
             then traverse child None ;;; ret tt
             else ret tt)
          (default [] (project_children project)) ;;;
  ret tt.

(** ** [run], up to the end of the walk *)

(** The first two steps of [run], lines 60 to 66: find the page roots and
    walk each.  The result is the state of the transform when the last walk
    returns; the two loops that follow are [fixReferences] and
    [fixComments] below. *)
Definition walkRoots (fuel : nat) (project : ProjectReflection)
  : Result State :=
  match
    (findNamespaceRoots project ;;;
     let* namespaces := (fun st => Ok (map snd (namespaces st), st)) in
     forEach (fun h : Handle =>
                let* o := (fun st => Ok (heap st !! h, st)) in
                match o with
                | Some namespace => walk fuel h namespace None namespace
                | None => throw (TypeError "namespace")
                end)
             namespaces) newTransform
  with
  | Ok (_, st) => Ok st
  | Throw e => Throw e
  | OutOfFuel => OutOfFuel
  end.

End Transform.

(** ** [createHref] and [resolveLink] *)

(** Create a link between the two nodes; [None] is [undefined]. *)
Definition createHref (from to : Node) : option string :=
  (* This is "#foo" if there's an ID, or blank otherwise. *)
  let hashPlusId :=
    match _pageId to with
    | Some pageId => if Js.truthy pageId then "#" +:+ pageId else ""
    | None => ""
    end in
  if bool_decide (_pageHref from = _pageHref to)
  then if Js.truthy hashPlusId then Some hashPlusId else None
  else Some ("../" +:+ Js.str (_pageHref to) +:+ "/" +:+ hashPlusId).

Definition popLast (s : string) : string :=
  let last := Js.lastIndexOf "." s in
  if 0 <? last then Js.substr0 (Z.to_nat last) s else "".

(** [allByName] is a plain object, created by [{}]: a read [allByName[key]]
    of a key that the object does not hold goes on to [Object.prototype]
    and yields the member of that name, if there is one.  These are the
    names of the members of [Object.prototype] (ECMAScript with its
    annex B, as Node.js has them); the value of each is a function, that
    of [__proto__] is [Object.prototype] itself. *)
Definition objectPrototypeKeys : list string :=
  ["constructor"; "__defineGetter__"; "__defineSetter__"; "hasOwnProperty";
   "__lookupGetter__"; "__lookupSetter__"; "isPrototypeOf";
   "propertyIsEnumerable"; "toString"; "valueOf"; "__proto__";
   "toLocaleString"].

(** What a read of [allByName] yields: an object that was filed under the
    key, or the member of [Object.prototype] of that name. *)
Inductive Member : Type :=
| Entry (h : Handle)
| Inherited (key : string).

(** [this.allByName[key]], for the object that holds the entries of
    [allByName] as its own properties; [None] is [undefined]. *)
Definition getAllByName (allByName : gmap string Handle) (key : string)
  : option Member :=
  match allByName !! key with
  | Some h => Some (Entry h)
  | None =>
      if includes objectPrototypeKeys key then Some (Inherited key) else None
  end.

(** The [for (;;)] of [resolveLink].  An entry is an object and an
    inherited member is a function or an object: both are truthy. *)
Equations? resolveLinkLoop (allByName : gmap string Handle) (id link : string)
  : option Member by wf (String.length id) lt :=
  resolveLinkLoop allByName EmptyString link := getAllByName allByName link;
  resolveLinkLoop allByName (String a r) link
    with getAllByName allByName (String a r +:+ "." +:+ link) := {
    | Some cand => Some cand
    | None => resolveLinkLoop allByName (popLast (String a r)) link }.
Proof.
  unfold popLast.
  assert (Hlen : forall n s, (String.length (Js.substr0 n s) <= n)%nat).
  { induction n as [|n IH]; intros [|c s]; simpl; try lia.
    specialize (IH s). lia. }
  assert (Hlast : forall s i acc,
             acc < i -> Js.lastIndexOf_from "." s i acc < i + Z.of_nat (String.length s)).
  { induction s as [|c s IH]; intros i acc Hacc; simpl String.length; simpl Js.lastIndexOf_from.
    - lia.
    - specialize (IH (i + 1) (if Ascii.eqb c "." then i else acc)).
      destruct (Ascii.eqb c "."); lia. }
  specialize (Hlast (String a r) 0 (-1) ltac:(lia)).
  fold (Js.lastIndexOf "." (String a r)) in Hlast.
  destruct (0 <? Js.lastIndexOf "." (String a r)) eqn:E.
  - specialize (Hlen (Z.to_nat (Js.lastIndexOf "." (String a r))) (String a r)).
    apply Z.ltb_lt in E. simpl String.length in *. lia.
  - simpl. lia.
Qed.

(** Resolve a link from the given ID to the given link, over [allByName]. *)
Definition resolveLink (allByName : gmap string Handle) (id link : string)
  : option Member :=
  let id := Js.trim id in
  let link := Js.trim link in
  if negb (Js.truthy link) then None
  else resolveLinkLoop allByName id link.

(** ** [run], the references *)

(** [type.id ? this.indexForReferences.get(type.id) : undefined] *)
Definition referenceTarget (st : State) (rid : option Z) : option Node :=
  match rid with
  | Some i =>
      if i =? 0 then None
      else indexForReferences st !! i ≫= fun h => heap st !! h
  | None => None
  end.

(** What the loop over [pendingReferences] does for one node: it assigns
    [_href] on the type of the node, possibly [undefined], or leaves the
    type as it is when the reference has no target. *)
Inductive Fixed : Type :=
| Href (href : option string)
| NoTarget.

(** The body of the loop; [None] is the exception [bad pendingReference]. *)
Definition fixReference (st : State) (node : Node) : option Fixed :=
  match type node with
  | Some (TyReference rid _ _) =>
      match referenceTarget st rid with
      | Some target => Some (Href (createHref node target))
      | None => Some NoTarget
      end
  | _ => None
  end.

(** The loop, over the objects of [pendingReferences] as the walk has left
    them: what it does for each, or [None] when it throws. *)
Definition fixReferences (st : State) : option (list (Handle * Fixed)) :=
  mapM (fun h => heap st !! h ≫= fun node =>
                 fixReference st node ≫= fun f => Some (h, f))
       (pendingReferences st).

(** ** [run], the comments *)

(** The loop over [Object.values(this.allByName)] rewrites the texts of
    every object through [insertCommentHrefForLink] and writes them to
    [_comment], [_feature.deprecated.value] and the descriptions of
    [_enums]; the regular expression of that function is outside this
    model, and so are the texts it writes.  What the model keeps of the
    body is the one statement of it that can throw, line 95:
    [const deprecated = node._feature.deprecated] is a [TypeError] on an
    object without [_feature]. *)
Definition fixComment (h : Handle) : M unit :=
  fun st =>
    match heap st !! h ≫= _feature with
    | Some _ => Ok (tt, st)
    | None => Throw (TypeError "_feature")
    end.

(** The loop.  The values of a [gmap] come in an order of its own, not in
    the order of insertion; every turn leaves the state as it is and
    throws the same error, so the order does not show. *)
Definition fixComments : M unit :=
  fun st =>
    (forEach fixComment (map snd (map_to_list (allByName st))) ;;; ret tt) st.

(** ** [run] *)

Section Run.

Context {RK : ReflectionKind}.
Variable JSON_parse : string -> option JsonValue.

(** The four steps of [run], lines 59 to 111, and what it returns,
    [this.namespaces]: the page keys with the objects of their roots.  The
    objects are those of the state that [walkRoots] ends with, in which the
    second loop has assigned the hrefs that [fixReferences] lists;
    [BadPendingReference] is the error of line 71. *)
Definition run (fuel : nat) (project : ProjectReflection)
  : Result (list (string * Handle)) :=
  match walkRoots JSON_parse fuel project with
  | Ok st =>
      match fixReferences st with
      | None => Throw BadPendingReference
      | Some _ =>
          match fixComments st with
          | Ok _ => Ok (namespaces st)
          | Throw e => Throw e
          | OutOfFuel => OutOfFuel
          end
      end
  | Throw e => Throw e
  | OutOfFuel => OutOfFuel
  end.

End Run.
(** ** Values for the examples *)

(** The double quote, which a literal cannot hold. *)
Definition dquote : string := String (ascii_of_nat 34) EmptyString.

Definition plainChar (a : ascii) : bool :=
  let n := nat_of_ascii a in
  (32 <=? n)%nat && negb (n =? 34)%nat && negb (n =? 92)%nat.

Fixpoint allPlain (s : string) : bool :=
  match s with
  | EmptyString => true
  | String a r => plainChar a && allPlain r
  end.

(** [JSON.parse] on the texts the examples use: [true], [false], [null] and a
    double-quoted string without escapes.  On any other text this function
    answers [None], where [JSON.parse] may well succeed; the theorems below are
    stated over an arbitrary [JSON_parse] and only the examples use this one. *)
Definition parseJsonLiteral (s : string) : option JsonValue :=
  if String.eqb s "true" then Some (JBool true)
  else if String.eqb s "false" then Some (JBool false)
  else if String.eqb s "null" then Some JNull
  else
    match s with
    | String q r =>
        match String.rev r with
        | String q' body =>
            if Ascii.eqb q (ascii_of_nat 34) && Ascii.eqb q' (ascii_of_nat 34)
               && allPlain body
            then Some (JString (String.rev body))
            else None
        | EmptyString => None
        end
    | EmptyString => None
    end.

(** The object that the by-name index holds for a qualified name. *)
Definition nodeByName (st : State) (qualifiedName : string) : option Node :=
  allByName st !! qualifiedName ≫= fun h => heap st !! h.

(** The object that the id index holds for an id. *)
Definition nodeById (st : State) (i : Z) : option Node :=
  indexForReferences st !! i ≫= fun h => heap st !! h.

(** The state that the walks of a run end with, if they end with one. *)
Definition finalState (r : Result State) : option State :=
  match r with
  | Ok st => Some st
  | _ => None
  end.

(** The type held by [_method.return]. *)
Definition methodReturnType (n : Node) : option SomeType :=
  match _method n with
  | Some m =>
      match m_return m with
      | Some r => type r
      | None => None
      end
  | None => None
  end.

(** ** Measures and views used to state the properties *)

(** The number of declarations, types and signatures nested in a node. *)
Fixpoint size_node (n : Node) : nat :=
  S (match children n with
     | Some l => list_sum (map size_node l)
     | None => 0
     end
     + match type n with
       | Some t => size_type t
       | None => 0
       end
     + match signatures n with
       | Some l => list_sum (map size_signature l)
       | None => 0
       end)
with size_type (t : SomeType) : nat :=
  match t with
  | TyReference _ _ typeArguments =>
      S (match typeArguments with
         | Some l => list_sum (map size_type l)
         | None => 0
         end)
  | TyReflection declaration =>
      S (match declaration with
         | Some d => size_node d
         | None => 0
         end)
  | TyUnion types => S (list_sum (map size_type types))
  | TyIntersection types => S (list_sum (map size_type types))
  | TyArray elementType => S (size_type elementType)
  | TyTuple elements =>
      S (match elements with
         | Some l => list_sum (map size_type l)
         | None => 0
         end)
  | TyIntrinsic _ => 1
  | TyOther _ => 1
  end
with size_signature (s : Signature) : nat :=
  S (match parameters s with
     | Some l => list_sum (map size_node l)
     | None => 0
     end
     + match sig_type s with
       | Some t => size_type t
       | None => 0
       end).

(** The positive id of a node: virtual nodes carry [-1]. *)
Definition posId (n : Node) : list Z := filter (fun z => 0 < z) [id n].

(** The positive ids of the declarations nested in a node, the node
    included, each as often as it occurs. *)
Fixpoint ids_node (n : Node) : list Z :=
  posId n
  ++ match children n with
     | Some l => flat_map ids_node l
     | None => []
     end
  ++ match type n with
     | Some t => ids_type t
     | None => []
     end
  ++ match signatures n with
     | Some l => flat_map ids_signature l
     | None => []
     end
with ids_type (t : SomeType) : list Z :=
  match t with
  | TyReference _ _ typeArguments =>
      match typeArguments with
      | Some l => flat_map ids_type l
      | None => []
      end
  | TyReflection declaration =>
      match declaration with
      | Some d => ids_node d
      | None => []
      end
  | TyUnion types => flat_map ids_type types
  | TyIntersection types => flat_map ids_type types
  | TyArray elementType => ids_type elementType
  | TyTuple elements =>
      match elements with
      | Some l => flat_map ids_type l
      | None => []
      end
  | TyIntrinsic _ => []
  | TyOther _ => []
  end
with ids_signature (s : Signature) : list Z :=
  match parameters s with
  | Some l => flat_map ids_node l
  | None => []
  end
  ++ match sig_type s with
     | Some t => ids_type t
     | None => []
     end.

Definition ids_project (project : ProjectReflection) : list Z :=
  flat_map ids_node (default [] (project_children project)).

(** [true] when at least one direct child is not a namespace. *)
Definition hasNonNamespaceChild {RK : ReflectionKind} (n : Node) : bool :=
  existsb (fun c => negb (isNamespace c)) (default [] (children n)).

(** The qualified name that the locator gives a node below [parent]. *)
Definition qualifiedName (parent : option Node) (node : Node) : string :=
  match parent with
  | None => name node
  | Some p => Js.str (_name p) +:+ "." +:+ name node
  end.

(** What [traverse] makes of a node of qualified name [qn] and of the
    namespaces below it, without the state: the node as the call leaves it,
    and the nodes it registers as page roots, in the order in which it
    registers them. *)
Fixpoint locate {RK : ReflectionKind} (node : Node) (qn : string)
  {struct node} : Node * list Node :=
  let extendedNode :=
    set__pageHref (Some (pageSlug (pageKey qn))) (set__name (Some qn) node) in
  let located :=
    match children node with
    | Some cs =>
        let cs' :=
          map (fun c => if isNamespace c
                        then locate c (qn +:+ "." +:+ name c) else (c, []))
              cs in
        (set_children (Some (map fst cs')) extendedNode, flat_map snd cs')
    | None => (extendedNode, [])
    end in
  if hasNonNamespaceChild node
  then (fst located, snd located ++ [fst located])
  else located.

(** The page roots of a project, in the order of registration. *)
Definition locateRoots {RK : ReflectionKind} (project : ProjectReflection)
  : list Node :=
  flat_map (fun c => if isNamespace c then snd (locate c (name c)) else [])
           (default [] (project_children project)).

(** A namespace child of a namespace, with their qualified names. *)
Definition namespaceChild {RK : ReflectionKind} (p c : Node * string) : Prop :=
  exists cs, children (fst p) = Some cs /\ fst c ∈ cs
             /\ isNamespace (fst c) = true
             /\ snd c = snd p +:+ "." +:+ name (fst c).

(** The namespaces that the locator reaches: the namespaces at the top of
    the project and, below a reached namespace, its namespace children; each
    with its qualified name. *)
Definition Reached {RK : ReflectionKind} (project : ProjectReflection)
    (node : Node) (qn : string) : Prop :=
  exists top, top ∈ default [] (project_children project)
              /\ isNamespace top = true
              /\ rtc namespaceChild (top, name top) (node, qn).

(** * Properties *)

Section Properties.

Context {RK : ReflectionKind}.
Variable JSON_parse : string -> option JsonValue.

(** ** Reasoning about statements *)

Lemma bind_Ok {A B} (m : M A) (k : A -> M B) st b st' :
  bind m k st = Ok (b, st') ->
  exists a st1, m st = Ok (a, st1) /\ k a st1 = Ok (b, st').
Proof.
  unfold bind. destruct (m st) as [[a st1] | e |]; try discriminate. eauto.
Qed.

Lemma bind_step {A B} (m : M A) (k : A -> M B) st a st1 :
  m st = Ok (a, st1) -> bind m k st = k a st1.
Proof. unfold bind. intros ->. reflexivity. Qed.

Lemma bind_Throw {A B} (m : M A) (k : A -> M B) st e :
  m st = Throw e -> bind m k st = Throw e.
Proof. unfold bind. intros ->. reflexivity. Qed.

Lemma lift_Ok {A} (r : Result A) st a st' :
  lift r st = Ok (a, st') -> r = Ok a /\ st' = st.
Proof. unfold lift. destruct r; intros H; inversion H; auto. Qed.

Lemma ret_Ok {A} (a b : A) st st' : ret a st = Ok (b, st') -> b = a /\ st' = st.
Proof. unfold ret. intros H; inversion H; auto. Qed.

(** Splits an equation [m st = Ok _] along the statements of [m]. *)
Ltac inv_M :=
  repeat match goal with
    | H : bind _ _ _ = Ok _ |- _ =>
        let a := fresh "a" in let st := fresh "st" in
        let H1 := fresh H in
        apply bind_Ok in H as (a & st & H1 & H)
    | H : ret _ _ = Ok _ |- _ => apply ret_Ok in H as [? ?]; subst
    | H : lift _ _ = Ok _ |- _ => apply lift_Ok in H as [? ?]; subst
    | H : throw _ _ = Ok _ |- _ => discriminate H
    | H : Ok _ = Ok _ |- _ => inversion H; subst; clear H
    | H : (_, _) = (_, _) |- _ => inversion H; subst; clear H
    end.

(** The projections of a node after an assignment to one of its fields. *)
Ltac node_fields :=
  repeat match goal with n : Node |- _ => destruct n end;
  simpl in *; try congruence; try reflexivity.

Lemma walkPlace_Ok self node parent namespace st :
  exists node1 st1,
    walkPlace self node parent namespace st = Ok (node1, st1)
    /\ type node1 = type node /\ id node1 = id node.
Proof.
  unfold walkPlace. destruct parent as [p|].
  - eexists _, _. split; [reflexivity|]. split; node_fields.
  - eexists _, _. split; [reflexivity|]. auto.
Qed.

Lemma walkIndex_Ok self node st :
  exists st1, walkIndex self node st = Ok (tt, st1).
Proof. unfold walkIndex. destruct (0 <? id node); eexists; reflexivity. Qed.

(** ** Href computation *)

(** C7. For [from] and [to] carrying a [_pageHref]: on the same page the href
    is ["#" + to._pageId] when [to] has a page id (a present page id is a
    non-empty string, as the walker assigns them) and [undefined], a self-link
    with no anchor, when it has none; on different pages it is
    ["../" + to._pageHref + "/"], followed by ["#" + to._pageId] exactly when
    [to] has a page id. *)
Theorem createHref_spec (from to : Node) (hrefFrom hrefTo : string) :
  _pageHref from = Some hrefFrom ->
  _pageHref to = Some hrefTo ->
  (hrefFrom = hrefTo ->
   (forall pageId, _pageId to = Some pageId -> pageId <> EmptyString ->
                   createHref from to = Some ("#" +:+ pageId))
   /\ (_pageId to = None -> createHref from to = None))
  /\ (hrefFrom <> hrefTo ->
      (forall pageId, _pageId to = Some pageId -> pageId <> EmptyString ->
                      createHref from to
                      = Some ("../" +:+ hrefTo +:+ "/" +:+ "#" +:+ pageId))
      /\ (_pageId to = None ->
          createHref from to = Some ("../" +:+ hrefTo +:+ "/"))).
Proof.
  intros Hf Ht. unfold createHref. rewrite Hf, Ht.
  split; intros Hpage.
  - subst hrefTo. rewrite bool_decide_eq_true_2 by reflexivity.
    split.
    + intros pageId -> Hne. destruct pageId; [congruence | reflexivity].
    + intros ->. reflexivity.
  - rewrite bool_decide_eq_false_2 by congruence.
    split.
    + intros pageId -> Hne. destruct pageId; [congruence | reflexivity].
    + intros ->. reflexivity.
Qed.

(** ** The enum tag extractor *)

(** Without enum-member tags the extractor answers [undefined], not an empty
    list, whatever the other tags are. *)
Lemma chromeEnum_absent (tags : list CommentTag) :
  Forall (fun t => tag t <> "chrome-enum") tags ->
  _processTagsForChromeEnum JSON_parse tags = Ok None.
Proof.
  intros Hall. unfold _processTagsForChromeEnum.
  assert (H : forall enums, chromeEnumPairs JSON_parse tags enums = Ok enums).
  { induction Hall as [|t tags Ht _ IH]; intros enums; simpl; [reflexivity|].
    apply String.eqb_neq in Ht. rewrite Ht. simpl. apply IH. }
  rewrite H. reflexivity.
Qed.

(** ** The event upgrader *)

(** The shapes of an event-marker reference that the upgrader refuses: no
    first type argument; or, on a reference that is not the custom event
    marker, an intrinsic first argument other than [never], or [never] without
    a second and a third argument. *)
Definition malformedEvent (rname : string) (targs : option (list SomeType))
  : Prop :=
  targs ≫= head = None
  \/ (rname <> "CustomChromeEvent"
      /\ exists n, targs ≫= head = Some (TyIntrinsic n) /\ n <> "never")
  \/ (rname <> "CustomChromeEvent"
      /\ targs ≫= head = Some (TyIntrinsic "never")
      /\ (default [] targs !! 1%nat = None \/ default [] targs !! 2%nat = None)).

Lemma upgradeEventNode_cases (node : Node) rid rname targs :
  type node = Some (TyReference rid rname targs) ->
  (malformedEvent rname targs /\ exists e, upgradeEventNode node = Throw e)
  \/ (~ malformedEvent rname targs /\ exists r, upgradeEventNode node = Ok r).
Proof.
  intros Hty. unfold upgradeEventNode, malformedEvent. rewrite Hty. simpl.
  destruct (targs ≫= head) as [first|] eqn:Hfirst.
  2: { left. split; [left; reflexivity | eauto]. }
  case_bool_decide as Hname.
  { right. split; [| eauto].
    intros [H | [[Hn _] | [Hn _]]]; congruence. }
  assert (Hne : rname <> "CustomChromeEvent") by congruence.
  destruct first as [| | | | | | n |]; try (right; split; [| eauto];
    intros [H | [[_ [n [H _]]] | [_ [H _]]]]; congruence).
  destruct (String.eqb n "never") eqn:En; simpl.
  - apply String.eqb_eq in En. subst n.
    destruct (default [] targs !! 1%nat) as [a1|] eqn:H1.
    + destruct (default [] targs !! 2%nat) as [a2|] eqn:H2.
      * right. split; [| eauto].
        intros [H | [[_ [n [H Hn]]] | [_ [_ [H | H]]]]]; congruence.
      * left. split; [| eauto]. right. right. auto.
    + left. split; [| eauto]. right. right. auto.
  - apply String.eqb_neq in En. left. split; [| eauto].
    right. left. split; [assumption|]. exists n. auto.
Qed.

(** C3. On a node whose type is a reference, the upgrader throws exactly on
    the malformed shapes, and otherwise returns; a walk that reaches such a
    node throws as well, so no state is left for the caller. *)
Theorem upgradeEventNode_throws_iff (node : Node) rid rname targs :
  type node = Some (TyReference rid rname targs) ->
  ((exists e, upgradeEventNode node = Throw e) <-> malformedEvent rname targs)
  /\ ((exists r, upgradeEventNode node = Ok r) <-> ~ malformedEvent rname targs)
  /\ (includes chromeEventRefTypes rname = true ->
      malformedEvent rname targs ->
      forall fuel self parent namespace st,
      exists e,
        walk JSON_parse (S fuel) self node parent namespace st = Throw e).
Proof.
  intros Hty.
  destruct (upgradeEventNode_cases node rid rname targs Hty)
    as [[Hbad [e He]] | [Hgood [r Hr]]].
  - split; [| split].
    + split; eauto.
    + split; [intros [r Hr]; congruence | tauto].
    + intros Hin _ fuel self parent namespace st.
      destruct (walkPlace_Ok self node parent namespace st)
        as (node1 & st1 & Hplace & Hty1 & _).
      destruct (walkIndex_Ok self node1 st1) as (st2 & Hindex).
      rewrite Hty in Hty1.
      destruct (upgradeEventNode_cases node1 rid rname targs Hty1)
        as [[_ [e1 He1]] | [H _]]; [| tauto].
      exists e1. simpl. unfold walk_body.
      rewrite (bind_step _ _ _ _ _ Hplace).
      rewrite (bind_step _ _ _ _ _ Hindex).
      apply bind_Throw. unfold walkReference. rewrite Hty1, Hin.
      apply bind_Throw. unfold lift. rewrite He1. reflexivity.
  - split; [| split].
    + split; [intros [e He]; congruence | tauto].
    + split; eauto.
    + tauto.
Qed.

(** The wrapper that the upgrader builds around a condition or an action. *)
Definition declarativeFake (type : SomeType) : Node :=
  virtualNode "_declarative-fake" Kind_TypeAlias (Some type).

(** C4. On a reference that is not the custom event marker, with [never] as
    first type argument and a second and a third argument present: the
    conditions and the actions are the members of the argument when it is a
    union and the argument alone otherwise; [_event] becomes
    [{conditions, actions}]; one wrapper of kind TypeAlias and id [-1] is
    returned for each member, conditions first, and the walker walks each of
    them as a child of the event node. *)
Theorem upgradeEventNode_declarative (node : Node) rid rname a1 a2 rest :
  type node
  = Some (TyReference rid rname
            (Some (TyIntrinsic "never" :: a1 :: a2 :: rest))) ->
  rname <> "CustomChromeEvent" ->
  let conditions := ensureArrayOfType a1 in
  let actions := ensureArrayOfType a2 in
  let node' := set__event (Some (EventDeclarative conditions actions)) node in
  let wrappers := map declarativeFake (conditions ++ actions) in
  upgradeEventNode node = Ok (node', wrappers)
  /\ (forall ts, a1 = TyUnion ts -> conditions = ts)
  /\ ((forall ts, a1 <> TyUnion ts) -> conditions = [a1])
  /\ (forall ts, a2 = TyUnion ts -> actions = ts)
  /\ ((forall ts, a2 <> TyUnion ts) -> actions = [a2])
  /\ length wrappers = (length conditions + length actions)%nat
  /\ Forall (fun w => id w = -1 /\ kind w = Kind_TypeAlias) wrappers
  /\ map type wrappers = map Some (conditions ++ actions)
  /\ (includes chromeEventRefTypes rname = true ->
      forall walk self namespace nodePrefix,
        walkReference walk self node namespace nodePrefix
        = (let* walked := forEach (walkChild walk node' namespace) wrappers in
           ret (eventNodeAfterWalk node' walked, "event"))).
Proof.
  intros Hty Hname conditions actions node' wrappers.
  assert (Hup : upgradeEventNode node = Ok (node', wrappers)).
  { unfold upgradeEventNode. rewrite Hty. simpl.
    rewrite bool_decide_eq_false_2 by congruence. reflexivity. }
  assert (Hens : forall a,
             (forall ts, a = TyUnion ts -> ensureArrayOfType a = ts)
             /\ ((forall ts, a <> TyUnion ts) -> ensureArrayOfType a = [a])).
  { intros a. split.
    - intros ts ->. reflexivity.
    - intros Hnot. destruct a; try reflexivity. exfalso. eapply Hnot; eauto. }
  split; [exact Hup|].
  split; [apply Hens|]. split; [apply Hens|].
  split; [apply Hens|]. split; [apply Hens|].
  split; [unfold wrappers; rewrite length_map, length_app; reflexivity|].
  split; [apply Forall_forall; intros w Hw; unfold wrappers in Hw;
          apply list_elem_of_fmap in Hw as (t & -> & _); auto|].
  split; [unfold wrappers; rewrite map_map; reflexivity|].
  intros Hin walk self namespace nodePrefix.
  unfold walkReference. rewrite Hty, Hin.
  unfold bind at 1, lift. rewrite Hup. reflexivity.
Qed.

(** ** The parameters of a method *)

(** [m.get(key)] *)
Definition mapGet {V} (key : string) (m : list (string * V)) : option V :=
  snd <$> List.find (fun kv => String.eqb (fst kv) key) m.

(** Every parameter of every signature, in the order of the two loops, with
    the signature it stands in. *)
Definition parameterOccurrences (sigs : list Signature)
  : list (Node * Signature) :=
  flat_map (fun s => map (fun p => (p, s)) (default [] (parameters s))) sigs.

(** What the map holds for an occurrence: the parameter, with the since and
    deprecated tags of its signature promoted onto it. *)
Definition storedParameter (ps : Node * Signature) : Node :=
  upgradeParamWithParamSinceTags (fst ps) (tagsOf (sig_comment (snd ps))).

(** The occurrence of a name that the merge retains: the last one marked
    optional, or the first one when none is. *)
Definition retainedOccurrence (x : string) (occ : list (Node * Signature))
  : option (Node * Signature) :=
  let named := filter (fun ps => name (fst ps) = x) occ in
  match last (filter (fun ps => isOptional (flags (fst ps)) = true) named) with
  | Some ps => Some ps
  | None => head named
  end.

Lemma mapGet_objectSet_eq {V} key (v : V) m :
  mapGet key (objectSet key v m) = Some v.
Proof.
  unfold mapGet. induction m as [|[k w] m IH]; simpl.
  - rewrite String.eqb_refl. reflexivity.
  - destruct (String.eqb k key) eqn:E; simpl; rewrite E; [reflexivity | exact IH].
Qed.

Lemma mapGet_objectSet_ne {V} key key' (v : V) m :
  key' <> key -> mapGet key' (objectSet key v m) = mapGet key' m.
Proof.
  intros Hne. unfold mapGet. induction m as [|[k w] m IH]; simpl.
  - apply String.eqb_neq in Hne. rewrite String.eqb_sym, Hne. reflexivity.
  - destruct (String.eqb k key) eqn:E; simpl.
    + apply String.eqb_eq in E. subst k.
      apply String.eqb_neq in Hne. rewrite String.eqb_sym, Hne. reflexivity.
    + destruct (String.eqb k key'); [reflexivity | exact IH].
Qed.

Lemma mapHas_mapGet {V} key (m : list (string * V)) :
  mapHas key m = true <-> is_Some (mapGet key m).
Proof.
  unfold mapHas, mapGet. induction m as [|[k w] m IH]; simpl.
  - split; [discriminate | intros [? ?]; discriminate].
  - destruct (String.eqb k key); simpl; [split; eauto | exact IH].
Qed.

Lemma mapGet_keys {V} key (m : list (string * V)) :
  key ∈ map fst m <-> is_Some (mapGet key m).
Proof.
  unfold mapGet. induction m as [|[k w] m IH]; simpl.
  - split; [intros H; inversion H | intros [? ?]; discriminate].
  - rewrite elem_of_cons, IH. destruct (String.eqb k key) eqn:E; simpl.
    + apply String.eqb_eq in E. split; eauto.
    + apply String.eqb_neq in E. split; [intros [?|?]; congruence | auto].
Qed.

Lemma objectSet_keys {V} key (v : V) m :
  map fst (objectSet key v m)
  = if mapHas key m then map fst m else map fst m ++ [key].
Proof.
  unfold mapHas. induction m as [|[k w] m IH]; simpl; [reflexivity|].
  destruct (String.eqb k key) eqn:E; simpl; [reflexivity|].
  rewrite IH. destruct (existsb _ m); reflexivity.
Qed.

Lemma objectSet_NoDup {V} key (v : V) m :
  NoDup (map fst m) -> NoDup (map fst (objectSet key v m)).
Proof.
  intros Hnd. rewrite objectSet_keys.
  destruct (mapHas key m) eqn:E; [assumption|].
  apply NoDup_app. split; [assumption|]. split; [| apply NoDup_singleton].
  intros x Hx Hx'. apply list_elem_of_singleton in Hx'. subst x.
  apply mapGet_keys, mapHas_mapGet in Hx. congruence.
Qed.

Lemma scan_allParams (sigs : list Signature) (acc : SignatureScan) :
  allParams (fold_left signatureStep sigs acc)
  = fold_left (fun m ps => paramStep (snd ps) m (fst ps))
              (parameterOccurrences sigs) (allParams acc).
Proof.
  revert acc. induction sigs as [|s sigs IH]; intros acc; simpl; [reflexivity|].
  rewrite IH, fold_left_app. f_equal.
  assert (Hstep : allParams (signatureStep acc s)
                  = fold_left (paramStep s) (default [] (parameters s))
                              (allParams acc)).
  { unfold signatureStep. destruct (sig_type s) as [t|]; [destruct (isVoid t)|];
      reflexivity. }
  rewrite Hstep. clear Hstep. generalize (allParams acc).
  induction (default [] (parameters s)) as [|p ps IHp]; intros m; simpl;
    [reflexivity | apply IHp].
Qed.

Lemma retainedOccurrence_None x occ :
  retainedOccurrence x occ = None ->
  filter (fun ps => name (fst ps) = x) occ = [].
Proof.
  unfold retainedOccurrence.
  destruct (last _); [discriminate|].
  destruct (filter _ occ); [reflexivity | discriminate].
Qed.

Lemma merged_parameters (occ : list (Node * Signature)) :
  let m := fold_left (fun m ps => paramStep (snd ps) m (fst ps)) occ [] in
  NoDup (map fst m)
  /\ forall x, mapGet x m = storedParameter <$> retainedOccurrence x occ.
Proof.
  induction occ as [|[p s] occ IH] using rev_ind; simpl.
  { split; [constructor | reflexivity]. }
  rewrite fold_left_app. simpl.
  destruct IH as [Hnd Hget].
  set (m := fold_left _ occ []) in *.
  split.
  - unfold paramStep.
    destruct (negb (mapHas (name p) m) || isOptional (flags p));
      [apply objectSet_NoDup|]; assumption.
  - intros x. unfold retainedOccurrence.
    rewrite filter_app, filter_cons, filter_nil. simpl.
    destruct (decide (name p = x)) as [Hx | Hx].
    + subst x. rewrite filter_app, filter_cons, filter_nil. simpl.
      unfold paramStep.
      destruct (isOptional (flags p)) eqn:Hopt; simpl.
      * rewrite orb_true_r. unfold mapSet. rewrite mapGet_objectSet_eq.
        destruct (decide (true = true)); [| congruence].
        rewrite last_snoc. reflexivity.
      * rewrite orb_false_r.
        destruct (decide (false = true)); [congruence|].
        rewrite app_nil_r.
        destruct (mapHas (name p) m) eqn:Hhas; simpl.
        -- apply mapHas_mapGet in Hhas as [v Hv].
           rewrite Hget in Hv. rewrite Hget. unfold retainedOccurrence.
           destruct (last _) as [ps|]; [reflexivity|].
           destruct (filter (fun ps => name (fst ps) = name p) occ) as [|q qs]
             eqn:Hnamed; [| reflexivity].
           unfold retainedOccurrence in Hv. rewrite Hnamed in Hv.
           simpl in Hv. discriminate.
        -- unfold mapSet. rewrite mapGet_objectSet_eq.
           assert (Hnone : mapGet (name p) m = None).
           { destruct (mapGet (name p) m) eqn:E; [| reflexivity].
             assert (is_Some (mapGet (name p) m)) as H' by eauto.
             apply mapHas_mapGet in H'. congruence. }
           rewrite Hget in Hnone.
           destruct (retainedOccurrence (name p) occ) eqn:E; [discriminate|].
           apply retainedOccurrence_None in E. rewrite E. reflexivity.
    + rewrite app_nil_r. unfold paramStep.
      destruct (negb (mapHas (name p) m) || isOptional (flags p));
        [unfold mapSet; rewrite mapGet_objectSet_ne by congruence|];
        apply Hget.
Qed.


Lemma retainedOccurrence_Some x occ ps :
  retainedOccurrence x occ = Some ps ->
  ps ∈ occ /\ name (fst ps) = x
  /\ ((exists qs, qs ∈ occ /\ name (fst qs) = x
                  /\ isOptional (flags (fst qs)) = true) ->
      isOptional (flags (fst ps)) = true).
Proof.
  unfold retainedOccurrence.
  set (named := filter (fun ps => name (fst ps) = x) occ).
  set (opt := filter (fun ps => isOptional (flags (fst ps)) = true) named).
  destruct (last opt) as [qs|] eqn:Hlast.
  - intros [= ->].
    assert (Hin : ps ∈ opt).
    { apply last_Some in Hlast as [l ->]. apply elem_of_app. right. constructor. }
    apply list_elem_of_filter in Hin as [Hopt Hin].
    apply list_elem_of_filter in Hin as [Hname Hin]. auto.
  - intros Hhead. apply last_None in Hlast.
    assert (Hin : ps ∈ named).
    { destruct named; inversion Hhead; subst. constructor. }
    apply list_elem_of_filter in Hin as [Hname Hin].
    split; [assumption|]. split; [assumption|].
    intros (qs & Hqs & Hqname & Hqopt). exfalso.
    assert (Hq : qs ∈ opt).
    { apply list_elem_of_filter. split; [assumption|].
      apply list_elem_of_filter. auto. }
    rewrite Hlast in Hq. inversion Hq.
Qed.


(** ** The return of a method *)

(** Rewrites the fields read off a node after assignments. *)
Ltac node_simpl :=
  cbn [id name kind flags children type signatures comment _name _pageHref
       _pageId _feature _enums _type _method _event set_children set_type
       set_signatures set_comment set__name set__pageHref set__pageId
       set__feature set__enums set__type set__method set__event] in *.

(** A signature with a return type that is not [void]. *)
Definition returnsValue (s : Signature) : bool :=
  match sig_type s with
  | Some t => negb (isVoid t)
  | None => false
  end.

Lemma scan_snoc sigs s c :
  scanSignatures (sigs ++ [s]) c = signatureStep (scanSignatures sigs c) s.
Proof. unfold scanSignatures. rewrite fold_left_app. reflexivity. Qed.

Lemma scan_returns (sigs : list Signature) (c : option Comment) :
  let scan := scanSignatures sigs c in
  let nonVoid := filter (fun s => returnsValue s = true) sigs in
  returnType scan = last nonVoid ≫= sig_type
  /\ returnSignatureComment scan = last nonVoid ≫= sig_comment
  /\ nodeComment scan = c ?? head (omap sig_comment nonVoid).
Proof.
  induction sigs as [|s sigs IH] using rev_ind.
  { simpl. destruct c; auto. }
  simpl in *. rewrite scan_snoc, filter_app, filter_cons, filter_nil.
  destruct IH as (Ht & Hc & Hn).
  unfold signatureStep, returnsValue.
  destruct (sig_type s) as [t|] eqn:Et; simpl.
  - destruct (isVoid t); simpl.
    + destruct (decide (false = true)); [congruence|].
      rewrite app_nil_r. auto.
    + destruct (decide (true = true)); [| congruence].
      rewrite last_snoc. simpl. rewrite Et. split; [reflexivity|].
      split; [reflexivity|].
      rewrite Hn, omap_app. simpl.
      destruct c; [reflexivity|]. simpl.
      destruct (omap sig_comment _) as [|d ds]; simpl.
      * destruct (sig_comment s); reflexivity.
      * reflexivity.
  - destruct (decide (false = true)); [congruence|].
    rewrite app_nil_r. auto.
Qed.


(** ** Dotted-name lookup *)

(** The dotted segments of a name: the name split at its dots. *)
Fixpoint segments (s : string) : list string :=
  match s with
  | EmptyString => [EmptyString]
  | String c r =>
      if Ascii.eqb c "."
      then EmptyString :: segments r
      else
        match segments r with
        | h :: t => String c h :: t
        | [] => [String c EmptyString]
        end
  end.

(** A name without its last dotted segment. *)
Definition dropLastSegment (s : string) : string :=
  String.concat "." (removelast (segments s)).

(** The position of the last dot of a name. *)
Fixpoint lastDot (s : string) : option nat :=
  match s with
  | EmptyString => None
  | String c r =>
      match lastDot r with
      | Some k => Some (S k)
      | None => if Ascii.eqb c "." then Some O else None
      end
  end.

Lemma lastIndexOf_from_lastDot s i acc :
  Js.lastIndexOf_from "." s i acc
  = match lastDot s with Some k => i + Z.of_nat k | None => acc end.
Proof.
  revert i acc. induction s as [|c r IH]; intros i acc; simpl; [reflexivity|].
  rewrite IH. destruct (lastDot r) as [k|]; [lia|].
  destruct (Ascii.eqb c "."); [lia | reflexivity].
Qed.

Lemma popLast_lastDot s :
  popLast s = match lastDot s with Some k => Js.substr0 k s | None => EmptyString end.
Proof.
  unfold popLast, Js.lastIndexOf. rewrite lastIndexOf_from_lastDot.
  destruct (lastDot s) as [[|k]|]; [reflexivity | | reflexivity].
  replace (0 <? 0 + Z.of_nat (S k)) with true
    by (symmetry; apply Z.ltb_lt; lia).
  replace (Z.to_nat (0 + Z.of_nat (S k))) with (S k) by lia.
  reflexivity.
Qed.

Lemma concat_cons_cons sep (x y : string) l :
  String.concat sep (x :: y :: l) = x +:+ sep +:+ String.concat sep (y :: l).
Proof. reflexivity. Qed.

Lemma segments_lastDot s :
  (lastDot s = None -> segments s = [s])
  /\ (forall k, lastDot s = Some k ->
        exists h t, segments s = h :: t /\ t <> []
                    /\ String.concat "." (removelast (h :: t)) = Js.substr0 k s).
Proof.
  induction s as [|c r [IHnone IHsome]]; simpl.
  { split; [reflexivity | discriminate]. }
  destruct (lastDot r) as [k|] eqn:Hr.
  - split; [discriminate|]. intros k' [= <-].
    destruct (IHsome k eq_refl) as (h & t & Hseg & Ht & Hcat).
    rewrite Hseg. destruct (Ascii.eqb c ".") eqn:Hc.
    + apply Ascii.eqb_eq in Hc. subst c.
      eexists _, _. split; [reflexivity|]. split; [discriminate|].
      destruct t as [|t1 t2]; [congruence|].
      change (removelast (EmptyString :: h :: t1 :: t2))
        with (EmptyString :: removelast (h :: t1 :: t2)).
      change (removelast (h :: t1 :: t2)) with (h :: removelast (t1 :: t2)) in *.
      rewrite concat_cons_cons, Hcat. reflexivity.
    + eexists _, _. split; [reflexivity|]. split; [assumption|].
      destruct t as [|t1 t2]; [congruence|].
      change (removelast (String c h :: t1 :: t2))
        with (String c h :: removelast (t1 :: t2)).
      change (removelast (h :: t1 :: t2)) with (h :: removelast (t1 :: t2)) in Hcat.
      cbn [Js.substr0]. rewrite <- Hcat.
      destruct (removelast (t1 :: t2)); reflexivity.
  - rewrite (IHnone eq_refl).
    destruct (Ascii.eqb c ".") eqn:Hc.
    + apply Ascii.eqb_eq in Hc. subst c.
      split; [discriminate|]. intros k [= <-].
      eexists _, _. split; [reflexivity|]. split; [discriminate | reflexivity].
    + split; [reflexivity | discriminate].
Qed.

(** What the source computes with [lastIndexOf] and [substr] is the name
    without its last dotted segment. *)
Lemma popLast_dropLastSegment s : popLast s = dropLastSegment s.
Proof.
  rewrite popLast_lastDot. unfold dropLastSegment.
  destruct (segments_lastDot s) as [Hnone Hsome].
  destruct (lastDot s) as [k|].
  - destruct (Hsome k eq_refl) as (h & t & -> & _ & Hcat). symmetry. exact Hcat.
  - rewrite (Hnone eq_refl). reflexivity.
Qed.

Lemma substr0_length n s : (String.length (Js.substr0 n s) <= n)%nat.
Proof.
  revert s. induction n as [|n IH]; intros [|c s]; simpl; try lia.
  specialize (IH s). lia.
Qed.

Lemma lastDot_lt s k : lastDot s = Some k -> (k < String.length s)%nat.
Proof.
  revert k. induction s as [|c r IH]; intros k; simpl; [discriminate|].
  destruct (lastDot r) as [j|].
  - intros [= <-]. specialize (IH j eq_refl). lia.
  - destruct (Ascii.eqb c "."); [intros [= <-]; lia | discriminate].
Qed.

Lemma dropLastSegment_shorter a r :
  (String.length (dropLastSegment (String a r)) < String.length (String a r))%nat.
Proof.
  rewrite <- popLast_dropLastSegment, popLast_lastDot.
  destruct (lastDot (String a r)) as [k|] eqn:E.
  - apply lastDot_lt in E. pose proof (substr0_length k (String a r)). lia.
  - simpl. lia.
Qed.

(** The names that the lookup tries, in order, as the specification lists
    them: [id.link], then the same with [id] shortened by its last segment,
    again and again, and [link] alone once [id] is empty. *)
Equations candidateNames (id link : string) : list string
  by wf (String.length id) lt :=
  candidateNames EmptyString link := [link];
  candidateNames (String a r) link :=
    (String a r +:+ "." +:+ link)
      :: candidateNames (dropLastSegment (String a r)) link.
Next Obligation. apply dropLastSegment_shorter. Qed.

Lemma resolveLinkLoop_cons (allByName : gmap string Handle) a r link :
  resolveLinkLoop allByName (String a r) link
  = match getAllByName allByName (String a r +:+ "." +:+ link) with
    | Some cand => Some cand
    | None => resolveLinkLoop allByName (popLast (String a r)) link
    end.
Proof.
  simp resolveLinkLoop.
  destruct (getAllByName allByName (String a r +:+ "." +:+ link));
    reflexivity.
Qed.

Lemma resolveLinkLoop_candidates (allByName : gmap string Handle) link id :
  resolveLinkLoop allByName id link
  = head (omap (getAllByName allByName) (candidateNames id link)).
Proof.
  remember (String.length id) as n eqn:Hn. revert id Hn.
  induction n as [n IH] using lt_wf_ind. intros id Hn.
  destruct id as [|a r].
  - simp resolveLinkLoop candidateNames. simpl.
    destruct (getAllByName allByName link); reflexivity.
  - rewrite resolveLinkLoop_cons. simp candidateNames.
    cbn [omap list_omap].
    destruct (getAllByName allByName (String a r +:+ "." +:+ link))
      as [cand|]; [reflexivity|].
    rewrite popLast_dropLastSegment.
    apply (IH (String.length (dropLastSegment (String a r)))); [| reflexivity].
    subst n. apply dropLastSegment_shorter.
Qed.

(** X15. For a link that is not blank, the lookup answers what the index
    yields for the first of the candidate names for which it yields
    anything, and no match when it yields nothing for any of them; [id] and
    [link] are taken without the white space around them.  The index is a
    plain object: besides the entries filed in it, it yields the members of
    [Object.prototype] under their names. *)
Theorem resolveLink_first_match (allByName : gmap string Handle)
    (id link : string) :
  Js.trim link <> EmptyString ->
  resolveLink allByName id link
  = head (omap (getAllByName allByName)
               (candidateNames (Js.trim id) (Js.trim link))).
Proof.
  intros Hlink. unfold resolveLink.
  destruct (Js.trim link) eqn:E; [congruence|]. simpl.
  apply resolveLinkLoop_candidates.
Qed.

(** ** The namespace locator *)

Lemma list_sum_elem {A} (f : A -> nat) (l : list A) (x : A) :
  x ∈ l -> (f x <= list_sum (map f l))%nat.
Proof.
  induction 1 as [x l | x y l _ IH]; simpl; lia.
Qed.

Lemma size_node_unfold n :
  size_node n
  = S (match children n with
       | Some l => list_sum (map size_node l)
       | None => 0
       end
       + match type n with
         | Some t => size_type t
         | None => 0
         end
       + match signatures n with
         | Some l => list_sum (map size_signature l)
         | None => 0
         end)%nat.
Proof. destruct n; reflexivity. Qed.

Lemma size_child n cs c :
  children n = Some cs -> c ∈ cs -> (size_node c < size_node n)%nat.
Proof.
  intros Hcs Hc. rewrite (size_node_unfold n), Hcs.
  pose proof (list_sum_elem size_node cs c Hc). lia.
Qed.

(** Induction on a node, with the property at hand for its children. *)
Lemma Node_children_ind (P : Node -> Prop) :
  (forall n, (forall cs c, children n = Some cs -> c ∈ cs -> P c) -> P n) ->
  forall n, P n.
Proof.
  intros Hstep n. remember (size_node n) as k eqn:Hk. revert n Hk.
  induction k as [k IH] using lt_wf_ind. intros n ->.
  apply Hstep. intros cs c Hcs Hc.
  apply (IH (size_node c)); [eapply size_child; eauto | reflexivity].
Qed.

(** The state after a node has been registered as a page root. *)
Definition registerState (n : Node) (st : State) : State :=
  let qn := Js.str (_name n) in
  let h := length (heap st) in
  mkState (heap st ++ [n]) (objectSet (pageKey qn) h (namespaces st))
          (pendingReferences st) (indexForReferences st)
          (<[qn := h]> (allByName st)).

Definition registered (regs : list Node) (st : State) : State :=
  fold_left (fun st n => registerState n st) regs st.

Lemma registerRoot_eq n st : registerRoot n st = Ok (tt, registerState n st).
Proof. reflexivity. Qed.

Lemma registered_app l1 l2 st :
  registered (l1 ++ l2) st = registered l2 (registered l1 st).
Proof. apply fold_left_app. Qed.

Lemma traverse_unfold node parent :
  traverse node parent
  = (let _name := qualifiedName parent node in
     let extendedNode := set__name (Some _name) node in
     let id := pageKey _name in
     let extendedNode := set__pageHref (Some (pageSlug id)) extendedNode in
     let* '(extendedNode, hasOnlyNamespaces) :=
       match children node with
       | Some cs =>
           let* '(cs', hasOnlyNamespaces) :=
             traverseChildren traverse extendedNode cs in
           ret (set_children (Some cs') extendedNode, hasOnlyNamespaces)
       | None => ret (extendedNode, true)
       end in
     if hasOnlyNamespaces then ret extendedNode
     else registerRoot extendedNode ;;; ret extendedNode).
Proof. destruct node, parent; reflexivity. Qed.

Lemma locate_unfold node qn :
  locate node qn
  = (let extendedNode :=
       set__pageHref (Some (pageSlug (pageKey qn)))
                     (set__name (Some qn) node) in
     let located :=
       match children node with
       | Some cs =>
           let cs' :=
             map (fun c => if isNamespace c
                           then locate c (qn +:+ "." +:+ name c) else (c, []))
                 cs in
           (set_children (Some (map fst cs')) extendedNode, flat_map snd cs')
       | None => (extendedNode, [])
       end in
     if hasNonNamespaceChild node
     then (fst located, snd located ++ [fst located])
     else located).
Proof. destruct node; reflexivity. Qed.

Lemma traverseChildren_locate ext qn cs :
  _name ext = Some qn ->
  (forall c parent st, c ∈ cs ->
     traverse c parent st
     = Ok (fst (locate c (qualifiedName parent c)),
           registered (snd (locate c (qualifiedName parent c))) st)) ->
  forall st,
    let cs' := map (fun c => if isNamespace c
                             then locate c (qn +:+ "." +:+ name c)
                             else (c, [])) cs in
    traverseChildren traverse ext cs st
    = Ok ((map fst cs', negb (existsb (fun c => negb (isNamespace c)) cs)),
          registered (flat_map snd cs') st).
Proof.
  intros Hext.
  induction cs as [|c cs IH]; intros Hrec st; [reflexivity|].
  simpl. destruct (isNamespace c) eqn:Hc; simpl.
  - erewrite bind_step by (apply Hrec; constructor).
    erewrite bind_step
      by (apply IH; intros; apply Hrec; constructor; assumption).
    simpl. unfold ret, qualifiedName. rewrite Hext, registered_app.
    reflexivity.
  - erewrite bind_step
      by (apply IH; intros; apply Hrec; constructor; assumption).
    reflexivity.
Qed.

(** The locator is [locate] with its registrations written to the state. *)
Lemma traverse_locate node :
  forall parent st,
    traverse node parent st
    = Ok (fst (locate node (qualifiedName parent node)),
          registered (snd (locate node (qualifiedName parent node))) st).
Proof.
  induction node as [node IH] using Node_children_ind. intros parent st.
  rewrite traverse_unfold, locate_unfold. cbv zeta.
  unfold hasNonNamespaceChild.
  destruct (children node) as [cs|] eqn:Hcs; simpl.
  - erewrite bind_step.
    2: { erewrite bind_step
           by (apply (traverseChildren_locate _ (qualifiedName parent node));
               [reflexivity | intros; eapply IH; eauto]).
         reflexivity. }
    simpl.
    destruct (existsb (fun c => negb (isNamespace c)) cs); simpl.
    + rewrite registered_app. reflexivity.
    + reflexivity.
  - reflexivity.
Qed.

Lemma findNamespaceRoots_locate project st :
  findNamespaceRoots project st
  = Ok (tt, registered (locateRoots project) st).
Proof.
  unfold findNamespaceRoots, locateRoots.
  generalize (default [] (project_children project)). intros cs.
  assert (H : forall st,
             forEach (fun child => if isNamespace child
                                   then traverse child None ;;; ret tt
                                   else ret tt) cs st
             = Ok (map (fun _ => tt) cs,
                   registered
                     (flat_map (fun c => if isNamespace c
                                         then snd (locate c (name c)) else [])
                               cs) st)).
  { induction cs as [|c cs IH]; intros st'; [reflexivity|].
    simpl. destruct (isNamespace c).
    - erewrite bind_step
        by (erewrite bind_step by apply traverse_locate; reflexivity).
      erewrite bind_step by apply IH.
      unfold ret. rewrite registered_app. reflexivity.
    - erewrite bind_step by reflexivity.
      erewrite bind_step by apply IH. reflexivity. }
  erewrite bind_step by apply H. reflexivity.
Qed.

(** The node that the locator leaves, and the roots it registers below. *)
Definition locatedChildren (qn : string) (cs : list Node)
  : list (Node * list Node) :=
  map (fun c => if isNamespace c
                then locate c (qn +:+ "." +:+ name c) else (c, [])) cs.

Lemma locate_fst node qn :
  fst (locate node qn)
  = let ext := set__pageHref (Some (pageSlug (pageKey qn)))
                             (set__name (Some qn) node) in
    match children node with
    | Some cs => set_children (Some (map fst (locatedChildren qn cs))) ext
    | None => ext
    end.
Proof.
  rewrite locate_unfold. cbv zeta.
  destruct (hasNonNamespaceChild node), (children node); reflexivity.
Qed.

Lemma locate_snd node qn :
  snd (locate node qn)
  = flat_map snd (locatedChildren qn (default [] (children node)))
    ++ (if hasNonNamespaceChild node then [fst (locate node qn)] else []).
Proof.
  rewrite locate_fst. rewrite locate_unfold. cbv zeta.
  destruct (hasNonNamespaceChild node), (children node);
    simpl; rewrite ?app_nil_r; reflexivity.
Qed.

Lemma locate_fields node qn :
  _name (fst (locate node qn)) = Some qn
  /\ _pageHref (fst (locate node qn)) = Some (pageSlug (pageKey qn))
  /\ id (fst (locate node qn)) = id node
  /\ name (fst (locate node qn)) = name node
  /\ kind (fst (locate node qn)) = kind node.
Proof.
  rewrite locate_fst. cbv zeta. destruct (children node); node_simpl; auto.
Qed.




Lemma locate_child_roots p qp c :
  namespaceChild (p, qp) c ->
  forall n, n ∈ snd (locate (fst c) (snd c)) -> n ∈ snd (locate p qp).
Proof.
  intros (cs & Hcs & Hc & Hns & Hq) n Hn. simpl in *.
  rewrite locate_snd, Hcs. apply elem_of_app. left. simpl.
  apply list_elem_of_In, in_flat_map.
  exists (locate (fst c) (snd c)). split; [| apply list_elem_of_In; exact Hn].
  unfold locatedChildren. apply in_map_iff. exists (fst c).
  rewrite Hns, Hq. split; [reflexivity | apply list_elem_of_In; exact Hc].
Qed.

(** Below a namespace the locator registers only namespaces that it reaches
    and that have a child that is not a namespace, and all of them. *)
Lemma locate_roots_sound node :
  forall qn n,
    n ∈ snd (locate node qn) ->
    exists node' qn',
      rtc namespaceChild (node, qn) (node', qn')
      /\ hasNonNamespaceChild node' = true
      /\ n = fst (locate node' qn').
Proof.
  induction node as [node IH] using Node_children_ind. intros qn n.
  rewrite locate_snd. intros Hn. apply elem_of_app in Hn as [Hn | Hn].
  - apply list_elem_of_In, in_flat_map in Hn as (l & Hl & Hn).
    unfold locatedChildren in Hl. apply in_map_iff in Hl as (c & <- & Hc).
    destruct (children node) as [cs|] eqn:Hcs; [| inversion Hc].
    simpl in Hc. apply list_elem_of_In in Hc.
    destruct (isNamespace c) eqn:Hns; [| inversion Hn].
    apply list_elem_of_In in Hn.
    apply (IH cs c eq_refl Hc) in Hn as (node' & qn' & Hrtc & Hhas & ->).
    exists node', qn'. split; [| auto].
    eapply rtc_l; [| exact Hrtc].
    exists cs. simpl. auto.
  - destruct (hasNonNamespaceChild node) eqn:Hhas; [| inversion Hn].
    apply list_elem_of_singleton in Hn. subst n.
    exists node, qn. split; [constructor | auto].
Qed.

Lemma locate_roots_complete (a b : Node * string) :
  rtc namespaceChild a b ->
  hasNonNamespaceChild (fst b) = true ->
  fst (locate (fst b) (snd b)) ∈ snd (locate (fst a) (snd a)).
Proof.
  induction 1 as [x | x y z Hstep _ IH]; intros Hhas.
  - rewrite locate_snd, Hhas. apply elem_of_app. right. constructor.
  - destruct x as [p qp]. apply (locate_child_roots p qp y Hstep).
    apply IH, Hhas.
Qed.

Lemma registered_heap regs st : heap (registered regs st) = heap st ++ regs.
Proof.
  revert st. induction regs as [|n regs IH]; intros st; simpl.
  - rewrite app_nil_r. reflexivity.
  - rewrite IH. simpl. rewrite <- app_assoc. reflexivity.
Qed.

Lemma registered_snoc regs n st :
  registered (regs ++ [n]) st = registerState n (registered regs st).
Proof. unfold registered. rewrite fold_left_app. reflexivity. Qed.

Lemma registered_indices regs st :
  indexForReferences (registered regs st) = indexForReferences st
  /\ pendingReferences (registered regs st) = pendingReferences st.
Proof.
  revert st. induction regs as [|n regs IH]; intros st; simpl; [auto|].
  destruct (IH (registerState n st)) as [-> ->]. auto.
Qed.

Lemma objectSet_elem {V} key (v : V) m k w :
  (k, w) ∈ objectSet key v m -> (k, w) = (key, v) \/ (k, w) ∈ m.
Proof.
  induction m as [|[k' w'] m IH]; simpl.
  - intros H. apply list_elem_of_singleton in H. auto.
  - destruct (String.eqb k' key) eqn:E.
    + apply String.eqb_eq in E. subst k'. intros H.
      apply elem_of_cons in H as [H | H]; [auto|].
      right. constructor. exact H.
    + intros H. apply elem_of_cons in H as [H | H].
      * right. rewrite H. constructor.
      * destruct (IH H) as [? | ?]; [auto|]. right. constructor. assumption.
Qed.

(** Every entry of [namespaces] written by a registration refers to a
    registered node, under the page key of its qualified name. *)
Lemma registered_namespaces regs st k h :
  (k, h) ∈ namespaces (registered regs st) ->
  (k, h) ∈ namespaces st
  \/ exists root, (heap st ++ regs) !! h = Some root /\ root ∈ regs
                  /\ k = pageKey (Js.str (_name root)).
Proof.
  revert k h. induction regs as [|n regs IH] using rev_ind; intros k h.
  { simpl. auto. }
  rewrite registered_snoc. simpl. intros H.
  apply objectSet_elem in H as [[= -> ->] | H].
  - right. exists n. rewrite registered_heap.
    rewrite app_assoc, lookup_app_r, Nat.sub_diag by reflexivity.
    split; [reflexivity|]. split; [| reflexivity].
    apply elem_of_app. right. constructor.
  - destruct (IH _ _ H) as [? | (root & Hh & Hin & ->)]; [auto|].
    right. exists root. split; [| split; [| reflexivity]].
    + rewrite app_assoc. apply lookup_app_l_Some. exact Hh.
    + apply elem_of_app. auto.
Qed.


Lemma locateRoots_Reached project root :
  root ∈ locateRoots project <->
  exists node qn, Reached project node qn
                  /\ hasNonNamespaceChild node = true
                  /\ root = fst (locate node qn).
Proof.
  unfold locateRoots, Reached. split.
  - intros H. apply list_elem_of_In, in_flat_map in H as (top & Htop & H).
    destruct (isNamespace top) eqn:Hns; [| inversion H].
    apply list_elem_of_In, locate_roots_sound in H
      as (node & qn & Hrtc & Hhas & ->).
    exists node, qn. split; [| auto].
    exists top. split; [apply list_elem_of_In; exact Htop | auto].
  - intros (node & qn & (top & Htop & Hns & Hrtc) & Hhas & ->).
    apply list_elem_of_In, in_flat_map. exists top.
    split; [apply list_elem_of_In; exact Htop|]. rewrite Hns.
    apply list_elem_of_In.
    apply (locate_roots_complete (top, name top) (node, qn) Hrtc Hhas).
Qed.

(** ** What a walk does to the state *)

(** Every entry of the id index has a positive key and refers to an object
    of that id. *)
Definition indexSound (st : State) : Prop :=
  forall k h,
    indexForReferences st !! k = Some h ->
    0 < k /\ exists n, heap st !! h = Some n /\ id n = k.

(** The state [st'] after some nodes have been walked from [st], all on the
    page of [namespace]: the objects known before are as they were; the
    objects met since are on that page and, when their id is positive, in
    the id index. *)
Record Walked (namespace : Node) (st st' : State) : Prop := mkWalked {
  walked_heap : (length (heap st) <= length (heap st'))%nat;
  walked_frame :
    forall h, (h < length (heap st))%nat -> heap st' !! h = heap st !! h;
  walked_namespaces : namespaces st' = namespaces st;
  walked_sound : indexSound st -> indexSound st';
  walked_persist :
    forall k, is_Some (indexForReferences st !! k) ->
              is_Some (indexForReferences st' !! k);
  walked_entries :
    forall k h, indexForReferences st' !! k = Some h ->
                indexForReferences st !! k = Some h
                \/ (length (heap st) <= h)%nat;
  walked_new :
    forall h m, (length (heap st) <= h)%nat -> heap st' !! h = Some m ->
                _pageHref m = _pageHref namespace
                /\ (0 < id m -> is_Some (indexForReferences st' !! id m)) }.

Lemma Walked_refl namespace st : Walked namespace st st.
Proof.
  constructor; auto.
  intros h m Hh Hm. apply lookup_lt_Some in Hm. lia.
Qed.

Lemma Walked_trans namespace st1 st2 st3 :
  Walked namespace st1 st2 -> Walked namespace st2 st3 ->
  Walked namespace st1 st3.
Proof.
  intros [H1 F1 N1 S1 P1 E1 W1] [H2 F2 N2 S2 P2 E2 W2]. constructor.
  - lia.
  - intros h Hh. rewrite F2 by lia. apply F1, Hh.
  - congruence.
  - auto.
  - auto.
  - intros k h Hk. destruct (E2 k h Hk) as [Hk' | Hk']; [| right; lia].
    apply E1, Hk'.
  - intros h m Hh Hm.
    destruct (decide (h < length (heap st2))%nat) as [Hlt | Hge].
    + rewrite F2 in Hm by exact Hlt.
      destruct (W1 h m Hh Hm) as [Hp Hi]. split; [exact Hp|].
      intros Hid. apply P2, Hi, Hid.
    + apply (W2 h m); [lia | exact Hm].
Qed.

Lemma forEach_Walked {A B} namespace (body : A -> M B) xs :
  (forall x st y st', x ∈ xs -> body x st = Ok (y, st') ->
                      Walked namespace st st') ->
  forall st ys st', forEach body xs st = Ok (ys, st') ->
                    Walked namespace st st'.
Proof.
  induction xs as [|x xs IH]; intros Hbody st ys st' H; simpl in H; inv_M.
  - apply Walked_refl.
  - eapply Walked_trans.
    + eapply Hbody; [constructor | eassumption].
    + eapply IH; [| eassumption].
      intros. eapply Hbody; [constructor|]; eassumption.
Qed.

(** A node with the identity of another: its id, its qualified name and its
    page. *)
Definition sameIdentity (n n' : Node) : Prop :=
  id n' = id n /\ _name n' = _name n /\ _pageHref n' = _pageHref n.

Lemma sameIdentity_refl n : sameIdentity n n.
Proof. repeat split. Qed.

Lemma sameIdentity_trans n1 n2 n3 :
  sameIdentity n1 n2 -> sameIdentity n2 n3 -> sameIdentity n1 n3.
Proof. unfold sameIdentity. intuition congruence. Qed.

Lemma updateDeclaration_unfold f node :
  updateDeclaration f node
  = match type node with
    | Some (TyReflection (Some d)) =>
        set_type (Some (TyReflection (Some (updateDeclaration f d)))) node
    | _ => f node
    end.
Proof. destruct node; reflexivity. Qed.

Lemma declarationWith_unfold node :
  declarationWith node
  = match type node with
    | Some (TyReflection (Some d)) => declarationWith d
    | _ => node
    end.
Proof. destruct node; reflexivity. Qed.

Lemma updateDeclaration_identity f node :
  (forall m, sameIdentity m (f m)) ->
  sameIdentity node (updateDeclaration f node).
Proof.
  intros Hf. rewrite updateDeclaration_unfold.
  destruct (type node) as [[| [d|] | | | | | |]|]; try apply Hf.
  repeat split.
Qed.

Lemma upgradeEventNode_identity node node' children :
  upgradeEventNode node = Ok (node', children) -> sameIdentity node node'.
Proof.
  unfold upgradeEventNode.
  destruct (typeArgumentsOf (type node) ≫= head) as [first|]; [| discriminate].
  case_bool_decide.
  - intros [= <- <-]. repeat split.
  - destruct first; try (intros [= <- <-]; repeat split).
    destruct (negb _); [discriminate|].
    destruct (_ !! 1%nat); [| discriminate].
    destruct (_ !! 2%nat); [| discriminate].
    intros [= <- <-]. repeat split.
Qed.

Lemma eventNodeAfterWalk_identity node walked :
  sameIdentity node (eventNodeAfterWalk node walked).
Proof.
  unfold eventNodeAfterWalk.
  destruct (type node) as [[? ? [[|first rest]|] | | | | | | |]|];
    try apply sameIdentity_refl;
    destruct (_event node) as [[|conditions actions]|];
    try apply sameIdentity_refl.
  - repeat split.
  - destruct rest as [|a1 [|a2 rest']]; repeat split.
Qed.

Lemma sameIdentity_step (g : Node -> Node) n n' :
  (forall m, sameIdentity m (g m)) -> sameIdentity n n' ->
  sameIdentity n (g n').
Proof. intros Hg H. eapply sameIdentity_trans; [exact H | apply Hg]. Qed.

(** Proves that a chain of assignments leaves the identity of a node. *)
Ltac same_identity :=
  repeat first
    [ assumption
    | apply sameIdentity_refl
    | apply eventNodeAfterWalk_identity
    | apply updateDeclaration_identity; intros ?; repeat split
    | apply sameIdentity_step; [intros ?; repeat split; fail |]
    | apply sameIdentity_step; [intros ?; apply eventNodeAfterWalk_identity |]
    | apply sameIdentity_step;
      [intros ?; apply updateDeclaration_identity; intros ?; repeat split |] ].

Lemma Walked_indices namespace st st' :
  heap st' = heap st -> namespaces st' = namespaces st ->
  indexForReferences st' = indexForReferences st ->
  Walked namespace st st'.
Proof.
  intros Hh Hn Hi. constructor; rewrite ?Hh, ?Hn, ?Hi; auto.
  - intros Hs k h Hk. rewrite Hi in Hk. rewrite Hh. apply Hs, Hk.
  - intros h m Hlen Hm. apply lookup_lt_Some in Hm. lia.
Qed.

(** What the walk of one node does: see [Walked]; besides, the object of
    the node itself takes its new value, keeps its id, is in the id index
    when the id is positive, and is placed on the page of [namespace] when
    it has a parent. *)
Record WalkedNode (self : Handle) (node : Node) (parent : option Node)
    (namespace : Node) (st : State) (node' : Node) (st' : State) : Prop :=
  mkWalkedNode {
  wn_heap : (length (heap st) <= length (heap st'))%nat;
  wn_frame :
    forall h, (h < length (heap st))%nat -> h <> self ->
              heap st' !! h = heap st !! h;
  wn_self : heap st' !! self = Some node';
  wn_namespaces : namespaces st' = namespaces st;
  wn_sound : indexSound st -> indexSound st';
  wn_persist :
    forall k, is_Some (indexForReferences st !! k) ->
              is_Some (indexForReferences st' !! k);
  wn_entries :
    forall k h, indexForReferences st' !! k = Some h ->
                indexForReferences st !! k = Some h
                \/ h = self \/ (length (heap st) <= h)%nat;
  wn_new :
    forall h m, (length (heap st) <= h)%nat -> heap st' !! h = Some m ->
                _pageHref m = _pageHref namespace
                /\ (0 < id m -> is_Some (indexForReferences st' !! id m));
  wn_id : id node' = id node;
  wn_indexed : 0 < id node -> is_Some (indexForReferences st' !! id node);
  wn_page :
    match parent with
    | Some p =>
        _pageHref node' = _pageHref namespace
        /\ _name node' = Some (Js.str (_name p) +:+ "." +:+ name node)
    | None => _pageHref node' = _pageHref node /\ _name node' = _name node
    end }.

Definition WalkOK (walk : Walk) : Prop :=
  forall self node parent namespace st node' st',
    walk self node parent namespace st = Ok (node', st') ->
    heap st !! self = Some node ->
    WalkedNode self node parent namespace st node' st'.

Lemma alloc_Ok n st h st' :
  alloc n st = Ok (h, st') ->
  h = length (heap st)
  /\ heap st' = heap st ++ [n]
  /\ namespaces st' = namespaces st
  /\ indexForReferences st' = indexForReferences st
  /\ allByName st' = allByName st
  /\ pendingReferences st' = pendingReferences st.
Proof. unfold alloc. intros [= <- <-]. simpl. repeat split. Qed.

Lemma indexSound_heap st st' :
  indexForReferences st' = indexForReferences st ->
  (forall h n, heap st !! h = Some n ->
               exists n', heap st' !! h = Some n' /\ id n' = id n) ->
  indexSound st -> indexSound st'.
Proof.
  intros Hi Hh Hs k h Hk. rewrite Hi in Hk.
  destruct (Hs k h Hk) as (Hpos & n & Hn & Hid). split; [exact Hpos|].
  destruct (Hh h n Hn) as (n' & Hn' & Hid'). exists n'.
  split; [exact Hn' | rewrite Hid'; exact Hid].
Qed.

Lemma walkChild_Walked walk parent namespace c st node' st' :
  WalkOK walk ->
  walkChild walk parent namespace c st = Ok (node', st') ->
  Walked namespace st st'.
Proof.
  intros Hwalk H. unfold walkChild in H. inv_M.
  apply alloc_Ok in H0 as (-> & Hheap & Hns & Hidx & _ & _).
  assert (Hself : heap st0 !! length (heap st) = Some c).
  { rewrite Hheap, lookup_app_r, Nat.sub_diag by reflexivity. reflexivity. }
  destruct (Hwalk _ _ _ _ _ _ _ H Hself) as [Wh Wf Ws Wn Wso Wp We Wnew Wid Wi Wpg].
  assert (Hlen : length (heap st0) = S (length (heap st))).
  { rewrite Hheap, length_app. simpl. lia. }
  constructor.
  - lia.
  - intros h Hh. rewrite Wf by lia. rewrite Hheap.
    apply lookup_app_l. exact Hh.
  - congruence.
  - intros Hs. apply Wso. revert Hs. apply indexSound_heap; [exact Hidx|].
    intros h n Hn. exists n. split; [| reflexivity].
    rewrite Hheap. apply lookup_app_l_Some. exact Hn.
  - intros k Hk. apply Wp. rewrite Hidx. exact Hk.
  - intros k h Hk. destruct (We k h Hk) as [Hk' | [-> | Hk']].
    + left. rewrite <- Hidx. exact Hk'.
    + right. lia.
    + right. lia.
  - intros h m Hh Hm.
    destruct (decide (h = length (heap st))) as [-> | Hne].
    + rewrite Ws in Hm. injection Hm as <-.
      destruct Wpg as [Hp _]. split; [exact Hp|].
      rewrite Wid. exact Wi.
    + apply (Wnew h m); [lia | exact Hm].
Qed.

Lemma forEach_walkChild_Walked walk parent namespace cs st walked st' :
  WalkOK walk ->
  forEach (walkChild walk parent namespace) cs st = Ok (walked, st') ->
  Walked namespace st st'.
Proof.
  intros Hwalk. apply forEach_Walked.
  intros x st0 y st0' _. apply walkChild_Walked, Hwalk.
Qed.

Lemma walkReference_Walked walk self node namespace nodePrefix st
    node' nodePrefix' st' :
  WalkOK walk ->
  walkReference walk self node namespace nodePrefix st
  = Ok ((node', nodePrefix'), st') ->
  Walked namespace st st' /\ sameIdentity node node'.
Proof.
  intros Hwalk H. unfold walkReference in H.
  destruct (type node) as [[rid rname targs| | | | | | |]|]; inv_M;
    try (split; [apply Walked_refl | apply sameIdentity_refl]).
  destruct (includes chromeEventRefTypes rname); inv_M.
  - destruct a as [node1 children]. inv_M.
    split; [eapply forEach_walkChild_Walked; eassumption|].
    match goal with
    | Hup : upgradeEventNode _ = Ok _ |- _ =>
        apply upgradeEventNode_identity in Hup;
        eapply sameIdentity_trans;
        [exact Hup | apply eventNodeAfterWalk_identity]
    end.
  - split; [| apply sameIdentity_refl].
    match goal with
    | Hpush : pushPendingReference _ _ = Ok _ |- _ =>
        unfold pushPendingReference in Hpush; injection Hpush as Hpush
    end.
    subst. apply Walked_indices; reflexivity.
Qed.

Lemma walkChildren_Walked walk node namespace st node' st' :
  WalkOK walk ->
  walkChildren walk node namespace st = Ok (node', st') ->
  Walked namespace st st' /\ sameIdentity node node'.
Proof.
  intros Hwalk H. unfold walkChildren in H.
  destruct (children (declarationWith node)) as [[|c cs]|]; inv_M;
    try (split; [apply Walked_refl | apply sameIdentity_refl]).
  destruct (filter _ (c :: cs)) as [|c' cs'] eqn:Hf; inv_M.
  - split; [apply Walked_refl | same_identity].
  - split; [eapply forEach_walkChild_Walked; eassumption | same_identity].
Qed.

Lemma walkSignatures_Walked walk node namespace nodePrefix st
    node' nodePrefix' st' :
  WalkOK walk ->
  walkSignatures walk node namespace nodePrefix st
  = Ok ((node', nodePrefix'), st') ->
  Walked namespace st st' /\ sameIdentity node node'.
Proof.
  intros Hwalk H. unfold walkSignatures in H.
  destruct (signatures (declarationWith node)) as [[|s0 ss]|]; inv_M;
    try (split; [apply Walked_refl | apply sameIdentity_refl]).
  destruct (returnType _) as [returnType|]; inv_M.
  - split; [| same_identity].
    eapply Walked_trans.
    + eapply forEach_walkChild_Walked; eassumption.
    + eapply walkChild_Walked; eassumption.
  - split; [eapply forEach_walkChild_Walked; eassumption | same_identity].
Qed.

Lemma walkEmbeddedTypes_Walked walk node namespace st node' st' :
  WalkOK walk ->
  walkEmbeddedTypes walk node namespace st = Ok (node', st') ->
  Walked namespace st st' /\ sameIdentity node node'.
Proof.
  intros Hwalk H. unfold walkEmbeddedTypes in H.
  destruct (_event node); inv_M;
    try (split; [apply Walked_refl | apply sameIdentity_refl]).
  assert (HW : Walked namespace st st0).
  { eapply forEach_Walked; [| eassumption].
    intros x st1 y st1' _. apply walkChild_Walked, Hwalk. }
  destruct (if hoistsProperties _ then _ else _); inv_M;
    (split; [exact HW | same_identity]).
Qed.

Lemma walkTags_Ok node st node' st' :
  walkTags JSON_parse node st = Ok (node', st') ->
  st' = st /\ sameIdentity node node'.
Proof.
  unfold walkTags. intros H. inv_M.
  destruct a; inv_M; (split; [reflexivity | same_identity]).
Qed.

Lemma walkPageId_Ok node parent namespace nodePrefix st node' st' :
  walkPageId node parent namespace nodePrefix st = Ok (node', st') ->
  st' = st /\ sameIdentity node node'.
Proof.
  unfold walkPageId. intros H.
  destruct parent; inv_M; [| split; [reflexivity | same_identity]].
  destruct (_name node), (_name namespace); inv_M;
    (split; [reflexivity | same_identity]).
Qed.

Lemma walkPlace_spec self node parent namespace st node1 st1 :
  walkPlace self node parent namespace st = Ok (node1, st1) ->
  heap st1 = heap st /\ namespaces st1 = namespaces st
  /\ indexForReferences st1 = indexForReferences st
  /\ id node1 = id node
  /\ match parent with
     | Some p =>
         _pageHref node1 = _pageHref namespace
         /\ _name node1 = Some (Js.str (_name p) +:+ "." +:+ name node)
     | None => node1 = node
     end.
Proof.
  unfold walkPlace. intros H. destruct parent as [p|]; inv_M.
  - match goal with
    | Hset : setAllByName _ _ _ = Ok _ |- _ =>
        unfold setAllByName in Hset; injection Hset as Hset
    end.
    subst. simpl. repeat split.
  - repeat split.
Qed.

Lemma walkIndex_spec self node st st1 :
  walkIndex self node st = Ok (tt, st1) ->
  heap st1 = heap st /\ namespaces st1 = namespaces st
  /\ indexForReferences st1
     = (if 0 <? id node then <[id node := self]> (indexForReferences st)
        else indexForReferences st).
Proof.
  unfold walkIndex. destruct (0 <? id node); intros [= <-]; repeat split.
Qed.

Lemma store_spec self node st st1 :
  store self node st = Ok (tt, st1) ->
  heap st1 = <[self := node]> (heap st) /\ namespaces st1 = namespaces st
  /\ indexForReferences st1 = indexForReferences st.
Proof. unfold store. intros [= <-]. repeat split. Qed.

Lemma walk_body_OK walk : WalkOK walk -> WalkOK (walk_body JSON_parse walk).
Proof.
  intros Hwalk self node parent namespace st node' st' H Hself.
  unfold walk_body in H.
  apply bind_Ok in H as (n1 & st1 & Hplace & H).
  apply bind_Ok in H as ([] & st2 & Hindex & H).
  apply bind_Ok in H as ([n3 p3] & st3 & Href & H).
  apply bind_Ok in H as (n4 & st4 & Hchildren & H).
  apply bind_Ok in H as ([n5 p5] & st5 & Hsigs & H).
  apply bind_Ok in H as (n6 & st6 & Hemb & H).
  apply bind_Ok in H as (n7 & st7 & Htags & H).
  apply bind_Ok in H as (n8 & st8 & Hpage & H).
  apply bind_Ok in H as ([] & st9 & Hstore & H).
  apply ret_Ok in H as [-> ->].
  apply walkPlace_spec in Hplace as (Hh1 & Hn1 & Hi1 & Hid1 & Hpg1).
  apply walkIndex_spec in Hindex as (Hh2 & Hn2 & Hi2).
  apply (walkReference_Walked _ _ _ _ _ _ _ _ _ Hwalk) in Href as [W3 I3].
  apply (walkChildren_Walked _ _ _ _ _ _ Hwalk) in Hchildren as [W4 I4].
  apply (walkSignatures_Walked _ _ _ _ _ _ _ _ Hwalk) in Hsigs as [W5 I5].
  apply (walkEmbeddedTypes_Walked _ _ _ _ _ _ Hwalk) in Hemb as [W6 I6].
  apply walkTags_Ok in Htags as [-> I7].
  apply walkPageId_Ok in Hpage as [-> I8].
  apply store_spec in Hstore as (Hh9 & Hn9 & Hi9).
  pose proof (Walked_trans _ _ _ _
                (Walked_trans _ _ _ _ (Walked_trans _ _ _ _ W3 W4) W5) W6)
    as W.
  pose proof (sameIdentity_trans _ _ _
                (sameIdentity_trans _ _ _
                   (sameIdentity_trans _ _ _
                      (sameIdentity_trans _ _ _
                         (sameIdentity_trans _ _ _ I3 I4) I5) I6) I7) I8)
    as I.
  clear W3 W4 W5 W6 I3 I4 I5 I6 I7 I8.
  destruct W as [Wh Wf Wn Ws Wp We Wnew].
  destruct I as (Iid & Iname & Ipage).
  assert (Hlen : length (heap st2) = length (heap st)) by congruence.
  assert (Hlt : (self < length (heap st))%nat)
    by (eapply lookup_lt_Some; eassumption).
  assert (Hself6 : heap st6 !! self = Some node).
  { rewrite Wf by lia. rewrite Hh2, Hh1. exact Hself. }
  assert (Hid8 : id n8 = id node) by congruence.
  constructor.
  - rewrite Hh9, length_insert. lia.
  - intros h Hh Hne. rewrite Hh9, list_lookup_insert_ne by congruence.
    rewrite Wf by lia. rewrite Hh2, Hh1. reflexivity.
  - rewrite Hh9. apply list_lookup_insert_eq. lia.
  - congruence.
  - intros Hs.
    assert (Hs2 : indexSound st2).
    { intros k h Hk. rewrite Hi2, Hi1 in Hk. rewrite Hh2, Hh1.
      destruct (0 <? id n1) eqn:Hpos; [| apply Hs, Hk].
      destruct (decide (k = id n1)) as [-> | Hne].
      - rewrite lookup_insert_eq in Hk. injection Hk as <-.
        split; [apply Z.ltb_lt, Hpos|]. exists node. split; [exact Hself | auto].
      - rewrite lookup_insert_ne in Hk by congruence. apply Hs, Hk. }
    apply Ws in Hs2. revert Hs2. apply indexSound_heap; [exact Hi9|].
    intros h n Hn. rewrite Hh9.
    destruct (decide (h = self)) as [-> | Hne].
    + exists n8. rewrite list_lookup_insert_eq by lia.
      split; [reflexivity | congruence].
    + exists n. rewrite list_lookup_insert_ne by congruence. auto.
  - intros k Hk. rewrite Hi9. apply Wp. rewrite Hi2, Hi1.
    destruct (0 <? id n1); [| exact Hk].
    destruct (decide (k = id n1)) as [-> | Hne].
    + rewrite lookup_insert_eq. eauto.
    + rewrite lookup_insert_ne by congruence. exact Hk.
  - intros k h Hk. rewrite Hi9 in Hk.
    destruct (We k h Hk) as [Hk' | Hk']; [| right; right; lia].
    rewrite Hi2, Hi1 in Hk'.
    destruct (0 <? id n1); [| auto].
    destruct (decide (k = id n1)) as [-> | Hne].
    + rewrite lookup_insert_eq in Hk'. injection Hk' as <-. auto.
    + rewrite lookup_insert_ne in Hk' by congruence. auto.
  - intros h m Hh Hm. rewrite Hh9 in Hm.
    rewrite list_lookup_insert_ne in Hm by lia.
    rewrite Hi9. apply (Wnew h m); [lia | exact Hm].
  - exact Hid8.
  - intros Hpos. rewrite Hi9. apply Wp. rewrite Hi2, Hi1, Hid1.
    apply Z.ltb_lt in Hpos. rewrite Hpos, lookup_insert_eq. eauto.
  - destruct parent as [p|].
    + destruct Hpg1 as [Hp Hn]. split; congruence.
    + subst n1. split; congruence.
Qed.

(** Every walk, whatever its fuel, acts on the state as [WalkedNode] says. *)
Lemma walk_OK fuel : WalkOK (walk JSON_parse fuel).
Proof.
  induction fuel as [|fuel IH].
  - intros self node parent namespace st node' st' H. discriminate H.
  - apply walk_body_OK, IH.
Qed.

(** ** What the walks of a run do *)

(** The walk of one page root, as [walkRoots] starts it. *)
Definition walkRoot (fuel : nat) (h : Handle) : M Node :=
  let* o := (fun st => Ok (heap st !! h, st)) in
  match o with
  | Some namespace => walk JSON_parse fuel h namespace None namespace
  | None => throw (TypeError "namespace")
  end.

(** The state [st'] after the page roots [hs] have been walked from [st],
    [L] being the number of objects that the locator registered. *)
Record RootsWalked (L : nat) (hs : list Handle) (st st' : State) : Prop :=
  mkRootsWalked {
  rw_heap : (length (heap st) <= length (heap st'))%nat;
  rw_namespaces : namespaces st' = namespaces st;
  rw_sound : indexSound st -> indexSound st';
  rw_persist :
    forall k, is_Some (indexForReferences st !! k) ->
              is_Some (indexForReferences st' !! k);
  rw_roots :
    forall h n, (h < L)%nat -> heap st !! h = Some n ->
                exists n', heap st' !! h = Some n' /\ sameIdentity n n';
  rw_frame :
    forall h, (L <= h)%nat -> (h < length (heap st))%nat ->
              heap st' !! h = heap st !! h;
  rw_entries :
    forall k h, indexForReferences st' !! k = Some h ->
                indexForReferences st !! k = Some h
                \/ h ∈ hs \/ (length (heap st) <= h)%nat;
  rw_walked :
    forall h n, h ∈ hs -> heap st' !! h = Some n -> 0 < id n ->
                is_Some (indexForReferences st' !! id n);
  rw_new :
    forall h m, (length (heap st) <= h)%nat -> heap st' !! h = Some m ->
                (exists r root, r ∈ hs /\ heap st' !! r = Some root
                                /\ _pageHref m = _pageHref root)
                /\ (0 < id m -> is_Some (indexForReferences st' !! id m)) }.

Lemma RootsWalked_nil L st : RootsWalked L [] st st.
Proof.
  constructor; auto.
  - intros h n _ Hn. exists n. split; [exact Hn | apply sameIdentity_refl].
  - intros h n Hin. inversion Hin.
  - intros h m Hh Hm. apply lookup_lt_Some in Hm. lia.
Qed.

Lemma walkRoot_RootsWalked L fuel h hs st node' st1 st' :
  (L <= length (heap st))%nat -> (h < L)%nat ->
  walkRoot fuel h st = Ok (node', st1) ->
  RootsWalked L hs st1 st' ->
  RootsWalked L (h :: hs) st st'.
Proof.
  intros HL Hh Hwalk [Rh Rn Rs Rp Rr Rf Re Rw Rnew].
  unfold walkRoot in Hwalk.
  apply bind_Ok in Hwalk as (o & st0 & Ho & Hwalk).
  injection Ho as <- <-.
  destruct (heap st !! h) as [namespace|] eqn:Hself; [| discriminate].
  destruct (walk_OK fuel _ _ _ _ _ _ _ Hwalk Hself)
    as [Wh Wf Ws Wn Wso Wp We Wnew Wid Wi [Wpage Wname]].
  assert (Hident : sameIdentity namespace node') by (repeat split; assumption).
  constructor.
  - lia.
  - congruence.
  - auto.
  - auto.
  - intros h0 n Hh0 Hn.
    assert (Hmid : exists n1, heap st1 !! h0 = Some n1 /\ sameIdentity n n1).
    { destruct (decide (h0 = h)) as [-> | Hne].
      - exists node'. split; [exact Ws | congruence].
      - exists n. rewrite Wf by (try lia; exact Hne).
        split; [exact Hn | apply sameIdentity_refl]. }
    destruct Hmid as (n1 & Hn1 & Hi1).
    destruct (Rr h0 n1 Hh0 Hn1) as (n' & Hn' & Hi').
    exists n'. split; [exact Hn' | eapply sameIdentity_trans; eassumption].
  - intros h0 HL0 Hlt. rewrite Rf by lia. apply Wf; lia.
  - intros k h0 Hk. destruct (Re k h0 Hk) as [Hk' | [Hin | Hge]].
    + destruct (We k h0 Hk') as [? | [-> | ?]]; [auto | |].
      * right. left. constructor.
      * right. right. assumption.
    + right. left. constructor. exact Hin.
    + right. right. lia.
  - intros h0 n Hin Hn Hpos.
    apply elem_of_cons in Hin as [-> | Hin]; [| eapply Rw; eassumption].
    destruct (Rr h node' Hh Ws) as (n' & Hn' & Hid' & _).
    assert (n' = n) by congruence. subst n'.
    apply Rp. rewrite Hid', Wid in Hpos |- *. apply Wi, Hpos.
  - intros h0 m Hge Hm.
    destruct (decide (h0 < length (heap st1))%nat) as [Hlt | Hnlt].
    + rewrite Rf in Hm by lia.
      destruct (Wnew h0 m Hge Hm) as [Hp Hi]. split.
      * destruct (Rr h node' Hh Ws) as (n' & Hn' & _ & _ & Hp').
        exists h, n'. split; [constructor|]. split; [exact Hn'|]. congruence.
      * intros Hpos. apply Rp, Hi, Hpos.
    + destruct (Rnew h0 m ltac:(lia) Hm) as [(r & root & Hr & Hroot & Hp) Hi].
      split; [| exact Hi].
      exists r, root. split; [constructor; exact Hr | auto].
Qed.

Lemma forEach_walkRoot L fuel hs :
  forall st ys st',
    (L <= length (heap st))%nat -> Forall (fun h => (h < L)%nat) hs ->
    forEach (walkRoot fuel) hs st = Ok (ys, st') ->
    RootsWalked L hs st st'.
Proof.
  induction hs as [|h hs IH]; intros st ys st' HL Hhs H; simpl in H.
  - inv_M. apply RootsWalked_nil.
  - apply bind_Ok in H as (y & st1 & Hwalk & H).
    apply bind_Ok in H as (ys' & st2 & Hrest & H).
    apply ret_Ok in H as [-> ->].
    inversion Hhs as [|? ? Hh Hhs']; subst.
    eapply walkRoot_RootsWalked; [exact HL | exact Hh | exact Hwalk|].
    apply (IH st1 ys' st2); [| exact Hhs' | exact Hrest].
    unfold walkRoot in Hwalk.
    apply bind_Ok in Hwalk as (o & st0 & Ho & Hwalk).
    injection Ho as <- <-.
    destruct (heap st !! h) as [namespace|] eqn:Hself; [| discriminate].
    pose proof (wn_heap _ _ _ _ _ _ _
                  (walk_OK fuel _ _ _ _ _ _ _ Hwalk Hself)). lia.
Qed.

Lemma walkRoots_unfold fuel project :
  walkRoots JSON_parse fuel project
  = match forEach (walkRoot fuel)
            (map snd (namespaces
                        (registered (locateRoots project) newTransform)))
            (registered (locateRoots project) newTransform) with
    | Ok (_, st) => Ok st
    | Throw e => Throw e
    | OutOfFuel => OutOfFuel
    end.
Proof.
  unfold walkRoots. rewrite (bind_step _ _ _ _ _ (findNamespaceRoots_locate _ _)).
  unfold bind at 1. reflexivity.
Qed.

Lemma registered_handles regs k h :
  (k, h) ∈ namespaces (registered regs newTransform) ->
  (h < length regs)%nat.
Proof.
  intros H. apply registered_namespaces in H as [H | (root & Hh & _)].
  - inversion H.
  - apply lookup_lt_Some in Hh. simpl in Hh. exact Hh.
Qed.

(** The walks of a run start from the state that the locator leaves and
    go over the registered page roots. *)
Lemma walkRoots_RootsWalked fuel project st :
  walkRoots JSON_parse fuel project = Ok st ->
  let st0 := registered (locateRoots project) newTransform in
  RootsWalked (length (locateRoots project)) (map snd (namespaces st0)) st0 st.
Proof.
  rewrite walkRoots_unfold. intros H st0.
  destruct (forEach _ _ _) as [[ys st1] | e |] eqn:E; try discriminate.
  injection H as ->. subst st0.
  eapply forEach_walkRoot; [| | exact E].
  - rewrite registered_heap. simpl. lia.
  - apply Forall_forall. intros h Hh.
    apply list_elem_of_fmap in Hh as ([k h'] & -> & Hin).
    eapply registered_handles. exact Hin.
Qed.

(** ** Page roots *)




(** ** Page placement *)

Lemma pageKey_chrome s : pageKey ("chrome." +:+ s) = s.
Proof. destruct s; reflexivity. Qed.

Lemma pageKey_other s : Js.startsWith s "chrome." = false -> pageKey s = s.
Proof. unfold pageKey, Js.removePrefix, Js.startsWith. intros ->. reflexivity. Qed.

Lemma pageSlug_chars k :
  list_ascii_of_string (pageSlug k)
  = map (fun c => if Ascii.eqb c "." then "_"%char else c)
        (list_ascii_of_string k).
Proof.
  unfold pageSlug. induction k as [|c k IH]; simpl; [reflexivity|].
  rewrite IH. reflexivity.
Qed.

(** C10. After the walks of a run, every entry of [namespaces] refers to a
    page root whose key is the qualified name that the locator gave it,
    without one leading ["chrome."], and whose [_pageHref] is that key with
    every dot replaced by an underscore.  A node walked with a parent gets
    the [_pageHref] of the page root it is walked under, and so does every
    object met during its walk; hence every object met during the walks is
    on the page of a page root. *)
Theorem page_placement (project : ProjectReflection) (fuel : nat)
    (st : State) :
  walkRoots JSON_parse fuel project = Ok st ->
  (forall k h,
     (k, h) ∈ namespaces st ->
     exists root node qn,
       heap st !! h = Some root
       /\ Reached project node qn /\ id root = id node
       /\ _name root = Some qn
       /\ k = pageKey qn
       /\ _pageHref root = Some (pageSlug k))
  /\ (forall s, pageKey ("chrome." +:+ s) = s)
  /\ (forall s, Js.startsWith s "chrome." = false -> pageKey s = s)
  /\ (forall k,
        list_ascii_of_string (pageSlug k)
        = map (fun c => if Ascii.eqb c "." then "_"%char else c)
              (list_ascii_of_string k))
  /\ (forall fuel' self node parent namespace st0 node' st1,
        walk JSON_parse fuel' self node (Some parent) namespace st0
        = Ok (node', st1) ->
        heap st0 !! self = Some node ->
        _pageHref node' = _pageHref namespace
        /\ heap st1 !! self = Some node'
        /\ forall h m, (length (heap st0) <= h)%nat ->
                       heap st1 !! h = Some m ->
                       _pageHref m = _pageHref namespace)
  /\ (forall h m,
        (length (locateRoots project) <= h)%nat ->
        heap st !! h = Some m ->
        exists r root, r ∈ map snd (namespaces st)
                       /\ heap st !! r = Some root
                       /\ _pageHref m = _pageHref root).
Proof.
  intros Hrun. pose proof (walkRoots_RootsWalked _ _ _ Hrun) as HR. cbv zeta in HR.
  set (st0 := registered (locateRoots project) newTransform) in *.
  assert (Hheap0 : heap st0 = locateRoots project)
    by (unfold st0; rewrite registered_heap; reflexivity).
  split; [| split; [exact pageKey_chrome | split; [exact pageKey_other |
           split; [exact pageSlug_chars | split]]]].
  - intros k h Hin. rewrite (rw_namespaces _ _ _ _ HR) in Hin.
    pose proof (registered_handles _ _ _ Hin) as Hlt.
    apply registered_namespaces in Hin as [Hin | (root0 & Hh & Hroot & ->)];
      [inversion Hin|].
    simpl in Hh.
    destruct (rw_roots _ _ _ _ HR h root0 Hlt) as (root & Hroot' & Hid & Hn & Hp).
    { rewrite Hheap0. exact Hh. }
    apply locateRoots_Reached in Hroot as (node & qn & Hreached & _ & ->).
    destruct (locate_fields node qn) as (Hn0 & Hp0 & Hid0 & _).
    exists root, node, qn. rewrite Hn0 in *. simpl.
    repeat split; congruence.
  - intros fuel' self node parent namespace st1 node' st2 Hwalk Hself.
    destruct (walk_OK fuel' _ _ _ _ _ _ _ Hwalk Hself)
      as [_ _ Ws _ _ _ _ Wnew _ _ [Wp _]].
    split; [exact Wp|]. split; [exact Ws|].
    intros h m Hh Hm. apply (Wnew h m Hh Hm).
  - intros h m Hh Hm. rewrite (rw_namespaces _ _ _ _ HR).
    apply (rw_new _ _ _ _ HR h m); [rewrite Hheap0; exact Hh | exact Hm].
Qed.

(** ** The id index *)

(** The objects that the walker has visited: the page roots, and the objects
    met during the walk, which come after the registered objects. *)
Definition visited (project : ProjectReflection) (st : State) (h : Handle)
  : Prop :=
  h ∈ map snd (namespaces st) \/ (length (locateRoots project) <= h)%nat.

(** C9. After a complete walk every key of the id index is positive and
    every entry refers to a visited object of that id; every visited object
    with a positive id has an entry for its id, which refers to that very
    object when no other visited object has the same id.  A positive id
    gets no entry when no visited object has it. *)
Theorem id_index_after_walk (project : ProjectReflection) (fuel : nat)
    (st : State) :
  walkRoots JSON_parse fuel project = Ok st ->
  (forall k h,
     indexForReferences st !! k = Some h ->
     0 < k /\ visited project st h
     /\ exists n, heap st !! h = Some n /\ id n = k)
  /\ (forall h n,
        visited project st h -> heap st !! h = Some n -> 0 < id n ->
        exists h' n',
          indexForReferences st !! id n = Some h'
          /\ visited project st h'
          /\ heap st !! h' = Some n' /\ id n' = id n)
  /\ ((forall h1 h2 n1 n2,
         visited project st h1 -> visited project st h2 ->
         heap st !! h1 = Some n1 -> heap st !! h2 = Some n2 ->
         0 < id n1 -> id n1 = id n2 -> h1 = h2) ->
      forall h n,
        visited project st h -> heap st !! h = Some n -> 0 < id n ->
        indexForReferences st !! id n = Some h)
  /\ (forall k,
        (forall h n, visited project st h -> heap st !! h = Some n ->
                     id n <> k) ->
        indexForReferences st !! k = None).
Proof.
  intros Hrun. pose proof (walkRoots_RootsWalked _ _ _ Hrun) as HR. cbv zeta in HR.
  set (st0 := registered (locateRoots project) newTransform) in *.
  assert (Hheap0 : heap st0 = locateRoots project)
    by (unfold st0; rewrite registered_heap; reflexivity).
  assert (Hidx0 : indexForReferences st0 = ∅)
    by (unfold st0; apply registered_indices).
  assert (Hsound : indexSound st).
  { apply (rw_sound _ _ _ _ HR). intros k h Hk.
    rewrite Hidx0, lookup_empty in Hk. discriminate. }
  assert (Hentries : forall k h,
             indexForReferences st !! k = Some h ->
             0 < k /\ visited project st h
             /\ exists n, heap st !! h = Some n /\ id n = k).
  { intros k h Hk. destruct (Hsound k h Hk) as [Hpos Hn].
    split; [exact Hpos|]. split; [| exact Hn].
    destruct (rw_entries _ _ _ _ HR k h Hk) as [Hk' | [Hin | Hge]].
    - rewrite Hidx0, lookup_empty in Hk'. discriminate.
    - left. rewrite (rw_namespaces _ _ _ _ HR). exact Hin.
    - right. rewrite <- Hheap0. exact Hge. }
  assert (Hindexed : forall h n,
             visited project st h -> heap st !! h = Some n -> 0 < id n ->
             is_Some (indexForReferences st !! id n)).
  { intros h n [Hin | Hge] Hn Hpos.
    - rewrite (rw_namespaces _ _ _ _ HR) in Hin.
      apply (rw_walked _ _ _ _ HR h n Hin Hn Hpos).
    - apply (rw_new _ _ _ _ HR h n); [rewrite Hheap0; exact Hge | exact Hn
                                      | exact Hpos]. }
  split; [exact Hentries|]. split; [| split].
  - intros h n Hv Hn Hpos.
    destruct (Hindexed h n Hv Hn Hpos) as [h' Hh'].
    destruct (Hentries _ _ Hh') as (_ & Hv' & n' & Hn' & Hid').
    exists h', n'. auto.
  - intros Hdistinct h n Hv Hn Hpos.
    destruct (Hindexed h n Hv Hn Hpos) as [h' Hh'].
    destruct (Hentries _ _ Hh') as (_ & Hv' & n' & Hn' & Hid').
    rewrite Hh'. f_equal.
    apply (Hdistinct h' h n' n Hv' Hv Hn' Hn); congruence.
  - intros k Hnone.
    destruct (indexForReferences st !! k) as [h|] eqn:Hk; [| reflexivity].
    destruct (Hentries _ _ Hk) as (_ & Hv & n & Hn & Hid).
    exfalso. exact (Hnone h n Hv Hn Hid).
Qed.

(** ** The declaration behind a node *)

Lemma size_declaration n d :
  type n = Some (TyReflection (Some d)) -> (size_node d < size_node n)%nat.
Proof. intros H. rewrite (size_node_unfold n), H. simpl. lia. Qed.

(** Induction along the chain that [declarationWith] follows. *)
Lemma declaration_chain_ind (P : Node -> Prop) :
  (forall n, (forall d, type n = Some (TyReflection (Some d)) -> P d) -> P n) ->
  forall n, P n.
Proof.
  intros Hstep n. remember (size_node n) as k eqn:Hk. revert n Hk.
  induction k as [k IH] using lt_wf_ind. intros n ->.
  apply Hstep. intros d Hd.
  apply (IH (size_node d)); [apply size_declaration, Hd | reflexivity].
Qed.

(** The node is its own declaration unless its type is a reflection with a
    declaration. *)
Definition ownDeclaration (n : Node) : Prop :=
  forall d, type n <> Some (TyReflection (Some d)).

Lemma declarationWith_own n : ownDeclaration n -> declarationWith n = n.
Proof.
  intros Hown. rewrite declarationWith_unfold.
  destruct (type n) as [[| [d|] | | | | | |]|] eqn:E; try reflexivity.
  exfalso. exact (Hown d E).
Qed.

Lemma declarationWith_is_own n : ownDeclaration (declarationWith n).
Proof.
  induction n as [n IH] using declaration_chain_ind.
  rewrite declarationWith_unfold.
  destruct (type n) as [[| [d|] | | | | | |]|] eqn:E;
    try (intros d' Hd'; congruence).
  apply IH. reflexivity.
Qed.

(** A field of the declaration behind a node is not changed by an assignment
    to another field of the node. *)
Lemma declarationWith_outer {A} (proj : Node -> A) (g : Node -> Node) n :
  type (g n) = type n -> proj (g n) = proj n ->
  proj (declarationWith (g n)) = proj (declarationWith n).
Proof.
  intros Hty Hproj.
  rewrite (declarationWith_unfold (g n)), (declarationWith_unfold n), Hty.
  destruct (type n) as [[| [d|] | | | | | |]|]; auto.
Qed.

(** An assignment through [effectiveDeclarationNode] that leaves the type
    reaches the declaration behind the node. *)
Lemma declarationWith_update f n :
  (forall m, type (f m) = type m) ->
  declarationWith (updateDeclaration f n) = f (declarationWith n).
Proof.
  intros Hf. induction n as [n IH] using declaration_chain_ind.
  rewrite updateDeclaration_unfold, (declarationWith_unfold n).
  destruct (type n) as [[| [d|] | | | | | |]|] eqn:E;
    try (apply declarationWith_own; intros d' Hd'; rewrite Hf in Hd';
         congruence).
  rewrite declarationWith_unfold. node_simpl. apply IH. reflexivity.
Qed.

Lemma size_declarationWith n : (size_node (declarationWith n) <= size_node n)%nat.
Proof.
  induction n as [n IH] using declaration_chain_ind.
  rewrite declarationWith_unfold.
  destruct (type n) as [[| [d|] | | | | | |]|] eqn:E; try lia.
  specialize (IH d eq_refl). pose proof (size_declaration n d E). lia.
Qed.

(** ** Termination of the walk *)

Lemma size_type_unfold t :
  size_type t
  = match t with
    | TyReference _ _ typeArguments =>
        S (match typeArguments with
           | Some l => list_sum (map size_type l)
           | None => 0
           end)
    | TyReflection declaration =>
        S (match declaration with
           | Some d => size_node d
           | None => 0
           end)
    | TyUnion types => S (list_sum (map size_type types))
    | TyIntersection types => S (list_sum (map size_type types))
    | TyArray elementType => S (size_type elementType)
    | TyTuple elements =>
        S (match elements with
           | Some l => list_sum (map size_type l)
           | None => 0
           end)
    | TyIntrinsic _ => 1%nat
    | TyOther _ => 1%nat
    end.
Proof. destruct t; reflexivity. Qed.

Lemma size_signature_unfold s :
  size_signature s
  = S (match parameters s with
       | Some l => list_sum (map size_node l)
       | None => 0
       end
       + match sig_type s with
         | Some t => size_type t
         | None => 0
         end)%nat.
Proof. destruct s; reflexivity. Qed.

Lemma size_virtualNode n k t :
  size_node (virtualNode n k (Some t)) = S (size_type t).
Proof. unfold virtualNode, declaration. simpl. lia. Qed.

Lemma size_lookup {A} (f : A -> nat) (l : list A) i x :
  l !! i = Some x -> (f x <= list_sum (map f l))%nat.
Proof. intros H. apply list_sum_elem. eapply list_elem_of_lookup_2, H. Qed.

Lemma size_ensureArrayOfType a t :
  t ∈ ensureArrayOfType a -> (S (size_type t) <= S (size_type a))%nat.
Proof.
  destruct a; simpl; intros H;
    try (apply list_elem_of_singleton in H; subst; simpl; lia).
  pose proof (list_sum_elem size_type _ _ H). lia.
Qed.

Lemma size_firstSignatureParameters arg p :
  p ∈ firstSignatureParameters arg -> (size_node p < size_type arg)%nat.
Proof.
  unfold firstSignatureParameters.
  destruct arg as [| [d|] | | | | | |]; try (intros H; inversion H; fail).
  destruct (signatures d) as [[|s ss]|] eqn:Hs; try (intros H; inversion H; fail).
  destruct (parameters s) as [ps|] eqn:Hp; [| intros H; inversion H].
  simpl. intros H. rewrite (size_node_unfold d), Hs. simpl.
  rewrite (size_signature_unfold s), Hp.
  pose proof (list_sum_elem size_node _ _ H). lia.
Qed.

(** The nodes that the upgrader returns are smaller than the type of the
    event node. *)
Lemma upgradeEventNode_sizes node t node' children c :
  type node = Some t ->
  upgradeEventNode node = Ok (node', children) ->
  c ∈ children -> (size_node c <= size_type t)%nat.
Proof.
  intros Hty. unfold upgradeEventNode. rewrite Hty.
  destruct t as [rid rname targs| | | | | | |]; simpl; try discriminate.
  destruct targs as [[|first rest]|]; simpl; try discriminate.
  case_bool_decide.
  - intros [= <- <-] Hc. apply size_firstSignatureParameters in Hc. lia.
  - destruct first as [| | | | | | intrinsicName |].
    all: try (intros [= <- <-] Hc; apply list_elem_of_singleton in Hc;
              subst c; rewrite size_virtualNode; simpl; lia).
    destruct (negb _); [discriminate|].
    destruct rest as [|a1 [|a2 rest']]; simpl; try discriminate.
    intros [= <- <-] Hc.
    apply list_elem_of_fmap in Hc as (m & -> & Hm).
    rewrite size_virtualNode.
    apply elem_of_app in Hm as [Hm | Hm]; apply size_ensureArrayOfType in Hm;
      lia.
Qed.

(** The walk of every node of size at most [bound] ends. *)
Definition Terminates (walk : Walk) (bound : nat) : Prop :=
  forall self node parent namespace st,
    (size_node node <= bound)%nat ->
    walk self node parent namespace st <> OutOfFuel.

Lemma bind_terminates {A B} (m : M A) (k : A -> M B) st :
  m st <> OutOfFuel ->
  (forall a st1, m st = Ok (a, st1) -> k a st1 <> OutOfFuel) ->
  bind m k st <> OutOfFuel.
Proof.
  unfold bind. intros Hm Hk. destruct (m st) as [[a st1] | e |]; auto.
Qed.

Lemma forEach_walkChild_terminates walk bound parent namespace cs :
  Terminates walk bound ->
  (forall c, c ∈ cs -> (size_node c <= bound)%nat) ->
  forall st, forEach (walkChild walk parent namespace) cs st <> OutOfFuel.
Proof.
  intros Hwalk. induction cs as [|c cs IH]; intros Hcs st; simpl;
    [discriminate|].
  apply bind_terminates.
  - unfold walkChild. apply bind_terminates; [discriminate|].
    intros h st1 _. apply Hwalk, Hcs. constructor.
  - intros y st1 _. apply bind_terminates; [| discriminate].
    apply IH. intros c' Hc'. apply Hcs. constructor. exact Hc'.
Qed.

(** The parts of a node that the phases after the reference still walk are
    of size at most [bound]. *)
Record Bounded (bound : nat) (n : Node) : Prop := mkBounded {
  bounded_children :
    forall cs c, children (declarationWith n) = Some cs -> c ∈ cs ->
                 (size_node c <= bound)%nat;
  bounded_signatures :
    forall ss s, signatures (declarationWith n) = Some ss -> s ∈ ss ->
                 (size_signature s <= bound)%nat;
  bounded_type :
    forall t, _event n = None -> type (declarationWith n) = Some t ->
              (size_type t <= bound)%nat }.

Lemma Bounded_start bound node :
  (size_node node <= S bound)%nat -> Bounded bound node.
Proof.
  intros Hsize. pose proof (size_declarationWith node) as Hd.
  constructor.
  - intros cs c Hcs Hc. pose proof (size_child _ _ _ Hcs Hc). lia.
  - intros ss s Hss Hs. rewrite (size_node_unfold (declarationWith node)) in Hd.
    rewrite Hss in Hd. pose proof (list_sum_elem size_signature _ _ Hs). lia.
  - intros t _ Ht. rewrite (size_node_unfold (declarationWith node)) in Hd.
    rewrite Ht in Hd. lia.
Qed.

(** Two nodes behind which the declaration has the same parts left. *)
Record sameParts (n n' : Node) : Prop := mkSameParts {
  same_children :
    children (declarationWith n') = children (declarationWith n)
    \/ children (declarationWith n') = Some [];
  same_signatures :
    signatures (declarationWith n') = signatures (declarationWith n)
    \/ signatures (declarationWith n') = Some [];
  same_type :
    _event n' = None ->
    _event n = None /\ type (declarationWith n') = type (declarationWith n) }.

Lemma sameParts_refl n : sameParts n n.
Proof. constructor; auto. Qed.

Lemma sameParts_trans n1 n2 n3 :
  sameParts n1 n2 -> sameParts n2 n3 -> sameParts n1 n3.
Proof.
  intros [C1 S1 T1] [C2 S2 T2]. constructor.
  - destruct C2 as [-> | ->]; auto.
  - destruct S2 as [-> | ->]; auto.
  - intros H3. destruct (T2 H3) as [H2 ->]. destruct (T1 H2) as [H1 ->]. auto.
Qed.

Lemma sameParts_Bounded bound n n' :
  sameParts n n' -> Bounded bound n -> Bounded bound n'.
Proof.
  intros [C S T] [Bc Bs Bt]. constructor.
  - intros cs c Hcs Hc. destruct C as [C | C]; rewrite C in Hcs.
    + eapply Bc; eassumption.
    + injection Hcs as <-. inversion Hc.
  - intros ss s Hss Hs. destruct S as [S | S]; rewrite S in Hss.
    + eapply Bs; eassumption.
    + injection Hss as <-. inversion Hs.
  - intros t He Ht. destruct (T He) as [He' Hty]. rewrite Hty in Ht. auto.
Qed.

(** An assignment to a field of the node other than its type, children
    and signatures. *)
Lemma sameParts_outer (g : Node -> Node) n :
  type (g n) = type n -> children (g n) = children n ->
  signatures (g n) = signatures n ->
  (_event (g n) = None -> _event n = None) ->
  sameParts n (g n).
Proof.
  intros Hty Hc Hs He. constructor.
  - left. apply (declarationWith_outer children g n Hty Hc).
  - left. apply (declarationWith_outer signatures g n Hty Hs).
  - intros H. split; [auto|].
    apply (declarationWith_outer type g n Hty Hty).
Qed.

Lemma sameParts_step (g : Node -> Node) n n' :
  sameParts n n' ->
  type (g n') = type n' -> children (g n') = children n' ->
  signatures (g n') = signatures n' ->
  (_event (g n') = None -> _event n' = None) ->
  sameParts n (g n').
Proof.
  intros H Hty Hc Hs He. eapply sameParts_trans; [exact H|].
  apply sameParts_outer; assumption.
Qed.

Lemma updateDeclaration_event f n :
  (forall m, _event (f m) = _event m) ->
  _event (updateDeclaration f n) = _event n.
Proof.
  intros Hf. rewrite updateDeclaration_unfold.
  destruct (type n) as [[| [d|] | | | | | |]|]; auto.
Qed.

Lemma sameParts_children v n :
  v = Some [] -> sameParts n (updateDeclaration (set_children v) n).
Proof.
  intros ->. constructor.
  - right. rewrite declarationWith_update by reflexivity. reflexivity.
  - left. rewrite declarationWith_update by reflexivity. reflexivity.
  - rewrite updateDeclaration_event by reflexivity. intros H. split; [exact H|].
    rewrite declarationWith_update by reflexivity. reflexivity.
Qed.

Lemma sameParts_signatures v n :
  v = Some [] -> sameParts n (updateDeclaration (set_signatures v) n).
Proof.
  intros ->. constructor.
  - left. rewrite declarationWith_update by reflexivity. reflexivity.
  - right. rewrite declarationWith_update by reflexivity. reflexivity.
  - rewrite updateDeclaration_event by reflexivity. intros H. split; [exact H|].
    rewrite declarationWith_update by reflexivity. reflexivity.
Qed.

Lemma sameParts_own n n' :
  ownDeclaration n -> ownDeclaration n' ->
  children n' = children n -> signatures n' = signatures n ->
  (_event n' = None -> _event n = None /\ type n' = type n) ->
  sameParts n n'.
Proof.
  intros Hn Hn' Hc Hs He.
  constructor; rewrite (declarationWith_own n Hn), (declarationWith_own n' Hn');
    auto.
Qed.

Lemma upgradeEventNode_parts node node' cs :
  upgradeEventNode node = Ok (node', cs) ->
  type node' = type node /\ sameParts node node' /\ _event node' <> None.
Proof.
  intros H.
  assert (Hf : type node' = type node /\ children node' = children node
               /\ signatures node' = signatures node /\ _event node' <> None).
  { revert H. unfold upgradeEventNode.
    destruct (typeArgumentsOf (type node) ≫= head) as [first|]; [| discriminate].
    case_bool_decide.
    - intros [= <- <-]. repeat split. discriminate.
    - destruct first; try (intros [= <- <-]; repeat split; discriminate).
      destruct (negb _); [discriminate|].
      destruct (_ !! 1%nat); [| discriminate].
      destruct (_ !! 2%nat); [| discriminate].
      intros [= <- <-]. repeat split. discriminate. }
  destruct Hf as (Hty & Hc & Hs & He). split; [exact Hty|]. split; [| exact He].
  apply (sameParts_outer (fun _ => node') node); auto.
  intros E. contradiction.
Qed.

Lemma eventNodeAfterWalk_parts node walked rid rname targs :
  type node = Some (TyReference rid rname targs) -> _event node <> None ->
  sameParts node (eventNodeAfterWalk node walked).
Proof.
  intros Hty He. unfold eventNodeAfterWalk. rewrite Hty.
  destruct targs as [[|first rest]|]; try apply sameParts_refl.
  destruct (_event node) as [[|conditions actions]|] eqn:E;
    try apply sameParts_refl.
  - apply sameParts_own; try reflexivity.
    + intros d. congruence.
    + intros d. node_simpl. discriminate.
    + node_simpl. congruence.
  - destruct rest as [|a1 [|a2 rest']]; try apply sameParts_refl.
    apply sameParts_own; try reflexivity.
    + intros d. congruence.
    + intros d. node_simpl. discriminate.
    + node_simpl. discriminate.
Qed.

Lemma ret_terminates {A} (a : A) st : ret a st <> OutOfFuel.
Proof. discriminate. Qed.

Lemma lift_terminates {A} (r : Result A) st :
  r <> OutOfFuel -> lift r st <> OutOfFuel.
Proof. unfold lift. destruct r; auto; discriminate. Qed.

Lemma forEach_terminates {A B} (f : A -> M B) (l : list A) :
  (forall a st, a ∈ l -> f a st <> OutOfFuel) ->
  forall st, forEach f l st <> OutOfFuel.
Proof.
  induction l as [|a l IH]; intros Hf st; simpl; [discriminate|].
  apply bind_terminates; [apply Hf; constructor|].
  intros y st1 _. apply bind_terminates; [| discriminate].
  apply IH. intros a' st' Ha'. apply Hf. constructor. exact Ha'.
Qed.

Lemma walkChild_terminates walk bound parent namespace c st :
  Terminates walk bound -> (size_node c <= bound)%nat ->
  walkChild walk parent namespace c st <> OutOfFuel.
Proof.
  intros Hwalk Hc. unfold walkChild. apply bind_terminates; [discriminate|].
  intros h st1 _. apply Hwalk, Hc.
Qed.

Lemma upgradeEventNode_terminates node : upgradeEventNode node <> OutOfFuel.
Proof.
  unfold upgradeEventNode.
  destruct (typeArgumentsOf (type node) ≫= head) as [first|]; [| discriminate].
  case_bool_decide; [discriminate|].
  destruct first; try discriminate.
  destruct (negb _); [discriminate|].
  destruct (_ !! 1%nat); [| discriminate].
  destruct (_ !! 2%nat); discriminate.
Qed.

Lemma walkReference_terminates walk bound self node namespace nodePrefix st :
  Terminates walk bound ->
  (forall t, type node = Some t -> (size_type t <= bound)%nat) ->
  walkReference walk self node namespace nodePrefix st <> OutOfFuel.
Proof.
  intros Hwalk Hty. unfold walkReference.
  destruct (type node) as [[rid rname targs| | | | | | |]|] eqn:E;
    try apply ret_terminates.
  destruct (includes chromeEventRefTypes rname).
  - apply bind_terminates.
    { apply lift_terminates, upgradeEventNode_terminates. }
    intros [node' cs] st1 H. apply lift_Ok in H as [H _].
    apply bind_terminates; [| intros; apply ret_terminates].
    apply forEach_walkChild_terminates with bound; [exact Hwalk|].
    intros c Hc. pose proof (upgradeEventNode_sizes _ _ _ _ _ E H Hc).
    specialize (Hty _ eq_refl). lia.
  - apply bind_terminates; [discriminate | intros; apply ret_terminates].
Qed.

Lemma walkReference_parts walk self node namespace nodePrefix st r st' :
  walkReference walk self node namespace nodePrefix st = Ok (r, st') ->
  sameParts node (fst r).
Proof.
  unfold walkReference.
  destruct (type node) as [[rid rname targs| | | | | | |]|] eqn:E;
    try (intros H; inv_M; apply sameParts_refl).
  destruct (includes chromeEventRefTypes rname); intros H; inv_M;
    [| apply sameParts_refl].
  destruct a as [node' cs]. inv_M. simpl.
  match goal with
  | Hup : upgradeEventNode _ = Ok _ |- _ =>
      apply upgradeEventNode_parts in Hup as (Hty & Hparts & Hev)
  end.
  eapply sameParts_trans; [exact Hparts|].
  eapply eventNodeAfterWalk_parts; [| exact Hev]. rewrite Hty. exact E.
Qed.

Lemma walkChildren_terminates walk bound node namespace st :
  Terminates walk bound -> Bounded bound node ->
  walkChildren walk node namespace st <> OutOfFuel.
Proof.
  intros Hwalk Hb. unfold walkChildren.
  destruct (children (declarationWith node)) as [[|c cs]|] eqn:E;
    try apply ret_terminates.
  destruct (filter _ (c :: cs)) as [|c' cs'] eqn:F;
    [apply ret_terminates|].
  apply bind_terminates; [| intros; apply ret_terminates].
  apply forEach_walkChild_terminates with bound; [exact Hwalk|].
  intros x Hx. rewrite <- F in Hx.
  apply list_elem_of_filter in Hx as [_ Hx].
  eapply bounded_children; eassumption.
Qed.

Lemma walkChildren_parts walk node namespace st node' st' :
  walkChildren walk node namespace st = Ok (node', st') ->
  sameParts node node'.
Proof.
  unfold walkChildren.
  destruct (children (declarationWith node)) as [[|c cs]|];
    try (intros H; inv_M; apply sameParts_refl).
  destruct (filter _ (c :: cs)); intros H; inv_M.
  - apply sameParts_children. reflexivity.
  - eapply (sameParts_step (set__type _)); [| auto ..].
    apply sameParts_children. reflexivity.
Qed.

Lemma mapGet_elem {V} key (v : V) (m : list (string * V)) :
  NoDup (map fst m) -> (key, v) ∈ m -> mapGet key m = Some v.
Proof.
  unfold mapGet. induction m as [|[k w] m IH]; simpl; intros Hnd Hin.
  - inversion Hin.
  - apply NoDup_cons in Hnd as [Hk Hnd].
    apply elem_of_cons in Hin as [[= <- <-] | Hin].
    + rewrite String.eqb_refl. reflexivity.
    + destruct (String.eqb k key) eqn:E; [| auto].
      apply String.eqb_eq in E. subst k. exfalso. apply Hk.
      apply list_elem_of_fmap. exists (key, v). auto.
Qed.

Lemma size_storedParameter ps :
  size_node (storedParameter ps) = size_node (fst ps).
Proof.
  unfold storedParameter, upgradeParamWithParamSinceTags, concatCommentTags.
  destruct ps as [p s]. simpl. destruct p; simpl. reflexivity.
Qed.

Lemma size_occurrence sigs ps :
  ps ∈ parameterOccurrences sigs ->
  exists s, s ∈ sigs /\ (size_node (fst ps) < size_signature s)%nat.
Proof.
  unfold parameterOccurrences. intros H.
  apply list_elem_of_In, in_flat_map in H as (s & Hs & H).
  apply in_map_iff in H as (p & <- & Hp).
  exists s. split; [apply list_elem_of_In, Hs|].
  rewrite (size_signature_unfold s). simpl.
  destruct (parameters s) as [l|]; [| destruct Hp].
  simpl in Hp. apply list_elem_of_In in Hp.
  pose proof (list_sum_elem size_node _ _ Hp). lia.
Qed.

(** The merged parameters are parameters of the signatures. *)
Lemma size_merged_parameters sigs c p :
  p ∈ mapValues (allParams (scanSignatures sigs c)) ->
  exists s, s ∈ sigs /\ (size_node p < size_signature s)%nat.
Proof.
  unfold scanSignatures, mapValues. rewrite scan_allParams. simpl.
  destruct (merged_parameters (parameterOccurrences sigs)) as [Hnd Hget].
  intros Hp. apply list_elem_of_fmap in Hp as ([k v] & -> & Hkv). simpl.
  apply (mapGet_elem _ _ _ Hnd) in Hkv. rewrite Hget in Hkv.
  destruct (retainedOccurrence k _) as [ps|] eqn:Hr; [| discriminate].
  injection Hkv as <-. apply retainedOccurrence_Some in Hr as [Hin _].
  rewrite size_storedParameter. apply size_occurrence, Hin.
Qed.

Lemma size_returnVirtualNode t c c' :
  size_node (returnVirtualNode t c c') = S (size_type t).
Proof.
  unfold returnVirtualNode, upgradeReturnWithReturnSinceTags,
    concatCommentTags, virtualNode, declaration.
  destruct (c ≫= returns) as [r|]; [destruct (Js.truthy r)|]; simpl; lia.
Qed.

Lemma size_returnType sigs c t :
  returnType (scanSignatures sigs c) = Some t ->
  exists s, s ∈ sigs /\ (size_type t < size_signature s)%nat.
Proof.
  destruct (scan_returns sigs c) as [Hr _]. rewrite Hr.
  destruct (last _) as [s|] eqn:El; [| discriminate]. simpl. intros Ht.
  exists s. split.
  - apply last_Some_elem_of in El.
    apply list_elem_of_filter in El as [_ El]. exact El.
  - rewrite (size_signature_unfold s), Ht. lia.
Qed.

Lemma walkSignatures_terminates walk bound node namespace nodePrefix st :
  Terminates walk bound -> Bounded bound node ->
  walkSignatures walk node namespace nodePrefix st <> OutOfFuel.
Proof.
  intros Hwalk Hb. unfold walkSignatures.
  destruct (signatures (declarationWith node)) as [[|s0 ss]|] eqn:E;
    try apply ret_terminates.
  assert (Hparams : forall p,
    p ∈ mapValues (allParams (scanSignatures (s0 :: ss)
                                (comment (declarationWith node)))) ->
    (size_node p <= bound)%nat).
  { intros p Hp. apply size_merged_parameters in Hp as (s & Hs & Hp).
    pose proof (bounded_signatures _ _ Hb _ _ E Hs). lia. }
  destruct (returnType _) as [t|] eqn:Et.
  - apply bind_terminates.
    { apply forEach_walkChild_terminates with bound; assumption. }
    intros walked st1 _. apply bind_terminates; [| intros; apply ret_terminates].
    apply walkChild_terminates with bound; [exact Hwalk|].
    rewrite size_returnVirtualNode.
    apply size_returnType in Et as (s & Hs & Ht).
    pose proof (bounded_signatures _ _ Hb _ _ E Hs). lia.
  - apply bind_terminates; [| intros; apply ret_terminates].
    apply forEach_walkChild_terminates with bound; assumption.
Qed.

Lemma walkSignatures_parts walk node namespace nodePrefix st r st' :
  walkSignatures walk node namespace nodePrefix st = Ok (r, st') ->
  sameParts node (fst r).
Proof.
  unfold walkSignatures.
  destruct (signatures (declarationWith node)) as [[|s0 ss]|];
    try (intros H; inv_M; apply sameParts_refl).
  destruct (returnType _); intros H; inv_M; simpl.
  all: repeat (eapply (sameParts_step (set__method _)); [| auto ..]).
  all: eapply (sameParts_step (set_comment _)); [| auto ..].
  all: apply sameParts_signatures; reflexivity.
Qed.

Lemma size_embeddedTypes t t' :
  t' ∈ embeddedTypes (Some t) -> (size_type t' < size_type t)%nat.
Proof.
  destruct t as [? ? [l|] | | l | l | e | [l|] | |]; simpl; intros H;
    try (inversion H; fail).
  all: try (pose proof (list_sum_elem size_type _ _ H); lia).
  apply list_elem_of_singleton in H. subst. lia.
Qed.

Lemma walkEmbeddedTypes_terminates walk bound node namespace st :
  Terminates walk bound -> Bounded bound node ->
  walkEmbeddedTypes walk node namespace st <> OutOfFuel.
Proof.
  intros Hwalk Hb. unfold walkEmbeddedTypes.
  destruct (_event node) eqn:Ev; [apply ret_terminates|].
  apply bind_terminates.
  - apply forEach_terminates. intros t st1 Ht.
    apply walkChild_terminates with bound; [exact Hwalk|].
    rewrite size_virtualNode.
    destruct (type (declarationWith node)) as [t0|] eqn:Et;
      [| inversion Ht].
    apply size_embeddedTypes in Ht.
    pose proof (bounded_type _ _ Hb _ Ev Et). lia.
  - intros walked st1 _.
    destruct (if hoistsProperties _ then _ else _); apply ret_terminates.
Qed.

Lemma chromeEnumPairs_terminates tags enums :
  chromeEnumPairs JSON_parse tags enums <> OutOfFuel.
Proof.
  revert enums. induction tags as [|t tags IH]; intros enums; simpl;
    [discriminate|].
  destruct (negb _); [apply IH|].
  unfold chromeEnumPair. destruct (JSON_parse _); [apply IH | discriminate].
Qed.

Lemma walkTags_terminates node st : walkTags JSON_parse node st <> OutOfFuel.
Proof.
  unfold walkTags. apply bind_terminates.
  - apply lift_terminates. unfold _processTagsForChromeEnum.
    pose proof (chromeEnumPairs_terminates
                  (tagsOf (comment (declarationWith node) ?? comment node)) [])
      as H.
    destruct (chromeEnumPairs _ _ _); [discriminate | discriminate | auto].
  - intros [l|] st1 _; apply ret_terminates.
Qed.

Lemma walkPageId_terminates node parent namespace nodePrefix st :
  walkPageId node parent namespace nodePrefix st <> OutOfFuel.
Proof.
  unfold walkPageId. destruct parent; [| apply ret_terminates].
  destruct (_name node), (_name namespace); discriminate.
Qed.

Lemma walkPlace_parts self node parent namespace st node1 st1 :
  walkPlace self node parent namespace st = Ok (node1, st1) ->
  type node1 = type node /\ sameParts node node1.
Proof.
  unfold walkPlace. intros H. destruct parent as [p|]; inv_M.
  - split; [reflexivity|].
    eapply (sameParts_step (set__pageHref _)); [| auto ..].
    apply (sameParts_outer (set__name _)); auto.
  - split; [reflexivity | apply sameParts_refl].
Qed.

Lemma walk_body_terminates walk bound :
  Terminates walk bound -> Terminates (walk_body JSON_parse walk) (S bound).
Proof.
  intros Hwalk self node parent namespace st Hsize. unfold walk_body.
  pose proof (Bounded_start _ _ Hsize) as Hb.
  apply bind_terminates.
  { destruct (walkPlace_Ok self node parent namespace st)
      as (n1 & st1 & -> & _). discriminate. }
  intros n1 st1 H1. apply walkPlace_parts in H1 as [Hty P1].
  apply bind_terminates.
  { destruct (walkIndex_Ok self n1 st1) as (st2 & ->). discriminate. }
  intros [] st2 _.
  apply bind_terminates.
  { apply walkReference_terminates with bound; [exact Hwalk|].
    intros t Ht. rewrite Hty in Ht.
    rewrite (size_node_unfold node), Ht in Hsize. lia. }
  intros [n3 prefix3] st3 H3. apply walkReference_parts in H3. simpl in H3.
  pose proof (sameParts_trans _ _ _ P1 H3) as P3.
  apply bind_terminates.
  { apply walkChildren_terminates with bound; [exact Hwalk|].
    eapply sameParts_Bounded; eassumption. }
  intros n4 st4 H4. apply walkChildren_parts in H4.
  pose proof (sameParts_trans _ _ _ P3 H4) as P4.
  apply bind_terminates.
  { apply walkSignatures_terminates with bound; [exact Hwalk|].
    eapply sameParts_Bounded; eassumption. }
  intros [n5 prefix5] st5 H5. apply walkSignatures_parts in H5. simpl in H5.
  pose proof (sameParts_trans _ _ _ P4 H5) as P5.
  apply bind_terminates.
  { apply walkEmbeddedTypes_terminates with bound; [exact Hwalk|].
    eapply sameParts_Bounded; eassumption. }
  intros n6 st6 _.
  apply bind_terminates; [apply walkTags_terminates|].
  intros n7 st7 _.
  apply bind_terminates; [apply walkPageId_terminates|].
  intros n8 st8 _.
  apply bind_terminates; [discriminate | intros; apply ret_terminates].
Qed.

Lemma size_node_pos n : (0 < size_node n)%nat.
Proof. rewrite size_node_unfold. lia. Qed.

(** The walk of a node ends, with a result or an exception, when the
    counter is at least the size of the node. *)
Lemma walk_terminates fuel : Terminates (walk JSON_parse fuel) fuel.
Proof.
  induction fuel as [|fuel IH].
  - intros self node parent namespace st Hsize.
    pose proof (size_node_pos node). lia.
  - apply walk_body_terminates, IH.
Qed.

Lemma walk_terminates_more fuel bound :
  (bound <= fuel)%nat -> Terminates (walk JSON_parse fuel) bound.
Proof.
  intros Hle self node parent namespace st Hsize.
  apply walk_terminates. lia.
Qed.

(** *** Termination of the walks *)

Lemma list_sum_le {A} (f g : A -> nat) (l : list A) :
  (forall x, x ∈ l -> (f x <= g x)%nat) ->
  (list_sum (map f l) <= list_sum (map g l))%nat.
Proof.
  induction l as [|x l IH]; intros H; simpl; [lia|].
  pose proof (H x (list_elem_of_here _ _)).
  assert (list_sum (map f l) <= list_sum (map g l))%nat.
  { apply IH. intros y Hy. apply H. constructor. exact Hy. }
  lia.
Qed.

(** The locator leaves nodes that are not larger than the ones it found. *)
Lemma size_locate node :
  forall qn,
    (size_node (fst (locate node qn)) <= size_node node)%nat
    /\ forall r, r ∈ snd (locate node qn) ->
                 (size_node r <= size_node node)%nat.
Proof.
  induction node as [node IH] using Node_children_ind. intros qn.
  assert (Hfst : (size_node (fst (locate node qn)) <= size_node node)%nat).
  { rewrite locate_fst. cbv zeta.
    rewrite (size_node_unfold node).
    destruct (children node) as [cs|] eqn:Hcs.
    - rewrite size_node_unfold. node_simpl. rewrite ?Hcs.
      unfold locatedChildren. rewrite !map_map.
      assert (list_sum (map (fun c => size_node
                (fst (if isNamespace c
                      then locate c (qn +:+ "." +:+ name c) else (c, []))))
                cs)
              <= list_sum (map size_node cs))%nat; [| lia].
      apply list_sum_le. intros c Hc.
      destruct (isNamespace c); [| simpl; lia].
      apply (IH cs c eq_refl Hc).
    - rewrite size_node_unfold. node_simpl. rewrite ?Hcs. lia. }
  split; [exact Hfst|].
  intros r Hr. rewrite locate_snd in Hr.
  apply elem_of_app in Hr as [Hr | Hr].
  - destruct (children node) as [cs|] eqn:Hcs; [| inversion Hr].
    simpl in Hr. unfold locatedChildren in Hr.
    apply list_elem_of_In, in_flat_map in Hr as (x & Hx & Hr).
    apply in_map_iff in Hx as (c & <- & Hc). apply list_elem_of_In in Hc.
    pose proof (size_child _ _ _ Hcs Hc).
    destruct (isNamespace c); [| destruct Hr].
    apply list_elem_of_In in Hr.
    pose proof (proj2 (IH cs c eq_refl Hc _) r Hr). lia.
  - destruct (hasNonNamespaceChild node); [| inversion Hr].
    apply list_elem_of_singleton in Hr. subst r. exact Hfst.
Qed.

(** The size of a project: the sizes of its top-level nodes together. *)
Definition size_project (project : ProjectReflection) : nat :=
  list_sum (map size_node (default [] (project_children project))).

Lemma size_locateRoots project r :
  r ∈ locateRoots project -> (size_node r <= size_project project)%nat.
Proof.
  unfold locateRoots, size_project. intros Hr.
  apply list_elem_of_In, in_flat_map in Hr as (c & Hc & Hr).
  apply list_elem_of_In in Hc.
  pose proof (list_sum_elem size_node _ _ Hc).
  destruct (isNamespace c); [| destruct Hr].
  apply list_elem_of_In in Hr.
  pose proof (proj2 (size_locate c _) r Hr). lia.
Qed.

Lemma objectSet_values {V} key (v : V) m :
  NoDup (map snd m) -> v ∉ map snd m ->
  NoDup (map snd (objectSet key v m)).
Proof.
  induction m as [|[k w] m IH]; simpl; intros Hnd Hv.
  - apply NoDup_singleton.
  - apply NoDup_cons in Hnd as [Hw Hnd].
    apply not_elem_of_cons in Hv as [Hne Hv].
    destruct (String.eqb k key); simpl.
    + apply NoDup_cons. auto.
    + apply NoDup_cons. split; [| auto].
      intros Hin. apply list_elem_of_fmap in Hin as ([k' w'] & Hw' & Hin).
      simpl in Hw'. subst w'.
      apply objectSet_elem in Hin as [[= _ ->] | Hin]; [congruence|].
      apply Hw. apply list_elem_of_fmap. exists (k', w). auto.
Qed.

(** No page root is listed twice in [namespaces]. *)
Lemma registered_NoDup regs :
  NoDup (map snd (namespaces (registered regs newTransform))).
Proof.
  induction regs as [|n regs IH] using rev_ind; [constructor|].
  rewrite registered_snoc. simpl. apply objectSet_values; [exact IH|].
  intros Hin. apply list_elem_of_fmap in Hin as ([k h] & Hh & Hin).
  simpl in Hh. apply registered_handles in Hin.
  rewrite registered_heap in Hh. simpl in Hh. lia.
Qed.

Lemma walkRoot_terminates fuel h st :
  (forall n, heap st !! h = Some n -> (size_node n <= fuel)%nat) ->
  walkRoot fuel h st <> OutOfFuel.
Proof.
  intros Hsize. unfold walkRoot. apply bind_terminates; [discriminate|].
  intros o st0 [= <- <-].
  destruct (heap st !! h) as [namespace|]; [| discriminate].
  apply walk_terminates. apply Hsize. reflexivity.
Qed.

Lemma forEach_walkRoot_terminates fuel hs :
  NoDup hs ->
  forall st,
    (forall h, h ∈ hs ->
               exists n, heap st !! h = Some n /\ (size_node n <= fuel)%nat) ->
    forEach (walkRoot fuel) hs st <> OutOfFuel.
Proof.
  induction 1 as [|h hs Hh Hnd IH]; intros st Hst; simpl; [discriminate|].
  apply bind_terminates.
  { apply walkRoot_terminates. intros n Hn.
    destruct (Hst h (list_elem_of_here _ _)) as (n' & Hn' & Hsize). congruence. }
  intros y st1 Hwalk.
  apply bind_terminates; [| intros; apply ret_terminates].
  apply IH. intros h' Hh'.
  destruct (Hst h' (list_elem_of_further _ _ _ Hh')) as (n & Hn & Hsize).
  exists n. split; [| exact Hsize].
  unfold walkRoot in Hwalk.
  apply bind_Ok in Hwalk as (o & st0 & Ho & Hwalk).
  injection Ho as <- <-.
  destruct (heap st !! h) as [namespace|] eqn:Hself; [| discriminate].
  rewrite (wn_frame _ _ _ _ _ _ _
             (walk_OK fuel _ _ _ _ _ _ _ Hwalk Hself)); [exact Hn | |].
  - eapply lookup_lt_Some, Hn.
  - intros ->. contradiction.
Qed.

(** The walks of the page roots end when the counter is at least the size
    of the project. *)
Lemma roots_terminate (project : ProjectReflection) (fuel : nat) :
  (size_project project <= fuel)%nat ->
  forEach (walkRoot fuel)
          (map snd (namespaces (registered (locateRoots project)
                                           newTransform)))
          (registered (locateRoots project) newTransform)
  <> OutOfFuel.
Proof.
  intros Hfuel.
  apply forEach_walkRoot_terminates; [apply registered_NoDup|].
  intros h Hh. apply list_elem_of_fmap in Hh as ([k h'] & -> & Hin).
  apply registered_namespaces in Hin as [Hin | (root & Hroot & Hreg & _)];
    [inversion Hin|].
  exists root. rewrite registered_heap. split; [exact Hroot|].
  apply size_locateRoots in Hreg. lia.
Qed.

(** X1. The walks of a run whose counter is at least the size of the project
    end: they leave the state they have built, or one of them throws. *)
Theorem run_terminates (project : ProjectReflection) (fuel : nat) :
  (size_project project <= fuel)%nat ->
  (exists st, walkRoots JSON_parse fuel project = Ok st)
  \/ (exists e, walkRoots JSON_parse fuel project = Throw e).
Proof.
  intros Hfuel. rewrite walkRoots_unfold.
  pose proof (roots_terminate project fuel Hfuel) as H.
  destruct (forEach _ _ _) as [[ys st] | e |]; [eauto | eauto |].
  contradiction H. reflexivity.
Qed.

(** *** The counter does not change the result *)

(** [m2] does what [m1] does, wherever [m1] ends. *)
Definition refines {A} (m1 m2 : M A) : Prop :=
  forall st, m1 st <> OutOfFuel -> m2 st = m1 st.

Definition walkRefines (walk1 walk2 : Walk) : Prop :=
  forall self node parent namespace,
    refines (walk1 self node parent namespace)
            (walk2 self node parent namespace).

Lemma refines_refl {A} (m : M A) : refines m m.
Proof. intros st _. reflexivity. Qed.

Lemma bind_refines {A B} (m1 m2 : M A) (k1 k2 : A -> M B) :
  refines m1 m2 -> (forall a, refines (k1 a) (k2 a)) ->
  refines (bind m1 k1) (bind m2 k2).
Proof.
  intros Hm Hk st. unfold bind. specialize (Hm st).
  destruct (m1 st) as [[a st1] | e |]; intros H.
  - rewrite Hm by discriminate. apply Hk, H.
  - rewrite Hm by discriminate. reflexivity.
  - contradiction.
Qed.

Lemma forEach_refines {A B} (f1 f2 : A -> M B) (l : list A) :
  (forall a, refines (f1 a) (f2 a)) ->
  refines (forEach f1 l) (forEach f2 l).
Proof.
  intros Hf. induction l as [|a l IH]; simpl; [apply refines_refl|].
  apply bind_refines; [apply Hf|]. intros y.
  apply bind_refines; [apply IH|]. intros ys. apply refines_refl.
Qed.

Lemma walkChild_refines walk1 walk2 parent namespace c :
  walkRefines walk1 walk2 ->
  refines (walkChild walk1 parent namespace c)
          (walkChild walk2 parent namespace c).
Proof.
  intros Hwalk. unfold walkChild.
  apply bind_refines; [apply refines_refl|]. intros h. apply Hwalk.
Qed.

Lemma walk_body_refines walk1 walk2 :
  walkRefines walk1 walk2 ->
  walkRefines (walk_body JSON_parse walk1) (walk_body JSON_parse walk2).
Proof.
  intros Hwalk self node parent namespace. unfold walk_body.
  assert (Hchild : forall p ns c,
            refines (walkChild walk1 p ns c) (walkChild walk2 p ns c))
    by (intros; apply walkChild_refines, Hwalk).
  apply bind_refines; [apply refines_refl|]. intros n1.
  apply bind_refines; [apply refines_refl|]. intros [].
  apply bind_refines.
  { unfold walkReference.
    destruct (type n1) as [[rid rname targs| | | | | | |]|];
      try apply refines_refl.
    destruct (includes chromeEventRefTypes rname); [| apply refines_refl].
    apply bind_refines; [apply refines_refl|]. intros [n2 cs].
    apply bind_refines; [| intros; apply refines_refl].
    apply forEach_refines. intros c. apply Hchild. }
  intros [n3 prefix3].
  apply bind_refines.
  { unfold walkChildren.
    destruct (children (declarationWith n3)) as [[|c cs]|];
      try apply refines_refl.
    destruct (filter _ (c :: cs)); [apply refines_refl|].
    apply bind_refines; [| intros; apply refines_refl].
    apply forEach_refines. intros c'. apply Hchild. }
  intros n4.
  apply bind_refines.
  { unfold walkSignatures.
    destruct (signatures (declarationWith n4)) as [[|s0 ss]|];
      try apply refines_refl.
    destruct (returnType _).
    - apply bind_refines; [apply forEach_refines; intros c; apply Hchild|].
      intros walked.
      apply bind_refines; [apply Hchild | intros; apply refines_refl].
    - apply bind_refines; [| intros; apply refines_refl].
      apply forEach_refines. intros c. apply Hchild. }
  intros [n5 prefix5].
  apply bind_refines.
  { unfold walkEmbeddedTypes. destruct (_event n5); [apply refines_refl|].
    apply bind_refines; [| intros; apply refines_refl].
    apply forEach_refines. intros t. apply Hchild. }
  intros n6. apply refines_refl.
Qed.

Lemma walk_refines_S fuel :
  walkRefines (walk JSON_parse fuel) (walk JSON_parse (S fuel)).
Proof.
  induction fuel as [|fuel IH].
  - intros self node parent namespace st H. contradiction H. reflexivity.
  - apply (walk_body_refines _ _ IH).
Qed.

Lemma walk_refines fuel fuel' :
  (fuel <= fuel')%nat ->
  walkRefines (walk JSON_parse fuel) (walk JSON_parse fuel').
Proof.
  induction 1 as [|fuel' Hle IH].
  - intros self node parent namespace. apply refines_refl.
  - intros self node parent namespace st H.
    rewrite <- (IH self node parent namespace st H).
    apply walk_refines_S. rewrite (IH self node parent namespace st H).
    exact H.
Qed.

(** The walks of two runs whose counters are at least the size of the
    project end alike. *)
Theorem run_fuel_independent (project : ProjectReflection)
    (fuel fuel' : nat) :
  (size_project project <= fuel)%nat -> (fuel <= fuel')%nat ->
  walkRoots JSON_parse fuel' project = walkRoots JSON_parse fuel project.
Proof.
  intros Hsize Hle. pose proof (roots_terminate project fuel Hsize) as Hends.
  rewrite !walkRoots_unfold.
  rewrite (forEach_refines (walkRoot fuel) (walkRoot fuel'));
    [reflexivity | | exact Hends].
  intros h. unfold walkRoot.
  apply bind_refines; [apply refines_refl|].
  intros [namespace|]; [| apply refines_refl].
  apply walk_refines, Hle.
Qed.

(** ** The ids of the visited nodes *)

Definition ids_children (cs : option (list Node)) : list Z :=
  flat_map ids_node (default [] cs).

Definition ids_otype (t : option SomeType) : list Z :=
  from_option ids_type [] t.

Definition ids_signatures (ss : option (list Signature)) : list Z :=
  flat_map ids_signature (default [] ss).

Lemma ids_node_unfold n :
  ids_node n
  = posId n ++ ids_children (children n) ++ ids_otype (type n)
    ++ ids_signatures (signatures n).
Proof.
  destruct n as [? ? ? ? cs t ss ? ? ? ? ? ? ? ? ?].
  destruct cs, t, ss; reflexivity.
Qed.

Lemma ids_signature_unfold s :
  ids_signature s
  = ids_children (parameters s) ++ ids_otype (sig_type s).
Proof. destruct s as [ps t c]. destruct ps, t; reflexivity. Qed.

(** The ids below the parts of a declaration that the walk descends into:
    the children that are not namespaces, the type, the signatures. *)
Definition partIds (d : Node) : list Z :=
  flat_map ids_node
           (filter (fun c => negb (isNamespace c)) (default [] (children d)))
  ++ ids_otype (type d) ++ ids_signatures (signatures d).

Definition walkedIds (n : Node) : list Z := partIds (declarationWith n).

Lemma flat_map_submseteq {A B} (f : A -> list B) (l k : list A) :
  l ⊆+ k -> flat_map f l ⊆+ flat_map f k.
Proof.
  induction 1 as [| x l k _ IH | x y l | x l k _ IH | l k m _ IH1 _ IH2]; simpl.
  - reflexivity.
  - apply submseteq_skips_l, IH.
  - rewrite !app_assoc. apply submseteq_skips_r.
    apply Permutation_submseteq, Permutation_app_comm.
  - apply submseteq_inserts_l, IH.
  - etransitivity; eassumption.
Qed.

Lemma flat_map_elem_submseteq {A B} (f : A -> list B) (l : list A) x :
  x ∈ l -> f x ⊆+ flat_map f l.
Proof.
  intros Hx. apply elem_of_Permutation in Hx as [k Hk].
  assert (H : flat_map f [x] ⊆+ flat_map f l).
  { apply flat_map_submseteq. rewrite Hk.
    apply submseteq_skip, submseteq_nil_l. }
  simpl in H. rewrite app_nil_r in H. exact H.
Qed.

Lemma flat_map_filter_submseteq {A B} (f : A -> list B) (P : A -> Prop)
    `{!forall x, Decision (P x)} (l : list A) :
  flat_map f (filter P l) ⊆+ flat_map f l.
Proof. apply flat_map_submseteq, sublist_submseteq, sublist_filter. Qed.

Lemma submseteq_NoDup {A} (l k : list A) : l ⊆+ k -> NoDup k -> NoDup l.
Proof.
  intros H Hk. apply submseteq_Permutation in H as [k' Hk'].
  rewrite Hk' in Hk. apply NoDup_app in Hk. tauto.
Qed.

Lemma partIds_node d : partIds d ⊆+ ids_node d.
Proof.
  rewrite ids_node_unfold. apply submseteq_inserts_l. unfold partIds.
  apply submseteq_skips_r. apply flat_map_filter_submseteq.
Qed.

(** The parts walked are parts of the node, also when its declaration
    stands behind its type. *)
Lemma walkedIds_part n : walkedIds n ⊆+ partIds n.
Proof.
  induction n as [n IH] using declaration_chain_ind.
  unfold walkedIds. rewrite declarationWith_unfold.
  destruct (type n) as [[| [d|] | | | | | |]|] eqn:E; try reflexivity.
  etransitivity; [apply (IH d eq_refl)|].
  etransitivity; [apply partIds_node|].
  unfold partIds at 1. rewrite E. simpl.
  apply submseteq_inserts_l, submseteq_inserts_r. reflexivity.
Qed.

Lemma walkedIds_node n : posId n ++ walkedIds n ⊆+ ids_node n.
Proof.
  rewrite ids_node_unfold. apply submseteq_skips_l.
  etransitivity; [apply walkedIds_part|].
  unfold partIds. apply submseteq_skips_r, flat_map_filter_submseteq.
Qed.

Definition positiveIds (l : list Z) : list Z := filter (fun z => 0 < z) l.

Definition allIds (st : State) : list Z := id <$> heap st.

(** The objects met between [st] and [st'] come after the objects of [st],
    which keep their ids, and their positive ids are among [bound]. *)
Definition Met (st st' : State) (bound : list Z) : Prop :=
  exists new, allIds st' = allIds st ++ new /\ positiveIds new ⊆+ bound.

Lemma Met_same st st' bound : heap st' = heap st -> Met st st' bound.
Proof.
  intros H. exists []. unfold allIds. rewrite H, app_nil_r.
  split; [reflexivity | apply submseteq_nil_l].
Qed.

Lemma Met_trans st1 st2 st3 b1 b2 :
  Met st1 st2 b1 -> Met st2 st3 b2 -> Met st1 st3 (b1 ++ b2).
Proof.
  intros (new1 & H1 & S1) (new2 & H2 & S2). exists (new1 ++ new2). split.
  - rewrite H2, H1, app_assoc. reflexivity.
  - unfold positiveIds in *. rewrite filter_app. apply submseteq_app; assumption.
Qed.

Lemma Met_weaken st st' b b' : b ⊆+ b' -> Met st st' b -> Met st st' b'.
Proof.
  intros Hb (new & H & S). exists new. split; [exact H|].
  etransitivity; eassumption.
Qed.

Definition WalkIds (walk : Walk) : Prop :=
  forall self node parent namespace st node' st',
    walk self node parent namespace st = Ok (node', st') ->
    heap st !! self = Some node ->
    Met st st' (walkedIds node).

Lemma walkChild_Met walk parent namespace c st node' st' :
  WalkIds walk ->
  walkChild walk parent namespace c st = Ok (node', st') ->
  Met st st' (ids_node c).
Proof.
  intros Hwalk H. unfold walkChild in H.
  apply bind_Ok in H as (h & st1 & Halloc & H).
  apply alloc_Ok in Halloc as (-> & Hheap & _).
  assert (Hself : heap st1 !! length (heap st) = Some c).
  { rewrite Hheap. apply list_lookup_middle. reflexivity. }
  destruct (Hwalk _ _ _ _ _ _ _ H Hself) as (new & Hids & Hsub).
  exists (id c :: new). split.
  - rewrite Hids. unfold allIds. rewrite Hheap, fmap_app, <- app_assoc.
    reflexivity.
  - etransitivity; [| apply walkedIds_node].
    change (id c :: new) with ([id c] ++ new).
    unfold positiveIds. rewrite filter_app.
    apply submseteq_skips_l, Hsub.
Qed.

Lemma forEach_Met {A B} (f : A -> M B) (g : A -> list Z) (l : list A) :
  (forall a st y st', a ∈ l -> f a st = Ok (y, st') -> Met st st' (g a)) ->
  forall st ys st', forEach f l st = Ok (ys, st') ->
                    Met st st' (flat_map g l).
Proof.
  induction l as [|a l IH]; intros Hf st ys st' H; simpl in H.
  - inv_M. apply Met_same. reflexivity.
  - apply bind_Ok in H as (y & st1 & Ha & H).
    apply bind_Ok in H as (ys' & st2 & Hl & H).
    apply ret_Ok in H as [-> ->]. simpl.
    eapply Met_trans.
    + eapply Hf; [constructor | exact Ha].
    + eapply IH; [| exact Hl].
      intros a' s y' s' Ha'. apply Hf. constructor. exact Ha'.
Qed.

Lemma forEach_walkChild_Met walk parent namespace cs st walked st' :
  WalkIds walk ->
  forEach (walkChild walk parent namespace) cs st = Ok (walked, st') ->
  Met st st' (flat_map ids_node cs).
Proof.
  intros Hwalk. apply forEach_Met.
  intros c s y s' _. apply walkChild_Met, Hwalk.
Qed.

Lemma ids_virtualNode n k t : ids_node (virtualNode n k (Some t)) = ids_type t.
Proof.
  rewrite ids_node_unfold. unfold virtualNode, declaration. simpl.
  rewrite app_nil_r. reflexivity.
Qed.

Lemma ids_ensureArrayOfType a :
  flat_map ids_type (ensureArrayOfType a) = ids_type a.
Proof. destruct a; simpl; rewrite ?app_nil_r; reflexivity. Qed.

Lemma ids_firstSignatureParameters arg :
  flat_map ids_node (firstSignatureParameters arg) ⊆+ ids_type arg.
Proof.
  unfold firstSignatureParameters.
  destruct arg as [| [d|] | | | | | |]; try apply submseteq_nil_l.
  destruct (signatures d) as [[|s ss]|] eqn:Hs; try apply submseteq_nil_l.
  simpl. rewrite (ids_node_unfold d), Hs.
  do 3 apply submseteq_inserts_l. unfold ids_signatures. simpl.
  apply submseteq_inserts_r. rewrite ids_signature_unfold.
  apply submseteq_inserts_r. reflexivity.
Qed.

Lemma flat_map_map {A B C} (f : B -> list C) (g : A -> B) (l : list A) :
  flat_map f (map g l) = flat_map (fun x => f (g x)) l.
Proof. induction l as [|x l IH]; simpl; [| rewrite IH]; reflexivity. Qed.

(** The nodes that the upgrader returns hold ids of the type of the event
    node only. *)
Lemma upgradeEventNode_ids node t node' cs :
  type node = Some t ->
  upgradeEventNode node = Ok (node', cs) ->
  flat_map ids_node cs ⊆+ ids_type t.
Proof.
  intros Hty. unfold upgradeEventNode. rewrite Hty.
  destruct t as [rid rname targs| | | | | | |]; simpl; try discriminate.
  destruct targs as [[|first rest]|]; simpl; try discriminate.
  case_bool_decide.
  - intros [= <- <-]. apply submseteq_inserts_r.
    apply ids_firstSignatureParameters.
  - destruct first as [| | | | | | intrinsicName |].
    all: try (intros [= <- <-]; cbn [flat_map];
              rewrite ids_virtualNode, app_nil_r;
              apply submseteq_inserts_r; reflexivity).
    destruct (negb _); [discriminate|].
    destruct rest as [|a1 [|a2 rest']]; simpl; try discriminate.
    intros [= <- <-]. rewrite flat_map_map.
    rewrite (flat_map_ext _ ids_type) by (intros; apply ids_virtualNode).
    rewrite flat_map_app, !ids_ensureArrayOfType, app_assoc.
    apply submseteq_inserts_r. reflexivity.
Qed.

Lemma eventNodeAfterWalk_event node walked :
  _event node <> None -> _event (eventNodeAfterWalk node walked) <> None.
Proof.
  intros He. unfold eventNodeAfterWalk.
  destruct (type node) as [[? ? [[|first rest]|] | | | | | | |]|]; try exact He.
  destruct (_event node) as [[|conditions actions]|] eqn:E; try congruence.
  - node_simpl. congruence.
  - destruct rest as [|a1 [|a2 rest']]; try congruence.
    node_simpl. discriminate.
Qed.

Lemma walkReference_Met walk self node namespace nodePrefix st r st' :
  WalkIds walk ->
  walkReference walk self node namespace nodePrefix st = Ok (r, st') ->
  exists E,
    Met st st' E
    /\ (E = [] \/ (_event (fst r) <> None
                   /\ E ⊆+ ids_otype (type (declarationWith node)))).
Proof.
  intros Hwalk. unfold walkReference.
  destruct (type node) as [[rid rname targs| | | | | | |]|] eqn:E0;
    try (intros H; inv_M; exists []; split;
         [apply Met_same; reflexivity | left; reflexivity]).
  destruct (includes chromeEventRefTypes rname); intros H.
  - apply bind_Ok in H as ([n1 cs] & st1 & Hup & H).
    apply lift_Ok in Hup as [Hup ->].
    apply bind_Ok in H as (walked & st2 & Hcs & H).
    apply ret_Ok in H as [-> ->]. simpl.
    exists (flat_map ids_node cs). split.
    + eapply forEach_walkChild_Met; eassumption.
    + right. split.
      * apply eventNodeAfterWalk_event.
        apply upgradeEventNode_parts in Hup. tauto.
      * rewrite declarationWith_unfold, E0, E0.
        eapply upgradeEventNode_ids; eassumption.
  - unfold pushPendingReference in H. inv_M. exists []. split.
    + apply Met_same. reflexivity.
    + left. reflexivity.
Qed.

Lemma walkChildren_Met walk node namespace st node' st' :
  WalkIds walk ->
  walkChildren walk node namespace st = Ok (node', st') ->
  Met st st'
      (flat_map ids_node
         (filter (fun c => negb (isNamespace c))
                 (default [] (children (declarationWith node))))).
Proof.
  intros Hwalk. unfold walkChildren.
  destruct (children (declarationWith node)) as [[|c cs]|];
    try (intros H; inv_M; apply Met_same; reflexivity).
  simpl default.
  destruct (filter _ (c :: cs)); intros H; inv_M.
  - apply Met_same. reflexivity.
  - eapply forEach_walkChild_Met; eassumption.
Qed.

Lemma objectSet_ids {V} (f : V -> list Z) key (v : V) m :
  flat_map f (map snd (objectSet key v m)) ⊆+ flat_map f (map snd m) ++ f v.
Proof.
  induction m as [|[k w] m IH]; simpl.
  - rewrite app_nil_r. reflexivity.
  - destruct (String.eqb k key); simpl.
    + rewrite <- app_assoc. apply submseteq_inserts_l.
      apply Permutation_submseteq, Permutation_app_comm.
    + rewrite <- app_assoc. apply submseteq_skips_l, IH.
Qed.

Lemma ids_upgradeParam p tags :
  ids_node (upgradeParamWithParamSinceTags p tags) = ids_node p.
Proof.
  unfold upgradeParamWithParamSinceTags, concatCommentTags.
  destruct p; reflexivity.
Qed.

Lemma paramStep_ids occ :
  forall m,
    flat_map ids_node
             (map snd (fold_left (fun m ps => paramStep (snd ps) m (fst ps))
                                 occ m))
    ⊆+ flat_map ids_node (map snd m) ++ flat_map ids_node (map fst occ).
Proof.
  induction occ as [|[p s] occ IH]; intros m; simpl.
  - rewrite app_nil_r. reflexivity.
  - etransitivity; [apply IH|].
    rewrite app_assoc. apply submseteq_skips_r.
    unfold paramStep.
    destruct (negb _ || _); [| apply submseteq_inserts_r; reflexivity].
    unfold mapSet. etransitivity; [apply objectSet_ids|].
    rewrite ids_upgradeParam. reflexivity.
Qed.

Lemma ids_occurrences sigs :
  flat_map ids_node (map fst (parameterOccurrences sigs))
  = flat_map (fun s => ids_children (parameters s)) sigs.
Proof.
  unfold parameterOccurrences.
  induction sigs as [|s sigs IH]; simpl; [reflexivity|].
  rewrite map_app, flat_map_app, IH, map_map, map_id. reflexivity.
Qed.

(** The merged parameters hold ids of the parameters of the signatures
    only, none twice. *)
Lemma ids_merged_parameters sigs c :
  flat_map ids_node (mapValues (allParams (scanSignatures sigs c)))
  ⊆+ flat_map (fun s => ids_children (parameters s)) sigs.
Proof.
  unfold scanSignatures, mapValues. rewrite scan_allParams. simpl.
  etransitivity; [apply paramStep_ids|]. simpl.
  rewrite ids_occurrences. reflexivity.
Qed.

Lemma ids_returnVirtualNode t c c' :
  ids_node (returnVirtualNode t c c') = ids_type t.
Proof.
  unfold returnVirtualNode, upgradeReturnWithReturnSinceTags,
    concatCommentTags, virtualNode, declaration.
  destruct (c ≫= returns) as [r|]; [destruct (Js.truthy r)|];
    rewrite ids_node_unfold; simpl; rewrite app_nil_r; reflexivity.
Qed.

Lemma ids_returnType sigs c t :
  returnType (scanSignatures sigs c) = Some t ->
  ids_type t ⊆+ flat_map (fun s => ids_otype (sig_type s)) sigs.
Proof.
  destruct (scan_returns sigs c) as [Hr _]. rewrite Hr.
  destruct (last _) as [s|] eqn:El; [| discriminate]. simpl. intros Ht.
  apply last_Some_elem_of in El.
  apply list_elem_of_filter in El as [_ El].
  etransitivity;
    [| apply (flat_map_elem_submseteq
                (fun s => ids_otype (sig_type s)) _ _ El)].
  simpl. rewrite Ht. reflexivity.
Qed.

Lemma flat_map_app_Permutation {A B} (f g : A -> list B) (l : list A) :
  flat_map (fun x => f x ++ g x) l ≡ₚ flat_map f l ++ flat_map g l.
Proof.
  induction l as [|x l IH]; simpl; [reflexivity|].
  rewrite IH, <- !app_assoc. apply Permutation_app_head.
  rewrite !app_assoc. apply Permutation_app_tail, Permutation_app_comm.
Qed.

Lemma ids_signatures_split sigs :
  flat_map ids_signature sigs
  ≡ₚ flat_map (fun s => ids_children (parameters s)) sigs
     ++ flat_map (fun s => ids_otype (sig_type s)) sigs.
Proof.
  rewrite <- flat_map_app_Permutation.
  rewrite (flat_map_ext ids_signature
             (fun s => ids_children (parameters s) ++ ids_otype (sig_type s)))
    by (intros; apply ids_signature_unfold).
  reflexivity.
Qed.

Lemma walkSignatures_Met walk node namespace nodePrefix st r st' :
  WalkIds walk ->
  walkSignatures walk node namespace nodePrefix st = Ok (r, st') ->
  Met st st' (ids_signatures (signatures (declarationWith node))).
Proof.
  intros Hwalk. unfold walkSignatures.
  destruct (signatures (declarationWith node)) as [[|s0 ss]|];
    try (intros H; inv_M; apply Met_same; reflexivity).
  unfold ids_signatures. simpl default.
  destruct (returnType _) as [t|] eqn:Et; intros H.
  - apply bind_Ok in H as (walked & st1 & Hps & H).
    apply bind_Ok in H as (walkedReturn & st2 & Hret & H).
    apply ret_Ok in H as [_ ->].
    eapply Met_weaken;
      [| eapply Met_trans;
         [eapply forEach_walkChild_Met; eassumption
         | eapply walkChild_Met; eassumption]].
    rewrite ids_returnVirtualNode, ids_signatures_split.
    apply submseteq_app; [apply ids_merged_parameters|].
    eapply ids_returnType, Et.
  - apply bind_Ok in H as (walked & st1 & Hps & H).
    apply ret_Ok in H as [_ ->].
    eapply Met_weaken; [| eapply forEach_walkChild_Met; eassumption].
    rewrite ids_signatures_split. apply submseteq_inserts_r.
    apply ids_merged_parameters.
Qed.

Lemma ids_embeddedTypes t :
  flat_map ids_type (embeddedTypes t) ⊆+ ids_otype t.
Proof.
  destruct t as [[? ? [l|] | | l | l | e | [l|] | |]|]; simpl;
    rewrite ?app_nil_r; try reflexivity; apply submseteq_nil_l.
Qed.

Lemma walkEmbeddedTypes_Met walk node namespace st node' st' :
  WalkIds walk ->
  walkEmbeddedTypes walk node namespace st = Ok (node', st') ->
  exists E,
    Met st st' E
    /\ (E = [] \/ (_event node = None
                   /\ E ⊆+ ids_otype (type (declarationWith node)))).
Proof.
  intros Hwalk. unfold walkEmbeddedTypes.
  destruct (_event node) eqn:Ev; intros H.
  - inv_M. exists []. split; [apply Met_same; reflexivity | auto].
  - apply bind_Ok in H as (walked & st1 & Hts & H).
    exists (flat_map ids_type (embeddedTypes (type (declarationWith node)))).
    split.
    + assert (st' = st1) as ->.
      { destruct (if hoistsProperties _ then _ else _); inv_M; reflexivity. }
      eapply (forEach_Met _ ids_type); [| exact Hts].
      intros t s y s' _ Hc. cbv beta in Hc.
      rewrite <- (ids_virtualNode (name (declarationWith node))
                                  Kind_TypeAlias t).
      eapply walkChild_Met; eassumption.
    + right. split; [reflexivity | apply ids_embeddedTypes].
Qed.

Lemma Met_store st st6 st9 bound self node n8 :
  Met st st6 bound -> heap st !! self = Some node -> id n8 = id node ->
  heap st9 = <[self := n8]> (heap st6) ->
  Met st st9 bound.
Proof.
  intros (new & H & S) Hself Hid Hh9. exists new. split; [| exact S].
  unfold allIds in *. rewrite Hh9, list_fmap_insert.
  rewrite list_insert_id; [exact H|].
  rewrite H. apply lookup_app_l_Some.
  rewrite list_lookup_fmap, Hself, Hid. reflexivity.
Qed.

Lemma sameParts_children_ids n n' :
  sameParts n n' ->
  flat_map ids_node
           (filter (fun c => negb (isNamespace c))
                   (default [] (children (declarationWith n'))))
  ⊆+ flat_map ids_node
              (filter (fun c => negb (isNamespace c))
                      (default [] (children (declarationWith n)))).
Proof.
  intros [[-> | ->] _ _]; [reflexivity | apply submseteq_nil_l].
Qed.

Lemma sameParts_signatures_ids n n' :
  sameParts n n' ->
  ids_signatures (signatures (declarationWith n'))
  ⊆+ ids_signatures (signatures (declarationWith n)).
Proof.
  intros [_ [-> | ->] _]; [reflexivity | apply submseteq_nil_l].
Qed.

(** The ids met at the reference and at the embedded types are ids of the
    type: a node that has become an event has no embedded types walked. *)
Lemma type_ids_once (T E3 E6 : list Z) (event3 event6 : Prop) :
  (E3 = [] \/ (~ event3 /\ E3 ⊆+ T)) ->
  (E6 = [] \/ (event6 /\ E6 ⊆+ T)) ->
  (event6 -> event3) ->
  E3 ++ E6 ⊆+ T.
Proof.
  intros [-> | [H3 S3]] [-> | [H6 S6]] Himp; simpl; rewrite ?app_nil_r;
    try assumption; try apply submseteq_nil_l.
  exfalso. auto.
Qed.

Lemma parts_submseteq {A} (E3 C3 S4 E6 C T S : list A) :
  E3 ++ E6 ⊆+ T -> C3 ⊆+ C -> S4 ⊆+ S ->
  ((E3 ++ C3) ++ S4) ++ E6 ⊆+ C ++ T ++ S.
Proof.
  intros HT HC HS.
  transitivity ((E3 ++ E6) ++ C3 ++ S4).
  - apply Permutation_submseteq. rewrite <- !app_assoc.
    apply Permutation_app_head. rewrite (app_assoc C3 S4 E6).
    apply Permutation_app_comm.
  - transitivity (T ++ C ++ S).
    + apply submseteq_app; [exact HT | apply submseteq_app; assumption].
    + apply Permutation_submseteq. rewrite !app_assoc.
      apply Permutation_app_tail, Permutation_app_comm.
Qed.

Lemma walk_body_ids walk :
  WalkOK walk -> WalkIds walk -> WalkIds (walk_body JSON_parse walk).
Proof.
  intros Hok Hwalk self node parent namespace st node' st' H Hself.
  pose proof (wn_id _ _ _ _ _ _ _
                (walk_body_OK walk Hok _ _ _ _ _ _ _ H Hself)) as Hid.
  unfold walk_body in H.
  apply bind_Ok in H as (n1 & st1 & Hplace & H).
  apply bind_Ok in H as ([] & st2 & Hindex & H).
  apply bind_Ok in H as ([n3 p3] & st3 & Href & H).
  apply bind_Ok in H as (n4 & st4 & Hchildren & H).
  apply bind_Ok in H as ([n5 p5] & st5 & Hsigs & H).
  apply bind_Ok in H as (n6 & st6 & Hemb & H).
  apply bind_Ok in H as (n7 & st7 & Htags & H).
  apply bind_Ok in H as (n8 & st8 & Hpage & H).
  apply bind_Ok in H as ([] & st9 & Hstore & H).
  apply ret_Ok in H as [-> ->].
  pose proof (walkPlace_parts _ _ _ _ _ _ _ Hplace) as [Hty P1].
  pose proof (declarationWith_outer type (fun _ => n1) node Hty Hty) as Hty1.
  apply walkPlace_spec in Hplace as (Hh1 & _).
  apply walkIndex_spec in Hindex as (Hh2 & _).
  pose proof (walkReference_parts _ _ _ _ _ _ _ _ Href) as P3.
  apply (walkReference_Met _ _ _ _ _ _ _ _ Hwalk) in Href
    as (E3 & M3 & HE3).
  pose proof (walkChildren_parts _ _ _ _ _ _ Hchildren) as P4.
  apply (walkChildren_Met _ _ _ _ _ _ Hwalk) in Hchildren as M4.
  pose proof (walkSignatures_parts _ _ _ _ _ _ _ Hsigs) as P5.
  apply (walkSignatures_Met _ _ _ _ _ _ _ Hwalk) in Hsigs as M5.
  apply (walkEmbeddedTypes_Met _ _ _ _ _ _ Hwalk) in Hemb
    as (E6 & M6 & HE6).
  apply walkTags_Ok in Htags as [-> _].
  apply walkPageId_Ok in Hpage as [-> _].
  apply store_spec in Hstore as (Hh9 & _).
  simpl in P3, P5, HE3.
  pose proof (sameParts_trans _ _ _ P1 P3) as Q3.
  pose proof (sameParts_trans _ _ _ Q3 P4) as Q4.
  pose proof (sameParts_trans _ _ _ Q4 P5) as Q5.
  pose proof (Met_trans _ _ _ _ _ (Met_trans _ _ _ _ _
                (Met_trans _ _ _ _ _ M3 M4) M5) M6) as M.
  assert (M0 : Met st st6 (((E3 ++ flat_map ids_node
                                     (filter (fun c => negb (isNamespace c))
                                        (default [] (children
                                                       (declarationWith n3)))))
                            ++ ids_signatures (signatures (declarationWith n4)))
                           ++ E6)).
  { destruct M as (new & Hnew & Hsub). exists new. split; [| exact Hsub].
    rewrite Hnew. unfold allIds. rewrite Hh2, Hh1. reflexivity. }
  eapply Met_store; [| exact Hself | exact Hid | exact Hh9].
  eapply Met_weaken; [| exact M0].
  unfold walkedIds, partIds.
  set (C := flat_map ids_node _) at 2.
  set (T := ids_otype (type (declarationWith node))).
  set (S := ids_signatures (signatures (declarationWith node))).
  assert (HT : E3 ++ E6 ⊆+ T).
  { apply (type_ids_once T E3 E6 (_event n3 = None) (_event n5 = None)).
    - destruct HE3 as [-> | [He Hs]]; [auto|]. right. split; [exact He|].
      unfold T. rewrite <- Hty1. exact Hs.
    - destruct HE6 as [-> | [He Hs]]; [auto|]. right. split; [exact He|].
      unfold T. destruct (same_type _ _ Q5 He) as [_ <-]. exact Hs.
    - intros He. apply (same_type _ _ (sameParts_trans _ _ _ P4 P5) He). }
  pose proof (sameParts_children_ids _ _ Q3) as HC. fold C in HC.
  pose proof (sameParts_signatures_ids _ _ Q4) as HS. fold S in HS.
  apply parts_submseteq; assumption.
Qed.

Lemma walk_ids fuel : WalkIds (walk JSON_parse fuel).
Proof.
  induction fuel as [|fuel IH].
  - intros self node parent namespace st node' st' H. discriminate H.
  - apply walk_body_ids; [apply walk_OK | exact IH].
Qed.

(** *** The ids of the page roots *)

(** The positive ids that the walk of a page root meets, its own
    included. *)
Definition ownIds (r : Node) : list Z := posId r ++ walkedIds r.

Lemma flat_map_ext_elem {A B} (f g : A -> list B) (l : list A) :
  (forall x, x ∈ l -> f x = g x) -> flat_map f l = flat_map g l.
Proof.
  induction l as [|x l IH]; intros H; simpl; [reflexivity|].
  rewrite (H x) by constructor. rewrite IH; [reflexivity|].
  intros y Hy. apply H. constructor. exact Hy.
Qed.

Lemma flat_map_pointwise_submseteq {A B} (f g : A -> list B) (l : list A) :
  (forall x, x ∈ l -> f x ⊆+ g x) -> flat_map f l ⊆+ flat_map g l.
Proof.
  induction l as [|x l IH]; intros H; simpl; [reflexivity|].
  apply submseteq_app; [apply H; constructor|].
  apply IH. intros y Hy. apply H. constructor. exact Hy.
Qed.

Lemma flat_map_flat_map {A B C} (f : B -> list C) (g : A -> list B) l :
  flat_map f (flat_map g l) = flat_map (fun x => flat_map f (g x)) l.
Proof.
  induction l as [|x l IH]; simpl; [reflexivity|].
  rewrite flat_map_app, IH. reflexivity.
Qed.

(** Distinct places of a list select distinct parts of it. *)
Lemma flat_map_select {A B} (f : A -> list B) (l : list A) :
  forall hs : list nat,
    NoDup hs -> (forall h, h ∈ hs -> (h < length l)%nat) ->
    flat_map (fun h => from_option f [] (l !! h)) hs ⊆+ flat_map f l.
Proof.
  induction l as [|x l IH] using rev_ind; intros hs Hnd Hlt.
  { destruct hs as [|h hs]; [reflexivity|].
    specialize (Hlt h (list_elem_of_here _ _)). simpl in Hlt. lia. }
  assert (Hin : forall hs',
             (forall h, h ∈ hs' -> (h < length l)%nat) ->
             flat_map (fun h => from_option f [] ((l ++ [x]) !! h)) hs'
             = flat_map (fun h => from_option f [] (l !! h)) hs').
  { intros hs' H. apply flat_map_ext_elem. intros h Hh.
    rewrite lookup_app_l by auto. reflexivity. }
  rewrite flat_map_app. simpl. rewrite app_nil_r.
  destruct (decide (length l ∈ hs)) as [Hl | Hl].
  - apply elem_of_Permutation in Hl as [hs' Hperm].
    rewrite Hperm in Hnd. apply NoDup_cons in Hnd as [Hfresh Hnd'].
    transitivity (flat_map (fun h => from_option f [] ((l ++ [x]) !! h))
                           (length l :: hs')).
    { apply flat_map_submseteq, Permutation_submseteq, Hperm. }
    simpl. rewrite list_lookup_middle by reflexivity. simpl.
    rewrite (Permutation_app_comm (flat_map f l)).
    apply submseteq_skips_l.
    assert (Hlt' : forall h, h ∈ hs' -> (h < length l)%nat).
    { intros h Hh.
      assert (h ∈ hs) as Hh' by (rewrite Hperm; constructor; exact Hh).
      specialize (Hlt h Hh'). rewrite length_app in Hlt. simpl in Hlt.
      assert (h <> length l) by (intros ->; contradiction). lia. }
    rewrite Hin by exact Hlt'. apply IH; assumption.
  - assert (Hlt' : forall h, h ∈ hs -> (h < length l)%nat).
    { intros h Hh. specialize (Hlt h Hh).
      rewrite length_app in Hlt. simpl in Hlt.
      assert (h <> length l) by (intros ->; contradiction). lia. }
    rewrite Hin by exact Hlt'. apply submseteq_inserts_r.
    apply IH; assumption.
Qed.

Lemma locatedChildren_nonNamespace qn cs :
  filter (fun c => negb (isNamespace c)) (map fst (locatedChildren qn cs))
  = filter (fun c => negb (isNamespace c)) cs.
Proof.
  unfold locatedChildren.
  induction cs as [|c cs IH]; simpl; [reflexivity|].
  rewrite !filter_cons, IH.
  destruct (isNamespace c) eqn:E; simpl.
  - assert (isNamespace (fst (locate c (qn +:+ "." +:+ name c))) = true)
      as ->; [| reflexivity].
    unfold isNamespace in *.
    destruct (locate_fields c (qn +:+ "." +:+ name c))
      as (_ & _ & _ & _ & ->). exact E.
  - rewrite E. reflexivity.
Qed.

Lemma locate_type node qn : type (fst (locate node qn)) = type node.
Proof. rewrite locate_fst. cbv zeta. destruct (children node); reflexivity. Qed.

Lemma locate_signatures node qn :
  signatures (fst (locate node qn)) = signatures node.
Proof. rewrite locate_fst. cbv zeta. destruct (children node); reflexivity. Qed.

Lemma locate_children node qn :
  children (fst (locate node qn))
  = map fst <$> (locatedChildren qn <$> children node).
Proof.
  rewrite locate_fst. cbv zeta.
  destruct (children node) eqn:E; node_simpl; simpl; auto.
Qed.

(** The locator leaves the parts that the walk descends into. *)
Lemma ownIds_locate node qn : ownIds (fst (locate node qn)) = ownIds node.
Proof.
  unfold ownIds. f_equal.
  { unfold posId. destruct (locate_fields node qn) as (_ & _ & -> & _).
    reflexivity. }
  unfold walkedIds.
  rewrite (declarationWith_unfold (fst (locate node qn))),
    (declarationWith_unfold node), locate_type.
  destruct (type node) as [[| [d|] | | | | | |]|] eqn:E; try reflexivity.
  all: unfold partIds;
    rewrite locate_type, locate_signatures, locate_children;
    destruct (children node) as [cs|]; simpl;
    rewrite ?locatedChildren_nonNamespace; reflexivity.
Qed.

Lemma flat_map_filter_split {A B} (f : A -> list B) (p : A -> bool)
    (l : list A) :
  flat_map f l
  ≡ₚ flat_map f (filter (fun x => p x) l)
     ++ flat_map f (filter (fun x => negb (p x)) l).
Proof.
  induction l as [|x l IH]; simpl; [reflexivity|].
  rewrite !filter_cons. destruct (p x); simpl.
  - rewrite <- app_assoc. apply Permutation_app_head, IH.
  - rewrite IH, !app_assoc.
    apply Permutation_app_tail, Permutation_app_comm.
Qed.

Lemma flat_map_filter_bool {A B} (f : A -> list B) (p : A -> bool)
    (l : list A) :
  flat_map f (filter (fun x => p x) l)
  = flat_map (fun x => if p x then f x else []) l.
Proof.
  induction l as [|x l IH]; simpl; [reflexivity|].
  rewrite filter_cons. destruct (p x); simpl; rewrite IH; reflexivity.
Qed.

(** The page roots found below a namespace are walked over parts of that
    namespace that do not overlap. *)
Lemma locate_ids node :
  forall qn, flat_map ownIds (snd (locate node qn)) ⊆+ ids_node node.
Proof.
  induction node as [node IH] using Node_children_ind. intros qn.
  rewrite locate_snd, flat_map_app.
  transitivity
    (flat_map ids_node
              (filter (fun c => isNamespace c) (default [] (children node)))
     ++ ownIds node).
  - apply submseteq_app.
    + unfold locatedChildren. rewrite flat_map_flat_map, flat_map_map.
      rewrite flat_map_filter_bool.
      destruct (children node) as [cs|] eqn:Hcs; [| reflexivity]. simpl.
      apply flat_map_pointwise_submseteq. intros c Hc.
      destruct (isNamespace c); [| reflexivity].
      apply (IH cs c eq_refl Hc).
    + destruct (hasNonNamespaceChild node); simpl.
      * rewrite app_nil_r, ownIds_locate. reflexivity.
      * apply submseteq_nil_l.
  - unfold ownIds.
    transitivity
      (flat_map ids_node
                (filter (fun c => isNamespace c) (default [] (children node)))
       ++ posId node ++ partIds node).
    { do 2 apply submseteq_skips_l. apply walkedIds_part. }
    apply Permutation_submseteq.
    rewrite ids_node_unfold. unfold partIds, ids_children.
    rewrite (flat_map_filter_split ids_node isNamespace
               (default [] (children node))).
    rewrite app_assoc, (Permutation_app_comm _ (posId node)), <- !app_assoc.
    reflexivity.
Qed.

Lemma locateRoots_ids project :
  flat_map ownIds (locateRoots project) ⊆+ ids_project project.
Proof.
  unfold locateRoots, ids_project. rewrite flat_map_flat_map.
  apply flat_map_pointwise_submseteq. intros c _.
  destruct (isNamespace c); [apply locate_ids | apply submseteq_nil_l].
Qed.

(** The walks of distinct page roots meet the parts of each. *)
Lemma forEach_walkRoot_Met fuel hs :
  NoDup hs ->
  forall st ys st',
    (forall h, h ∈ hs -> (h < length (heap st))%nat) ->
    forEach (walkRoot fuel) hs st = Ok (ys, st') ->
    Met st st' (flat_map (fun h => from_option walkedIds [] (heap st !! h)) hs).
Proof.
  induction 1 as [|h hs Hh Hnd IH]; intros st ys st' Hlt H; simpl in H.
  - inv_M. apply Met_same. reflexivity.
  - apply bind_Ok in H as (y & st1 & Hwalk & H).
    apply bind_Ok in H as (ys' & st2 & Hrest & H).
    apply ret_Ok in H as [-> ->].
    unfold walkRoot in Hwalk.
    apply bind_Ok in Hwalk as (o & st0 & Ho & Hwalk).
    injection Ho as <- <-.
    destruct (heap st !! h) as [namespace|] eqn:Hself; [| discriminate].
    pose proof (walk_OK fuel _ _ _ _ _ _ _ Hwalk Hself) as Hok.
    pose proof (walk_ids fuel _ _ _ _ _ _ _ Hwalk Hself) as M1.
    simpl. rewrite Hself. simpl.
    eapply Met_trans; [exact M1|].
    assert (Hframe :
      flat_map (fun h' => from_option walkedIds [] (heap st !! h')) hs
      = flat_map (fun h' => from_option walkedIds [] (heap st1 !! h')) hs).
    { apply flat_map_ext_elem. intros h' Hh'.
      rewrite (wn_frame _ _ _ _ _ _ _ Hok); [reflexivity | |].
      - apply Hlt. constructor. exact Hh'.
      - intros ->. contradiction. }
    rewrite Hframe. eapply IH; [| exact Hrest].
    intros h' Hh'. pose proof (wn_heap _ _ _ _ _ _ _ Hok).
    specialize (Hlt h' (list_elem_of_further _ _ _ Hh')). lia.
Qed.

Lemma NoDup_flat_map_inj {A B} (f : A -> list B) (l : list A) x y z :
  NoDup (flat_map f l) -> x ∈ l -> y ∈ l -> z ∈ f x -> z ∈ f y -> x = y.
Proof.
  induction l as [|a l IH]; simpl; intros Hnd Hx Hy Hzx Hzy.
  - inversion Hx.
  - apply NoDup_app in Hnd as (_ & Hdisj & Hnd).
    assert (Hin : forall w, w ∈ l -> z ∈ f w -> z ∈ flat_map f l).
    { intros w Hw Hz. apply list_elem_of_In, in_flat_map.
      exists w. split; apply list_elem_of_In; assumption. }
    apply elem_of_cons in Hx as [-> | Hx];
      apply elem_of_cons in Hy as [-> | Hy]; auto.
    + exfalso. eapply Hdisj; eauto.
    + exfalso. eapply Hdisj; eauto.
Qed.

Lemma NoDup_filter_lookup {A} (P : A -> Prop) `{!forall x, Decision (P x)}
    (l : list A) :
  forall i j x,
    NoDup (filter P l) -> l !! i = Some x -> l !! j = Some x -> P x -> i = j.
Proof.
  induction l as [|a l IH]; intros i j x Hnd Hi Hj Hx; [discriminate|].
  rewrite filter_cons in Hnd.
  assert (Hl : forall k, l !! k = Some x -> a = x -> False).
  { intros k Hk <-. rewrite decide_True in Hnd by exact Hx.
    apply NoDup_cons in Hnd as [Hfresh _]. apply Hfresh.
    apply list_elem_of_filter. split; [exact Hx|].
    eapply list_elem_of_lookup_2, Hk. }
  assert (Hnd' : NoDup (filter P l)).
  { destruct (decide (P a)); [apply NoDup_cons in Hnd; tauto | exact Hnd]. }
  destruct i as [|i], j as [|j]; simpl in Hi, Hj.
  - reflexivity.
  - injection Hi as Hi. exfalso. eauto.
  - injection Hj as Hj. exfalso. eauto.
  - f_equal. eapply IH; eassumption.
Qed.

(** The ids of the objects of the final state: the registered roots keep
    theirs, and the positive ids among the others are ids of parts of the
    roots that were walked. *)
Lemma walkRoots_Met fuel project st :
  walkRoots JSON_parse fuel project = Ok st ->
  let roots := locateRoots project in
  let hs := map snd (namespaces (registered roots newTransform)) in
  exists new,
    allIds st = (id <$> roots) ++ new
    /\ flat_map (fun h => from_option posId [] (roots !! h)) hs
       ++ positiveIds new
       ⊆+ ids_project project.
Proof.
  rewrite walkRoots_unfold. intros H roots hs.
  destruct (forEach _ _ _) as [[ys st1] | e |] eqn:E; try discriminate.
  injection H as ->.
  assert (Hlt : forall h, h ∈ hs -> (h < length roots)%nat).
  { intros h Hh. apply list_elem_of_fmap in Hh as ([k h'] & -> & Hin).
    eapply registered_handles. exact Hin. }
  apply forEach_walkRoot_Met in E as (new & Hnew & Hsub).
  - exists new. rewrite registered_heap in Hsub.
    unfold allIds in Hnew. rewrite registered_heap in Hnew. simpl in *.
    split; [exact Hnew|].
    etransitivity; [| apply locateRoots_ids].
    etransitivity; [| apply (flat_map_select ownIds roots hs);
                      [apply registered_NoDup | exact Hlt]].
    etransitivity; [apply submseteq_skips_l, Hsub|].
    fold roots. fold hs. rewrite <- flat_map_app_Permutation.
    apply flat_map_pointwise_submseteq. intros h _.
    destruct (roots !! h); reflexivity.
  - apply registered_NoDup.
  - intros h Hh. rewrite registered_heap. simpl. apply Hlt, Hh.
Qed.

(** An entry of the id index refers to a visited object with that id, and
    every visited object with a positive id has its id in the index. *)
Lemma index_visited project fuel st :
  walkRoots JSON_parse fuel project = Ok st ->
  (forall k h,
     indexForReferences st !! k = Some h ->
     visited project st h /\ exists n, heap st !! h = Some n /\ id n = k)
  /\ (forall h n,
        visited project st h -> heap st !! h = Some n -> 0 < id n ->
        is_Some (indexForReferences st !! id n)).
Proof.
  intros Hrun. pose proof (walkRoots_RootsWalked _ _ _ Hrun) as HR. cbv zeta in HR.
  set (st0 := registered (locateRoots project) newTransform) in *.
  assert (Hheap0 : length (heap st0) = length (locateRoots project))
    by (unfold st0; rewrite registered_heap; reflexivity).
  assert (Hidx0 : indexForReferences st0 = ∅)
    by (unfold st0; apply registered_indices).
  assert (Hsound : indexSound st).
  { apply (rw_sound _ _ _ _ HR). intros k h Hk.
    rewrite Hidx0, lookup_empty in Hk. discriminate. }
  split.
  - intros k h Hk. destruct (Hsound k h Hk) as [_ Hn]. split; [| exact Hn].
    destruct (rw_entries _ _ _ _ HR k h Hk) as [Hk' | [Hin | Hge]].
    + rewrite Hidx0, lookup_empty in Hk'. discriminate.
    + left. rewrite (rw_namespaces _ _ _ _ HR). exact Hin.
    + right. rewrite <- Hheap0. exact Hge.
  - intros h n [Hin | Hge] Hn Hpos.
    + rewrite (rw_namespaces _ _ _ _ HR) in Hin.
      apply (rw_walked _ _ _ _ HR h n Hin Hn Hpos).
    + apply (rw_new _ _ _ _ HR h n); [rewrite Hheap0; exact Hge | exact Hn
                                      | exact Hpos].
Qed.

(** X2. In a project whose positive ids are distinct, no two objects that the
    walker visited have the same positive id, so the id index refers every
    visited object with a positive id to that very object. *)
Theorem distinct_ids_indexed (project : ProjectReflection) (fuel : nat)
    (st : State) :
  NoDup (ids_project project) ->
  walkRoots JSON_parse fuel project = Ok st ->
  (forall h1 h2 n1 n2,
     visited project st h1 -> visited project st h2 ->
     heap st !! h1 = Some n1 -> heap st !! h2 = Some n2 ->
     0 < id n1 -> id n1 = id n2 -> h1 = h2)
  /\ (forall h n,
        visited project st h -> heap st !! h = Some n -> 0 < id n ->
        indexForReferences st !! id n = Some h).
Proof.
  intros Hnd Hrun.
  pose proof (walkRoots_RootsWalked _ _ _ Hrun) as HR. cbv zeta in HR.
  destruct (walkRoots_Met _ _ _ Hrun) as (new & Hids & Hsub).
  set (roots := locateRoots project) in *.
  set (hs := map snd (namespaces (registered roots newTransform))) in *.
  apply (submseteq_NoDup _ _ Hsub) in Hnd.
  apply NoDup_app in Hnd as (Hnd1 & Hdisj & Hnd2).
  assert (Hlt : forall h, h ∈ hs -> (h < length roots)%nat).
  { intros h Hh. apply list_elem_of_fmap in Hh as ([k h'] & -> & Hin).
    eapply registered_handles. exact Hin. }
  assert (Hroot : forall h n,
             h ∈ hs -> heap st !! h = Some n -> 0 < id n ->
             id n ∈ from_option posId [] (roots !! h)).
  { intros h n Hh Hn Hpos.
    assert (Hlook : allIds st !! h = Some (id n))
      by (unfold allIds; rewrite list_lookup_fmap, Hn; reflexivity).
    rewrite Hids, lookup_app_l in Hlook
      by (rewrite length_fmap; apply Hlt, Hh).
    rewrite list_lookup_fmap in Hlook.
    destruct (roots !! h) as [r|]; [| discriminate].
    simpl in Hlook. injection Hlook as Hr. simpl. unfold posId.
    rewrite Hr. apply list_elem_of_filter. split; [exact Hpos | constructor]. }
  assert (Hnew : forall h n,
             (length roots <= h)%nat -> heap st !! h = Some n ->
             new !! (h - length roots)%nat = Some (id n)).
  { intros h n Hh Hn.
    assert (Hlook : allIds st !! h = Some (id n))
      by (unfold allIds; rewrite list_lookup_fmap, Hn; reflexivity).
    rewrite Hids, lookup_app_r in Hlook by (rewrite length_fmap; exact Hh).
    rewrite length_fmap in Hlook. exact Hlook. }
  assert (Hvisited : forall h, visited project st h ->
                               h ∈ hs \/ (length roots <= h)%nat).
  { intros h [Hh | Hh]; [left | right; exact Hh].
    rewrite (rw_namespaces _ _ _ _ HR) in Hh. exact Hh. }
  assert (Hcross : forall h h' n n',
             h ∈ hs -> (length roots <= h')%nat ->
             heap st !! h = Some n -> heap st !! h' = Some n' ->
             0 < id n -> id n = id n' -> False).
  { intros h h' n n' Hh Hh' Hn Hn' Hpos Heq.
    apply (Hdisj (id n)).
    - apply list_elem_of_In, in_flat_map. exists h.
      split; apply list_elem_of_In; [exact Hh | apply Hroot; assumption].
    - apply list_elem_of_filter. split; [exact Hpos|].
      rewrite Heq. eapply list_elem_of_lookup_2, Hnew; eassumption. }
  assert (Hdistinct : forall h1 h2 n1 n2,
             visited project st h1 -> visited project st h2 ->
             heap st !! h1 = Some n1 -> heap st !! h2 = Some n2 ->
             0 < id n1 -> id n1 = id n2 -> h1 = h2).
  { intros h1 h2 n1 n2 Hv1 Hv2 Hn1 Hn2 Hpos Heq.
    destruct (Hvisited _ Hv1) as [Hh1 | Hh1],
             (Hvisited _ Hv2) as [Hh2 | Hh2].
    - apply (NoDup_flat_map_inj _ _ _ _ (id n1) Hnd1 Hh1 Hh2).
      + apply Hroot; assumption.
      + rewrite Heq. apply Hroot; [assumption | assumption | lia].
    - exfalso. eapply (Hcross h1 h2); eassumption.
    - exfalso. eapply (Hcross h2 h1 n2 n1); try eassumption; lia.
    - pose proof (Hnew _ _ Hh1 Hn1) as H1.
      pose proof (Hnew _ _ Hh2 Hn2) as H2. rewrite <- Heq in H2.
      pose proof (NoDup_filter_lookup _ _ _ _ _ Hnd2 H1 H2 Hpos). lia. }
  split; [exact Hdistinct|].
  intros h n Hv Hn Hpos.
  destruct (index_visited _ _ _ Hrun) as [Hentries Hindexed].
  destruct (Hindexed h n Hv Hn Hpos) as [h' Hh'].
  destruct (Hentries _ _ Hh') as (Hv' & n' & Hn' & Hid').
  rewrite Hh'. f_equal.
  apply (Hdistinct h' h n' n Hv' Hv Hn' Hn); congruence.
Qed.

(** * Further properties of the transform *)

(** ** [createHref] at its edges *)

(** X12. The href between two nodes is never the empty string: it is
    [undefined] exactly when both are on the same page and the target has
    no page id, an empty one counting as none.  A target without a page
    lets the word [undefined] into the link. *)
Theorem createHref_edges (from to : Node) :
  createHref from to <> Some ""
  /\ (createHref from to = None
      <-> _pageHref from = _pageHref to
          /\ forall pageId, _pageId to = Some pageId -> pageId = "")
  /\ (_pageHref to = None -> _pageHref from <> None ->
      exists hash, createHref from to = Some ("../undefined/" +:+ hash)).
Proof.
  unfold createHref. split; [| split].
  - case_bool_decide.
    + destruct (_pageId to) as [[|c p]|]; simpl; discriminate.
    + discriminate.
  - case_bool_decide as Hpage.
    + destruct (_pageId to) as [[|c p]|]; simpl.
      * split; [intros _; split; [exact Hpage | congruence] | reflexivity].
      * split; [discriminate|]. intros [_ H]. discriminate (H _ eq_refl).
      * split; [intros _; split; [exact Hpage | discriminate] | reflexivity].
    + split; [discriminate | tauto].
  - intros Hto Hfrom. rewrite Hto.
    rewrite bool_decide_eq_false_2 by exact Hfrom.
    eexists. reflexivity.
Qed.

(** ** [resolveLink]: what it can answer *)

Lemma prefix_trans (a b c : string) :
  String.prefix a b = true -> String.prefix b c = true ->
  String.prefix a c = true.
Proof.
  revert a b. induction c as [|z c IH]; intros a b Hab Hbc.
  - destruct b; [| discriminate Hbc]. destruct a; [reflexivity | exact Hab].
  - destruct a as [|x a]; [reflexivity|].
    destruct b as [|y b]; [discriminate Hab|]. simpl in *.
    destruct (ascii_dec x y) as [-> |]; [| discriminate].
    destruct (ascii_dec y z) as [-> |]; [| discriminate].
    eapply IH; eassumption.
Qed.

Lemma prefix_substr0 n s : String.prefix (Js.substr0 n s) s = true.
Proof.
  revert n. induction s as [|c s IH]; intros [|n]; simpl; try reflexivity.
  destruct (ascii_dec c c); [apply IH | congruence].
Qed.

Lemma prefix_dropLastSegment s : String.prefix (dropLastSegment s) s = true.
Proof.
  rewrite <- popLast_dropLastSegment, popLast_lastDot.
  destruct (lastDot s); [apply prefix_substr0 | destruct s; reflexivity].
Qed.

Lemma prefix_refl s : String.prefix s s = true.
Proof.
  induction s as [|c s IH]; simpl; [reflexivity|].
  destruct (ascii_dec c c); [exact IH | congruence].
Qed.

(** A name that the lookup tries is the link, alone or after a dot behind
    the beginning of the id; the link alone is always among them. *)
Lemma candidateNames_form link id :
  link ∈ candidateNames id link
  /\ forall key,
       key ∈ candidateNames id link ->
       key = link
       \/ exists p, String.prefix p id = true /\ key = p +:+ "." +:+ link.
Proof.
  remember (String.length id) as n eqn:Hn. revert id Hn.
  induction n as [n IH] using lt_wf_ind. intros id Hn.
  destruct id as [|a r]; simp candidateNames.
  - split; [constructor|]. intros key Hkey.
    apply list_elem_of_singleton in Hkey. auto.
  - destruct (IH (String.length (dropLastSegment (String a r)))
                 ltac:(subst n; apply dropLastSegment_shorter)
                 (dropLastSegment (String a r)) eq_refl) as [Hlast Hform].
    split; [constructor; exact Hlast|].
    intros key Hkey. apply elem_of_cons in Hkey as [-> | Hkey].
    + right. exists (String a r). split; [apply prefix_refl | reflexivity].
    + destruct (Hform key Hkey) as [-> | (p & Hp & ->)]; [auto|].
      right. exists p. split; [| reflexivity].
      eapply prefix_trans; [exact Hp | apply prefix_dropLastSegment].
Qed.

Lemma head_omap_Some {A B} (f : A -> option B) (l : list A) x :
  x ∈ l -> is_Some (f x) -> is_Some (head (omap f l)).
Proof.
  intros Hx Hfx. induction Hx as [x l | x y l _ IH]; cbn [omap list_omap].
  - destruct Hfx as [b ->]. simpl. eauto.
  - destruct (f y); simpl; [eauto | exact (IH Hfx)].
Qed.

Fixpoint hasChar (c : ascii) (s : string) : bool :=
  match s with
  | EmptyString => false
  | String a r => Ascii.eqb a c || hasChar c r
  end.

Lemma hasChar_app c p r : hasChar c (p +:+ String c r) = true.
Proof.
  induction p as [|a p IH]; simpl.
  - rewrite Ascii.eqb_refl. reflexivity.
  - rewrite IH. apply orb_true_r.
Qed.

Lemma includes_elem (l : list string) x : includes l x = true <-> x ∈ l.
Proof.
  unfold includes. rewrite existsb_exists. split.
  - intros (y & Hy & E). apply String.eqb_eq in E. subst y.
    apply list_elem_of_In. exact Hy.
  - intros Hx. exists x. split; [apply list_elem_of_In, Hx|].
    apply String.eqb_refl.
Qed.

(** No member of [Object.prototype] has a dot in its name, so a name that
    the lookup tries with a dot in it yields nothing that was not filed. *)
Lemma objectPrototypeKeys_dotted p link :
  includes objectPrototypeKeys (p +:+ "." +:+ link) = false.
Proof.
  destruct (includes _ _) eqn:E; [| reflexivity].
  apply includes_elem in E.
  assert (Hall : Forall (fun k => hasChar "." k = false) objectPrototypeKeys)
    by (repeat constructor).
  rewrite Forall_forall in Hall. apply Hall in E.
  change (p +:+ "." +:+ link) with (p +:+ String "." link) in E.
  rewrite hasChar_app in E. discriminate E.
Qed.

Lemma getAllByName_Entry allByName key h :
  getAllByName allByName key = Some (Entry h) <-> allByName !! key = Some h.
Proof.
  unfold getAllByName. destruct (allByName !! key) as [h'|].
  - split; intros [= ->]; reflexivity.
  - destruct (includes _ _); split; discriminate.
Qed.

Lemma getAllByName_Inherited allByName key k :
  getAllByName allByName key = Some (Inherited k)
  <-> allByName !! key = None /\ k = key /\ key ∈ objectPrototypeKeys.
Proof.
  unfold getAllByName. rewrite <- includes_elem.
  destruct (allByName !! key) as [h'|].
  - split; [discriminate | intros [H _]; discriminate H].
  - destruct (includes _ _).
    + split; [intros [= <-]; auto | intros (_ & -> & _); reflexivity].
    + split; [discriminate | intros (_ & _ & H); discriminate H].
Qed.

(** The loop answers an inherited member exactly for a link that is the
    name of one, when the index holds none of the names that it tries. *)
Lemma resolveLinkLoop_Inherited (allByName : gmap string Handle) link id k :
  resolveLinkLoop allByName id link = Some (Inherited k)
  <-> k = link /\ link ∈ objectPrototypeKeys
      /\ forall name, name ∈ candidateNames id link ->
                      allByName !! name = None.
Proof.
  remember (String.length id) as n eqn:Hn. revert id Hn.
  induction n as [n IH] using lt_wf_ind. intros id Hn.
  destruct id as [|a r].
  - simp resolveLinkLoop candidateNames.
    rewrite getAllByName_Inherited. split.
    + intros (Hnone & -> & Hkey). split; [reflexivity|].
      split; [exact Hkey|]. intros name Hname.
      apply list_elem_of_singleton in Hname. subst name. exact Hnone.
    + intros (-> & Hkey & Hnone). split; [| auto].
      apply Hnone. constructor.
  - rewrite resolveLinkLoop_cons. simp candidateNames.
    rewrite popLast_dropLastSegment.
    specialize (IH (String.length (dropLastSegment (String a r)))
                   ltac:(subst n; apply dropLastSegment_shorter)
                   (dropLastSegment (String a r)) eq_refl).
    unfold getAllByName at 1.
    rewrite (objectPrototypeKeys_dotted (String a r) link).
    destruct (allByName !! (String a r +:+ "." +:+ link)) as [h|] eqn:E.
    + split; [discriminate|]. intros (_ & _ & Hnone).
      rewrite Hnone in E by constructor. discriminate E.
    + rewrite IH. split.
      * intros (-> & Hkey & Hnone). split; [reflexivity|].
        split; [exact Hkey|]. intros name Hname.
        apply elem_of_cons in Hname as [-> | Hname]; auto.
      * intros (-> & Hkey & Hnone). split; [reflexivity|].
        split; [exact Hkey|]. intros name Hname. apply Hnone.
        constructor. exact Hname.
Qed.

(** X13. A blank link resolves to nothing.  An entry that the lookup answers
    is the entry of the index under the link, either alone or after a dot
    behind a beginning of the starting name.  The lookup answers a member
    of [Object.prototype], which nobody filed, exactly when the link is the
    name of one and the index holds none of the names tried.  A link that
    is itself a name of the index or of such a member resolves from every
    starting name. *)
Theorem resolveLink_answers (allByName : gmap string Handle)
    (id link : string) :
  (Js.trim link = "" -> resolveLink allByName id link = None)
  /\ (forall h,
        resolveLink allByName id link = Some (Entry h) ->
        exists key,
          allByName !! key = Some h
          /\ (key = Js.trim link
              \/ exists p, String.prefix p (Js.trim id) = true
                           /\ key = p +:+ "." +:+ Js.trim link))
  /\ (forall key,
        resolveLink allByName id link = Some (Inherited key)
        <-> key = Js.trim link /\ key ∈ objectPrototypeKeys
            /\ forall name,
                 name ∈ candidateNames (Js.trim id) (Js.trim link) ->
                 allByName !! name = None)
  /\ (Js.trim link <> "" ->
      is_Some (allByName !! Js.trim link)
      \/ Js.trim link ∈ objectPrototypeKeys ->
      is_Some (resolveLink allByName id link)).
Proof.
  unfold resolveLink. split; [| split; [| split]].
  - intros ->. reflexivity.
  - intros h. destruct (Js.truthy (Js.trim link)); [| discriminate]. simpl.
    rewrite resolveLinkLoop_candidates.
    destruct (candidateNames_form (Js.trim link) (Js.trim id)) as [_ Hform].
    induction (candidateNames (Js.trim id) (Js.trim link)) as [|key l IH];
      [discriminate|].
    cbn [omap list_omap].
    destruct (getAllByName allByName key) as [m|] eqn:Hkey.
    + intros [= ->]. exists key. split; [apply getAllByName_Entry, Hkey|].
      apply Hform. constructor.
    + apply IH. intros key' Hkey'. apply Hform. constructor. exact Hkey'.
  - intros key. destruct (Js.trim link) as [|c l] eqn:E; simpl.
    + split; [discriminate|]. intros (-> & Hkey & _).
      apply includes_elem in Hkey. discriminate Hkey.
    + rewrite resolveLinkLoop_Inherited. split.
      * intros (-> & H). auto.
      * intros (-> & H). auto.
  - intros Hlink Hsome.
    destruct (Js.trim link) as [|c l] eqn:E; [congruence|]. simpl.
    rewrite resolveLinkLoop_candidates.
    destruct (candidateNames_form (String c l) (Js.trim id)) as [Hlast _].
    eapply head_omap_Some; [exact Hlast|].
    unfold getAllByName. destruct Hsome as [[h ->] | Hkey]; [eauto|].
    apply includes_elem in Hkey. rewrite Hkey.
    destruct (allByName !! String c l); eauto.
Qed.

(** ** [declarationWith] *)

(** X14. The declaration behind a node does not itself point to a declaration;
    looking behind it again changes nothing, and a node is returned as it
    is exactly when it points to no declaration. *)
Theorem declarationWith_innermost (n : Node) :
  ownDeclaration (declarationWith n)
  /\ declarationWith (declarationWith n) = declarationWith n
  /\ (declarationWith n = n <-> ownDeclaration n).
Proof.
  split; [apply declarationWith_is_own|]. split.
  - apply declarationWith_own, declarationWith_is_own.
  - split; [| apply declarationWith_own].
    intros H. rewrite <- H. apply declarationWith_is_own.
Qed.

(** ** [_processTagsToFeature] *)

(** The texts of the tags of one name, trimmed, in the order of the tags. *)
Definition tagged (n : string) (tags : list CommentTag) : list string :=
  map (fun t => Js.trim (text t)) (filter (fun t => tag t = n) tags).

Lemma tagged_snoc n tags t :
  tagged n (tags ++ [t])
  = tagged n tags ++ (if decide (tag t = n) then [Js.trim (text t)] else []).
Proof.
  unfold tagged. rewrite filter_app, map_app, filter_cons, filter_nil.
  destruct (decide (tag t = n)); reflexivity.
Qed.

(** What [_processTagsToFeature] answers, field by field. *)
Definition featureOf (tags : list CommentTag) : FeatureInfo :=
  mkFeature
    (default "stable" (last (tagged "chrome-channel" tags)))
    (last (tagged "since" tags))
    (match tagged "deprecated" tags, tagged "chrome-deprecated-since" tags with
     | [], [] => None
     | _, _ =>
         Some (mkDeprecated
                 (default "" (last (tagged "deprecated" tags)))
                 (last (tagged "chrome-deprecated-since" tags)))
     end)
    (match tagged "chrome-permission" tags with [] => None | l => Some l end)
    (match tagged "chrome-manifest" tags with [] => None | l => Some l end)
    (last (tagged "chrome-min-manifest" tags))
    (last (tagged "chrome-max-manifest" tags))
    (match tagged "chrome-platform-apps" tags with
     | [] => None
     | _ => Some true
     end)
    (match tagged "chrome-disallow-service-workers" tags with
     | [] => None
     | _ => Some true
     end).

(** Settles which of the ten tag names the tag at hand has. *)
Ltac feature_tag :=
  unfold featureOf; rewrite !tagged_snoc;
  repeat (case_decide; try congruence);
  rewrite ?app_nil_r, ?last_snoc.

(** X7. The feature information is read off the tags name by name: the channel
    is [stable] unless a [chrome-channel] tag names another, the last one
    winning, as for [since] and the two manifest bounds; permissions and
    manifest keys are collected in the order of their tags and are absent
    without any; the two flags are set by the presence of their tag; the
    deprecation record exists once either of its tags occurs, with the text
    of the last [deprecated] tag, or the empty string, and the last
    [chrome-deprecated-since].  Every text is trimmed, and tags of other
    names change nothing. *)
Theorem processTagsToFeature_fields (tags : list CommentTag) :
  _processTagsToFeature tags = featureOf tags.
Proof.
  induction tags as [|t tags IH] using rev_ind; [reflexivity|].
  unfold _processTagsToFeature in *. rewrite fold_left_app, IH.
  cbn [fold_left]. unfold featureStep. unfold featureOf at 1.
  destruct (String.eqb (tag t) "chrome-platform-apps") eqn:E1.
  { apply String.eqb_eq in E1. feature_tag.
    destruct (tagged "chrome-platform-apps" tags); reflexivity. }
  destruct (String.eqb (tag t) "since") eqn:E2.
  { apply String.eqb_eq in E2. feature_tag. reflexivity. }
  destruct (String.eqb (tag t) "chrome-channel") eqn:E3.
  { apply String.eqb_eq in E3. feature_tag. reflexivity. }
  destruct (String.eqb (tag t) "chrome-permission") eqn:E4.
  { apply String.eqb_eq in E4. feature_tag.
    destruct (tagged "chrome-permission" tags); reflexivity. }
  destruct (String.eqb (tag t) "chrome-manifest") eqn:E5.
  { apply String.eqb_eq in E5. feature_tag.
    destruct (tagged "chrome-manifest" tags); reflexivity. }
  destruct (String.eqb (tag t) "deprecated") eqn:E6.
  { apply String.eqb_eq in E6. feature_tag.
    destruct (tagged "deprecated" tags),
      (tagged "chrome-deprecated-since" tags); reflexivity. }
  destruct (String.eqb (tag t) "chrome-deprecated-since") eqn:E7.
  { apply String.eqb_eq in E7. feature_tag.
    destruct (tagged "deprecated" tags),
      (tagged "chrome-deprecated-since" tags);
      simpl; rewrite ?last_snoc; reflexivity. }
  destruct (String.eqb (tag t) "chrome-min-manifest") eqn:E8.
  { apply String.eqb_eq in E8. feature_tag. reflexivity. }
  destruct (String.eqb (tag t) "chrome-max-manifest") eqn:E9.
  { apply String.eqb_eq in E9. feature_tag. reflexivity. }
  destruct (String.eqb (tag t) "chrome-disallow-service-workers") eqn:E10.
  { apply String.eqb_eq in E10. feature_tag.
    destruct (tagged "chrome-disallow-service-workers" tags); reflexivity. }
  apply String.eqb_neq in E1, E2, E3, E4, E5, E6, E7, E8, E9, E10.
  feature_tag. reflexivity.
Qed.

(** ** [_processTagsForChromeEnum] *)

(** The results of a loop that stops at the first exception. *)
Fixpoint allOk {A} (rs : list (Result A)) : Result (list A) :=
  match rs with
  | [] => Ok []
  | Ok a :: rs' =>
      match allOk rs' with
      | Ok l => Ok (a :: l)
      | Throw e => Throw e
      | OutOfFuel => OutOfFuel
      end
  | Throw e :: _ => Throw e
  | OutOfFuel :: _ => OutOfFuel
  end.

Definition enumTags (tags : list CommentTag) : list CommentTag :=
  filter (fun t => tag t = "chrome-enum") tags.

Lemma chromeEnumPairs_allOk tags :
  forall enums,
    chromeEnumPairs JSON_parse tags enums
    = match allOk (map (chromeEnumPair JSON_parse) (enumTags tags)) with
      | Ok l => Ok (enums ++ l)
      | Throw e => Throw e
      | OutOfFuel => OutOfFuel
      end.
Proof.
  unfold enumTags.
  induction tags as [|t tags IH]; intros enums; simpl.
  - rewrite app_nil_r. reflexivity.
  - rewrite filter_cons.
    destruct (String.eqb (tag t) "chrome-enum") eqn:E; simpl.
    + apply String.eqb_eq in E. rewrite decide_True by exact E. simpl.
      destruct (chromeEnumPair JSON_parse t) as [e | e |]; try reflexivity.
      rewrite IH. destruct (allOk _) as [l | e' |]; try reflexivity.
      rewrite <- app_assoc. reflexivity.
    + apply String.eqb_neq in E. rewrite decide_False by exact E. apply IH.
Qed.

(** X8. The extractor looks at the [chrome-enum] tags only, in their order; it
    throws what the first tag whose token is not JSON throws, and else
    answers the pairs of all of them, or [undefined] when there is none. *)
Theorem processTagsForChromeEnum_pairs (tags : list CommentTag) :
  _processTagsForChromeEnum JSON_parse tags
  = match allOk (map (chromeEnumPair JSON_parse) (enumTags tags)) with
    | Ok [] => Ok None
    | Ok pairs => Ok (Some pairs)
    | Throw e => Throw e
    | OutOfFuel => OutOfFuel
    end.
Proof.
  unfold _processTagsForChromeEnum. rewrite chromeEnumPairs_allOk.
  destruct (allOk _) as [[|p l] | e |]; reflexivity.
Qed.

(** The number of escaped underscores that [unescapeUnderscore] undoes. *)
Fixpoint escapes (s : string) : nat :=
  match s with
  | EmptyString => O
  | String a r =>
      match r with
      | String b r' =>
          if Ascii.eqb a "\" && Ascii.eqb b "_"
          then S (escapes r')
          else escapes r
      | EmptyString => O
      end
  end.

Lemma unescapeUnderscore_cons a b r :
  Js.unescapeUnderscore (String a (String b r))
  = if Ascii.eqb a "\" && Ascii.eqb b "_"
    then String "_" (Js.unescapeUnderscore r)
    else String a (Js.unescapeUnderscore (String b r)).
Proof. reflexivity. Qed.

Lemma escapes_cons a b r :
  escapes (String a (String b r))
  = if Ascii.eqb a "\" && Ascii.eqb b "_"
    then S (escapes r)
    else escapes (String b r).
Proof. reflexivity. Qed.

Lemma unescapeUnderscore_length s :
  (String.length (Js.unescapeUnderscore s) + escapes s = String.length s)%nat.
Proof.
  assert (H : forall s,
             (String.length (Js.unescapeUnderscore s) + escapes s
              = String.length s)%nat
             /\ forall a,
                 (String.length (Js.unescapeUnderscore (String a s))
                  + escapes (String a s)
                  = S (String.length s))%nat).
  { clear s. intros s. induction s as [|b r [IH1 IH2]].
    - split; [reflexivity | intros a; reflexivity].
    - split; [apply IH2|]. intros a.
      rewrite unescapeUnderscore_cons, escapes_cons.
      destruct (Ascii.eqb a "\" && Ascii.eqb b "_").
      + cbn [String.length]. lia.
      + specialize (IH2 b). cbn [String.length] in *. lia. }
  apply H.
Qed.

Lemma unescapeUnderscore_plain s :
  escapes s = O -> Js.unescapeUnderscore s = s.
Proof.
  assert (H : forall s,
             (escapes s = O -> Js.unescapeUnderscore s = s)
             /\ forall a, escapes (String a s) = O ->
                          Js.unescapeUnderscore (String a s) = String a s).
  { clear s. intros s. induction s as [|b r [IH1 IH2]].
    - split; [reflexivity | intros a _; reflexivity].
    - split; [apply IH2|]. intros a.
      rewrite unescapeUnderscore_cons, escapes_cons.
      destruct (Ascii.eqb a "\" && Ascii.eqb b "_"); [discriminate|].
      intros H. f_equal. apply IH2, H. }
  apply H.
Qed.

Lemma splitSpaceHead_app token rest :
  hasChar " " token = false ->
  Js.splitSpaceHead (token +:+ " " +:+ rest) = token.
Proof.
  induction token as [|a r IH]; simpl; [reflexivity|].
  destruct (Ascii.eqb a " "); [discriminate|]. simpl.
  intros H. f_equal. apply IH, H.
Qed.

Lemma substr_app s r : Js.substr (String.length s) (s +:+ r) = r.
Proof. induction s as [|a s IH]; simpl; [destruct r; reflexivity | exact IH]. Qed.

Lemma substr_app_S s a r :
  Js.substr (S (String.length s)) (s +:+ String a r) = r.
Proof. induction s as [|b s IH]; simpl; [destruct r; reflexivity | exact IH]. Qed.

(** X9. A tag whose text is a token without a space, a space, and the rest,
    gives the pair of the token read as JSON, its escaped underscores
    undone, and of the rest, trimmed, as long as the token holds at most one
    escaped underscore; a token that is not JSON makes the extractor
    throw. *)
Theorem chromeEnumPair_one_escape (t : CommentTag) (token rest : string) :
  Js.trim (text t) = token +:+ " " +:+ rest ->
  hasChar " " token = false ->
  (escapes token <= 1)%nat ->
  chromeEnumPair JSON_parse t
  = match JSON_parse (Js.unescapeUnderscore token) with
    | Some value => Ok (mkEnumPair value (Js.trim rest))
    | None => Throw (JsonSyntaxError (Js.unescapeUnderscore token))
    end.
Proof.
  intros Htext Hspace Hesc. unfold chromeEnumPair.
  rewrite Htext, splitSpaceHead_app by exact Hspace.
  destruct (JSON_parse (Js.unescapeUnderscore token)); [| reflexivity].
  do 2 f_equal. change (" " +:+ rest) with (String " " rest).
  pose proof (unescapeUnderscore_length token) as Hlen.
  destruct (escapes token) as [|[|k]] eqn:E; [| | lia].
  - replace (String.length (Js.unescapeUnderscore token) + 1)%nat
      with (S (String.length token)) by lia.
    rewrite substr_app_S. reflexivity.
  - replace (String.length (Js.unescapeUnderscore token) + 1)%nat
      with (String.length token) by lia.
    rewrite substr_app. reflexivity.
Qed.

(** ** The tag promoters *)

Lemma startsWith_app p r : Js.startsWith (p +:+ r) p = true.
Proof.
  unfold Js.startsWith. induction p as [|a p IH]; simpl.
  - destruct r; reflexivity.
  - destruct (ascii_dec a a); [exact IH | congruence].
Qed.

Lemma hasChar_cons c a s :
  hasChar c (String a s) = false -> a <> c /\ hasChar c s = false.
Proof.
  simpl. destruct (Ascii.eqb a c) eqn:E; [discriminate|].
  apply Ascii.eqb_neq in E. auto.
Qed.

(** Two names without a space that are followed by a space begin the same
    text only when they are the same name. *)
Lemma append_cons a s r : String a s +:+ r = String a (s +:+ r).
Proof. reflexivity. Qed.

Lemma append_nil r : "" +:+ r = r.
Proof. reflexivity. Qed.

Lemma prefix_space_name n :
  forall m rest,
    hasChar " " n = false -> hasChar " " m = false ->
    String.prefix (n +:+ " ") (m +:+ " " +:+ rest) = true -> n = m.
Proof.
  induction n as [|a n IH]; intros m rest Hn Hm H.
  - destruct m as [|b m]; [reflexivity|].
    apply hasChar_cons in Hm as [Hb _].
    rewrite append_nil, append_cons in H. cbn [String.prefix] in H.
    destruct (ascii_dec " " b); [congruence | discriminate H].
  - apply hasChar_cons in Hn as [Ha Hn].
    destruct m as [|b m]; rewrite ?append_nil, !append_cons in H;
      cbn [String.prefix] in H.
    + destruct (ascii_dec a " "); [congruence | discriminate H].
    + apply hasChar_cons in Hm as [_ Hm].
      destruct (ascii_dec a b) as [-> |]; [| discriminate H].
      f_equal. eapply IH; eassumption.
Qed.

Lemma concatCommentTags_app tags1 tags2 p :
  concatCommentTags tags2 (concatCommentTags tags1 p)
  = concatCommentTags (tags1 ++ tags2) p.
Proof.
  unfold concatCommentTags, set_tags. destruct p. simpl.
  rewrite <- app_assoc. reflexivity.
Qed.

(** X10. A parameter takes the [chrome-param-] tags addressed to its name, and
    only those: they come, renamed and without the name, after the tags it
    has, a comment being made for it when it has none.  Promoting the tags
    of two lists one after the other is promoting the tags of both. *)
Theorem upgradeParam_tags (param : Node) (promoted : list CommentTag) :
  let prefix := name param +:+ " " in
  let param' := upgradeParamWithParamSinceTags param promoted in
  (exists c, comment param' = Some c
             /\ tags c
                = Some (tagsOf (comment param)
                          ++ flat_map (paramSinceTag prefix) promoted))
  /\ name param' = name param
  /\ (forall t rest,
        text t = prefix +:+ rest ->
        paramSinceTag prefix t
        = if String.eqb (tag t) "chrome-param-since"
          then [mkTag "since" rest]
          else if String.eqb (tag t) "chrome-param-deprecated-since"
          then [mkTag "chrome-deprecated-since" rest]
          else if String.eqb (tag t) "chrome-param-deprecated"
          then [mkTag "deprecated" rest]
          else [])
  /\ (forall t other rest,
        text t = other +:+ " " +:+ rest -> other <> name param ->
        hasChar " " other = false -> hasChar " " (name param) = false ->
        paramSinceTag prefix t = [])
  /\ (forall more,
        upgradeParamWithParamSinceTags param' more
        = upgradeParamWithParamSinceTags param (promoted ++ more)).
Proof.
  intros prefix param'.
  assert (Hname : name param' = name param).
  { unfold param', upgradeParamWithParamSinceTags, concatCommentTags.
    destruct param; reflexivity. }
  split; [| split; [exact Hname | split; [| split]]].
  - unfold param', upgradeParamWithParamSinceTags, concatCommentTags, tagsOf.
    eexists. split; [destruct param; reflexivity|].
    destruct (comment param) as [c|]; reflexivity.
  - intros t rest Ht. unfold paramSinceTag.
    rewrite Ht, startsWith_app, substr_app. reflexivity.
  - intros t other rest Ht Hne Hother Hparam. unfold paramSinceTag.
    destruct (Js.startsWith (text t) prefix) eqn:E; [| reflexivity].
    exfalso. apply Hne. symmetry. unfold Js.startsWith, prefix in E.
    rewrite Ht in E. eapply prefix_space_name; eassumption.
  - intros more. unfold upgradeParamWithParamSinceTags at 1.
    rewrite Hname. unfold param', upgradeParamWithParamSinceTags.
    rewrite concatCommentTags_app, flat_map_app. reflexivity.
Qed.

(** X11. The tags of a signature's comment that concern the return value come,
    renamed, after the tags that the return node has, a comment being made
    for it when it has none; tags of other names are left out, and
    promoting two lists one after the other is promoting both. *)
Theorem upgradeReturn_tags (param : Node) (promoted : list CommentTag) :
  let param' := upgradeReturnWithReturnSinceTags param promoted in
  (exists c, comment param' = Some c
             /\ tags c
                = Some (tagsOf (comment param)
                          ++ flat_map returnSinceTag promoted))
  /\ (forall t,
        returnSinceTag t
        = if String.eqb (tag t) "chrome-returns-since"
          then [mkTag "since" (text t)]
          else if String.eqb (tag t) "chrome-returns-deprecated-since"
          then [mkTag "chrome-deprecated-since" (text t)]
          else if String.eqb (tag t) "chrome-returns-deprecated"
          then [mkTag "deprecated" (text t)]
          else [])
  /\ (forall more,
        upgradeReturnWithReturnSinceTags param' more
        = upgradeReturnWithReturnSinceTags param (promoted ++ more)).
Proof.
  intros param'. split; [| split].
  - unfold param', upgradeReturnWithReturnSinceTags, concatCommentTags, tagsOf.
    eexists. split; [destruct param; reflexivity|].
    destruct (comment param) as [c|]; reflexivity.
  - reflexivity.
  - intros more. unfold param', upgradeReturnWithReturnSinceTags.
    rewrite concatCommentTags_app, flat_map_app. reflexivity.
Qed.

(** ** Page roots that share a key or a name *)










(** ** The page id of a walked node *)

Definition isChromeEvent (t : option SomeType) : bool :=
  match t with
  | Some (TyReference _ rname _) => includes chromeEventRefTypes rname
  | _ => false
  end.

(** The first part of the page id: a node with signatures is a method, else
    a reference to a Chrome event type is an event, else the kind decides
    between property and type. *)
Definition pagePrefix (node : Node) : string :=
  match signatures (declarationWith node) with
  | Some (_ :: _) => "method"
  | _ => if isChromeEvent (type node) then "event" else initialPrefix node
  end.

Lemma upgradeEventNode_fields node node' cs :
  upgradeEventNode node = Ok (node', cs) ->
  type node' = type node /\ signatures node' = signatures node
  /\ children node' = children node /\ sameIdentity node node'.
Proof.
  intros H. split; [| split; [| split]];
    [| | | eapply upgradeEventNode_identity; exact H].
  all: revert H; unfold upgradeEventNode;
    destruct (typeArgumentsOf (type node) ≫= head) as [first|];
    [| discriminate]; case_bool_decide; [intros [= <- <-]; reflexivity|];
    destruct first; try (intros [= <- <-]; reflexivity);
    destruct (negb _); [discriminate|];
    destruct (_ !! 1%nat); [| discriminate];
    destruct (_ !! 2%nat); [| discriminate];
    intros [= <- <-]; reflexivity.
Qed.

(** The event node after its parameters have been walked is the same
    reference, to the same id and name. *)
Lemma eventNodeAfterWalk_reference node walked rid rname targs :
  type node = Some (TyReference rid rname targs) ->
  (exists targs',
     type (eventNodeAfterWalk node walked)
     = Some (TyReference rid rname targs'))
  /\ signatures (eventNodeAfterWalk node walked) = signatures node
  /\ children (eventNodeAfterWalk node walked) = children node.
Proof.
  intros Hty. unfold eventNodeAfterWalk. rewrite Hty.
  assert (Hsame : (exists targs',
                     type node = Some (TyReference rid rname targs'))
                  /\ signatures node = signatures node
                  /\ children node = children node) by eauto.
  destruct targs as [[|first rest]|]; try exact Hsame.
  destruct (_event node) as [[|conditions actions]|]; try exact Hsame.
  - node_simpl. split; [eexists; reflexivity | split; reflexivity].
  - destruct rest as [|a1 [|a2 rest']]; try exact Hsame.
    node_simpl. split; [eexists; reflexivity | split; reflexivity].
Qed.

Lemma declarationWith_reference n rid rname targs :
  type n = Some (TyReference rid rname targs) -> declarationWith n = n.
Proof. intros H. rewrite declarationWith_unfold, H. reflexivity. Qed.

Lemma walkReference_prefix walk self node namespace nodePrefix st r st' :
  walkReference walk self node namespace nodePrefix st = Ok (r, st') ->
  snd r = (if isChromeEvent (type node) then "event" else nodePrefix)
  /\ signatures (declarationWith (fst r)) = signatures (declarationWith node).
Proof.
  unfold walkReference, isChromeEvent.
  destruct (type node) as [[rid rname targs| | | | | | |]|] eqn:E;
    try (intros H; inv_M; split; reflexivity).
  destruct (includes chromeEventRefTypes rname); intros H.
  - apply bind_Ok in H as ([n1 cs] & st1 & Hup & H).
    apply lift_Ok in Hup as [Hup ->].
    apply bind_Ok in H as (walked & st2 & Hcs & H).
    apply ret_Ok in H as [-> ->]. simpl. split; [reflexivity|].
    apply upgradeEventNode_fields in Hup as (Hty & Hs & _).
    rewrite E in Hty.
    destruct (eventNodeAfterWalk_reference n1 walked _ _ _ Hty)
      as ((targs' & Hty') & Hs' & _).
    rewrite (declarationWith_reference _ _ _ _ Hty'),
      (declarationWith_reference _ _ _ _ E). congruence.
  - unfold pushPendingReference in H. inv_M. split; reflexivity.
Qed.

Lemma walkChildren_signatures walk node namespace st node' st' :
  walkChildren walk node namespace st = Ok (node', st') ->
  signatures (declarationWith node') = signatures (declarationWith node).
Proof.
  unfold walkChildren.
  destruct (children (declarationWith node)) as [[|c cs]|];
    try (intros H; inv_M; reflexivity).
  assert (Hupd : signatures (declarationWith
                   (updateDeclaration (set_children (Some [])) node))
                 = signatures (declarationWith node)).
  { rewrite declarationWith_update by reflexivity. reflexivity. }
  destruct (filter _ (c :: cs)); intros H; inv_M; [exact Hupd|].
  rewrite <- Hupd.
  apply (declarationWith_outer signatures (set__type _)); reflexivity.
Qed.

Lemma walkSignatures_prefix walk node namespace nodePrefix st r st' :
  walkSignatures walk node namespace nodePrefix st = Ok (r, st') ->
  snd r = match signatures (declarationWith node) with
          | Some (_ :: _) => "method"
          | _ => nodePrefix
          end.
Proof.
  unfold walkSignatures.
  destruct (signatures (declarationWith node)) as [[|s0 ss]|];
    try (intros H; inv_M; reflexivity).
  destruct (returnType _); intros H; inv_M; reflexivity.
Qed.

(** The page id that a walk gives a node with a parent. *)
Lemma walk_pageId_parent (fuel : nat) (self : Handle) (node parent namespace : Node)
    (st : State) (node' : Node) (st' : State) :
  walk JSON_parse fuel self node (Some parent) namespace st
  = Ok (node', st') ->
  exists namespaceName,
    _name namespace = Some namespaceName
    /\ _pageId node'
       = Some (pagePrefix node +:+ "-"
               +:+ Js.replaceChar "." "-"
                     (Js.substr (String.length namespaceName + 1)
                        (Js.str (_name parent) +:+ "." +:+ name node))).
Proof.
  destruct fuel as [|fuel]; [discriminate|]. simpl. intros H.
  pose proof (walk_OK fuel) as Hok.
  unfold walk_body in H.
  apply bind_Ok in H as (n1 & st1 & Hplace & H).
  apply bind_Ok in H as ([] & st2 & Hindex & H).
  apply bind_Ok in H as ([n3 p3] & st3 & Href & H).
  apply bind_Ok in H as (n4 & st4 & Hchildren & H).
  apply bind_Ok in H as ([n5 p5] & st5 & Hsigs & H).
  apply bind_Ok in H as (n6 & st6 & Hemb & H).
  apply bind_Ok in H as (n7 & st7 & Htags & H).
  apply bind_Ok in H as (n8 & st8 & Hpage & H).
  apply bind_Ok in H as ([] & st9 & Hstore & H).
  apply ret_Ok in H as [-> ->].
  pose proof (walkPlace_parts _ _ _ _ _ _ _ Hplace) as [Hty1 _].
  assert (Hs1 : signatures (declarationWith n1)
                = signatures (declarationWith node)).
  { unfold walkPlace in Hplace. inv_M.
    apply (declarationWith_outer signatures
             (fun n => set__pageHref _ (set__name _ n))); reflexivity. }
  apply walkPlace_spec in Hplace as (_ & _ & _ & _ & _ & Hname1).
  pose proof (walkReference_prefix _ _ _ _ _ _ _ _ Href) as [Hp3 Hs3].
  apply (walkReference_Walked _ _ _ _ _ _ _ _ _ Hok) in Href as [_ I3].
  pose proof (walkChildren_signatures _ _ _ _ _ _ Hchildren) as Hs4.
  apply (walkChildren_Walked _ _ _ _ _ _ Hok) in Hchildren as [_ I4].
  pose proof (walkSignatures_prefix _ _ _ _ _ _ _ Hsigs) as Hp5.
  apply (walkSignatures_Walked _ _ _ _ _ _ _ _ Hok) in Hsigs as [_ I5].
  apply (walkEmbeddedTypes_Walked _ _ _ _ _ _ Hok) in Hemb as [_ I6].
  apply walkTags_Ok in Htags as [_ I7].
  simpl in Hp3, Hs3, Hp5.
  assert (Hname7 : _name n7
                   = Some (Js.str (_name parent) +:+ "." +:+ name node)).
  { destruct I3 as (_ & N3 & _), I4 as (_ & N4 & _), I5 as (_ & N5 & _),
      I6 as (_ & N6 & _), I7 as (_ & N7 & _). congruence. }
  unfold walkPageId in Hpage. rewrite Hname7 in Hpage.
  destruct (_name namespace) as [namespaceName|]; [| discriminate].
  apply ret_Ok in Hpage as [-> _].
  exists namespaceName. split; [reflexivity|]. node_simpl.
  do 2 f_equal. unfold pagePrefix.
  rewrite Hp5, Hs4, Hs3, Hs1, Hp3, Hty1. reflexivity.
Qed.

(** X5. A node walked below a parent gets its page id last: the prefix of its
    kind, a dash, and its qualified name after the name of the page root
    and one more character, with dashes for the dots. *)
Theorem walk_pageId (fuel : nat) (self : Handle) (node parent namespace : Node)
    (st : State) (node' : Node) (st' : State) :
  walk JSON_parse fuel self node (Some parent) namespace st
  = Ok (node', st') ->
  exists namespaceName,
    _name namespace = Some namespaceName
    /\ _pageId node'
       = Some (pagePrefix node +:+ "-"
               +:+ Js.replaceChar "." "-"
                     (Js.substr (String.length namespaceName + 1)
                        (Js.str (_name parent) +:+ "." +:+ name node))).
Proof. apply walk_pageId_parent. Qed.

(** ** What the walks can throw *)
















(** ** The references that wait for their target *)

(** The id and name that the type of a node refers to. *)
Definition refersTo (n : Node) : option (option Z * string) :=
  match type n with
  | Some (TyReference rid rname _) => Some (rid, rname)
  | _ => None
  end.

Definition keepsReference (n n' : Node) : Prop :=
  is_Some (refersTo n) -> refersTo n' = refersTo n.

Lemma keepsReference_refl n : keepsReference n n.
Proof. intros _. reflexivity. Qed.

Lemma keepsReference_trans n1 n2 n3 :
  keepsReference n1 n2 -> keepsReference n2 n3 -> keepsReference n1 n3.
Proof.
  intros H12 H23 H1. rewrite H23; [apply H12, H1|].
  rewrite (H12 H1). exact H1.
Qed.

Lemma keepsReference_type n n' : type n' = type n -> keepsReference n n'.
Proof. intros H _. unfold refersTo. rewrite H. reflexivity. Qed.

Lemma refersTo_Some n :
  is_Some (refersTo n) ->
  exists rid rname targs, type n = Some (TyReference rid rname targs).
Proof.
  unfold refersTo. intros [x H].
  destruct (type n) as [[rid rname targs| | | | | | |]|]; try discriminate.
  eauto.
Qed.

(** An assignment through [effectiveDeclarationNode] on a node whose type
    is a reference is an assignment on the node. *)
Lemma updateDeclaration_reference f n :
  is_Some (refersTo n) -> updateDeclaration f n = f n.
Proof.
  intros H. apply refersTo_Some in H as (rid & rname & targs & H).
  rewrite updateDeclaration_unfold, H. reflexivity.
Qed.

Lemma walkReference_keeps walk self node namespace nodePrefix st r st' :
  walkReference walk self node namespace nodePrefix st = Ok (r, st') ->
  keepsReference node (fst r).
Proof.
  unfold walkReference.
  destruct (type node) as [[rid rname targs| | | | | | |]|] eqn:E;
    try (intros H; inv_M; apply keepsReference_refl).
  destruct (includes chromeEventRefTypes rname); intros H.
  - apply bind_Ok in H as ([n1 cs] & st1 & Hup & H).
    apply lift_Ok in Hup as [Hup ->].
    apply bind_Ok in H as (walked & st2 & Hcs & H).
    apply ret_Ok in H as [-> ->]. simpl.
    apply upgradeEventNode_fields in Hup as (Hty & _).
    rewrite E in Hty.
    destruct (eventNodeAfterWalk_reference n1 walked _ _ _ Hty)
      as ((targs' & Hty') & _).
    intros _. unfold refersTo. rewrite Hty', E. reflexivity.
  - unfold pushPendingReference in H. inv_M. apply keepsReference_refl.
Qed.

Lemma walkChildren_keeps walk node namespace st node' st' :
  walkChildren walk node namespace st = Ok (node', st') ->
  keepsReference node node'.
Proof.
  unfold walkChildren.
  destruct (children (declarationWith node)) as [[|c cs]|];
    try (intros H; inv_M; apply keepsReference_refl).
  destruct (filter _ (c :: cs)); intros H; inv_M; intros Href;
    rewrite (updateDeclaration_reference _ _ Href); reflexivity.
Qed.

Lemma walkSignatures_keeps walk node namespace nodePrefix st r st' :
  walkSignatures walk node namespace nodePrefix st = Ok (r, st') ->
  keepsReference node (fst r).
Proof.
  unfold walkSignatures.
  destruct (signatures (declarationWith node)) as [[|s0 ss]|];
    try (intros H; inv_M; apply keepsReference_refl).
  destruct (returnType _); intros H; inv_M; intros Href; simpl;
    unfold refersTo; node_simpl;
    rewrite (updateDeclaration_reference _ _ Href); reflexivity.
Qed.

Lemma walkEmbeddedTypes_keeps walk node namespace st node' st' :
  walkEmbeddedTypes walk node namespace st = Ok (node', st') ->
  keepsReference node node'.
Proof.
  unfold walkEmbeddedTypes.
  destruct (_event node); [intros H; inv_M; apply keepsReference_refl|].
  intros H. apply bind_Ok in H as (walked & st1 & _ & H). intros Href.
  rewrite (updateDeclaration_reference _ _ Href) in H.
  pose proof (refersTo_Some _ Href) as (rid & rname & targs & Hty).
  rewrite (declarationWith_reference _ _ _ _ Hty), Hty in H.
  unfold refersTo. rewrite Hty.
  destruct (if hoistsProperties _ then _ else _); inv_M; node_simpl;
    destruct targs; reflexivity.
Qed.

Lemma walkTags_keeps node st node' st' :
  walkTags JSON_parse node st = Ok (node', st') -> keepsReference node node'.
Proof.
  unfold walkTags. intros H. inv_M.
  destruct a; inv_M; apply keepsReference_type; reflexivity.
Qed.

Lemma walkPageId_keeps node parent namespace nodePrefix st node' st' :
  walkPageId node parent namespace nodePrefix st = Ok (node', st') ->
  keepsReference node node'.
Proof.
  unfold walkPageId. intros H.
  destruct parent; inv_M; [| apply keepsReference_refl].
  destruct (_name node), (_name namespace); inv_M.
  apply keepsReference_type. reflexivity.
Qed.

(** The references pushed between [st] and [st']: objects at places that
    satisfy [ok], whose type is a reference in [st']. *)
Definition Pushed (ok : Handle -> Prop) (st st' : State) : Prop :=
  exists pushed,
    pendingReferences st' = pendingReferences st ++ pushed
    /\ forall h, h ∈ pushed ->
                 ok h /\ exists n, heap st' !! h = Some n
                                   /\ is_Some (refersTo n).

Lemma Pushed_same ok st st' :
  pendingReferences st' = pendingReferences st -> Pushed ok st st'.
Proof.
  intros H. exists []. rewrite H, app_nil_r. split; [reflexivity|].
  intros h Hh. inversion Hh.
Qed.

Lemma Pushed_weaken (ok ok' : Handle -> Prop) st st' :
  (forall h, ok h -> ok' h) -> Pushed ok st st' -> Pushed ok' st st'.
Proof.
  intros Hok (pushed & Hp & Hall). exists pushed. split; [exact Hp|].
  intros h Hh. destruct (Hall h Hh) as [H1 H2]. auto.
Qed.

Lemma Pushed_trans (ok1 ok2 ok : Handle -> Prop) st1 st2 st3 :
  Pushed ok1 st1 st2 -> Pushed ok2 st2 st3 ->
  (forall h, ok1 h -> ok h) -> (forall h, ok2 h -> ok h) ->
  (forall h n, ok1 h -> heap st2 !! h = Some n -> is_Some (refersTo n) ->
               exists n', heap st3 !! h = Some n' /\ is_Some (refersTo n')) ->
  Pushed ok st1 st3.
Proof.
  intros (p1 & H1 & A1) (p2 & H2 & A2) Hok1 Hok2 Hkeep.
  exists (p1 ++ p2). split.
  - rewrite H2, H1, app_assoc. reflexivity.
  - intros h Hh. apply elem_of_app in Hh as [Hh | Hh].
    + destruct (A1 h Hh) as (Hok & n & Hn & Href). split; [auto|].
      eapply Hkeep; eassumption.
    + destruct (A2 h Hh) as [Hok Hn]. auto.
Qed.

(** A step that leaves the objects known before keeps what was pushed. *)
Lemma Pushed_frame (ok : Handle -> Prop) st1 st2 st3 :
  Pushed ok st1 st2 -> Pushed ok st2 st3 ->
  (forall h, (h < length (heap st2))%nat -> heap st3 !! h = heap st2 !! h) ->
  Pushed ok st1 st3.
Proof.
  intros P1 P2 Hframe.
  eapply Pushed_trans; [exact P1 | exact P2 | auto | auto |].
  intros h n _ Hn Href. exists n. split; [| exact Href].
  rewrite Hframe; [exact Hn | eapply lookup_lt_Some, Hn].
Qed.

Definition WalkPushes (walk : Walk) : Prop :=
  forall self node parent namespace st node' st',
    walk self node parent namespace st = Ok (node', st') ->
    heap st !! self = Some node ->
    Pushed (fun h => h = self \/ (length (heap st) <= h)%nat) st st'.

Lemma walkChild_Pushed walk parent namespace c st node' st' :
  WalkPushes walk ->
  walkChild walk parent namespace c st = Ok (node', st') ->
  Pushed (fun h => (length (heap st) <= h)%nat) st st'.
Proof.
  intros Hwalk H. unfold walkChild in H.
  apply bind_Ok in H as (h & st1 & Halloc & H).
  apply alloc_Ok in Halloc as (-> & Hheap & _ & _ & _ & Hpending).
  assert (Hself : heap st1 !! length (heap st) = Some c).
  { rewrite Hheap. apply list_lookup_middle. reflexivity. }
  destruct (Hwalk _ _ _ _ _ _ _ H Hself) as (pushed & Hp & Hall).
  exists pushed. split; [congruence|].
  intros h Hh. destruct (Hall h Hh) as [Hok Hn]. split; [| exact Hn].
  rewrite Hheap, length_app in Hok. simpl in Hok. lia.
Qed.

Lemma forEach_Pushed {A B} namespace (body : A -> M B) (xs : list A) :
  (forall x st y st', x ∈ xs -> body x st = Ok (y, st') ->
                      Walked namespace st st'
                      /\ Pushed (fun h => (length (heap st) <= h)%nat) st st') ->
  forall st ys st',
    forEach body xs st = Ok (ys, st') ->
    Pushed (fun h => (length (heap st) <= h)%nat) st st'.
Proof.
  induction xs as [|x xs IH]; intros Hbody st ys st' H; simpl in H.
  - inv_M. apply Pushed_same. reflexivity.
  - apply bind_Ok in H as (y & st1 & Hx & H).
    apply bind_Ok in H as (ys' & st2 & Hxs & H).
    apply ret_Ok in H as [-> ->].
    destruct (Hbody x st y st1 (list_elem_of_here _ _) Hx) as [W1 P1].
    assert (Hrest : forall x' s y' s', x' ∈ xs -> body x' s = Ok (y', s') ->
              Walked namespace s s'
              /\ Pushed (fun h => (length (heap s) <= h)%nat) s s').
    { intros x' s y' s' Hx'. apply Hbody. constructor. exact Hx'. }
    pose proof (forEach_Walked namespace body xs
                  (fun x' s y' s' Hx' Hb => proj1 (Hrest x' s y' s' Hx' Hb))
                  _ _ _ Hxs) as W2.
    eapply Pushed_frame; [exact P1 | | apply (walked_frame _ _ _ W2)].
    eapply Pushed_weaken; [| eapply IH; [exact Hrest | exact Hxs]].
    intros h Hh. pose proof (walked_heap _ _ _ W1). simpl in Hh. lia.
Qed.

Lemma forEach_walkChild_Pushed walk parent namespace cs st walked st' :
  WalkOK walk -> WalkPushes walk ->
  forEach (walkChild walk parent namespace) cs st = Ok (walked, st') ->
  Pushed (fun h => (length (heap st) <= h)%nat) st st'.
Proof.
  intros Hok Hwalk. apply (forEach_Pushed namespace).
  intros c s y s' _ Hc. split.
  - eapply walkChild_Walked; eassumption.
  - eapply walkChild_Pushed; eassumption.
Qed.

Lemma walkReference_Pushed walk self node namespace nodePrefix st r st' :
  WalkOK walk -> WalkPushes walk ->
  walkReference walk self node namespace nodePrefix st = Ok (r, st') ->
  heap st !! self = Some node ->
  Pushed (fun h => h = self \/ (length (heap st) <= h)%nat) st st'.
Proof.
  intros Hok Hwalk H Hself. unfold walkReference in H.
  destruct (type node) as [[rid rname targs| | | | | | |]|] eqn:E;
    try (inv_M; apply Pushed_same; reflexivity).
  destruct (includes chromeEventRefTypes rname).
  - apply bind_Ok in H as ([n1 cs] & st1 & Hup & H).
    apply lift_Ok in Hup as [Hup ->].
    apply bind_Ok in H as (walked & st2 & Hcs & H).
    apply ret_Ok in H as [_ ->].
    eapply Pushed_weaken;
      [| eapply forEach_walkChild_Pushed; eassumption].
    intros h Hh. right. exact Hh.
  - unfold pushPendingReference in H. inv_M. exists [self].
    split; [reflexivity|]. intros h Hh.
    apply list_elem_of_singleton in Hh. subst h. split; [left; reflexivity|].
    exists node. split; [exact Hself|]. unfold refersTo. rewrite E. eauto.
Qed.

Lemma walkChildren_Pushed walk node namespace st node' st' :
  WalkOK walk -> WalkPushes walk ->
  walkChildren walk node namespace st = Ok (node', st') ->
  Pushed (fun h => (length (heap st) <= h)%nat) st st'.
Proof.
  intros Hok Hwalk. unfold walkChildren.
  destruct (children (declarationWith node)) as [[|c cs]|];
    try (intros H; inv_M; apply Pushed_same; reflexivity).
  destruct (filter _ (c :: cs)); intros H; inv_M.
  - apply Pushed_same. reflexivity.
  - eapply forEach_walkChild_Pushed; eassumption.
Qed.

Lemma walkSignatures_Pushed walk node namespace nodePrefix st r st' :
  WalkOK walk -> WalkPushes walk ->
  walkSignatures walk node namespace nodePrefix st = Ok (r, st') ->
  Pushed (fun h => (length (heap st) <= h)%nat) st st'.
Proof.
  intros Hok Hwalk. unfold walkSignatures.
  destruct (signatures (declarationWith node)) as [[|s0 ss]|];
    try (intros H; inv_M; apply Pushed_same; reflexivity).
  destruct (returnType _) as [t|]; intros H.
  - apply bind_Ok in H as (walked & st1 & Hps & H).
    apply bind_Ok in H as (walkedReturn & st2 & Hret & H).
    apply ret_Ok in H as [_ ->].
    pose proof (forEach_walkChild_Walked _ _ _ _ _ _ _ Hok Hps) as W1.
    pose proof (walkChild_Walked _ _ _ _ _ _ _ Hok Hret) as W2.
    eapply Pushed_frame;
      [eapply forEach_walkChild_Pushed; eassumption
      | | apply (walked_frame _ _ _ W2)].
    eapply Pushed_weaken; [| eapply walkChild_Pushed; eassumption].
    intros h Hh. pose proof (walked_heap _ _ _ W1). simpl in Hh. lia.
  - apply bind_Ok in H as (walked & st1 & Hps & H).
    apply ret_Ok in H as [_ ->].
    eapply forEach_walkChild_Pushed; eassumption.
Qed.

Lemma walkEmbeddedTypes_Pushed walk node namespace st node' st' :
  WalkOK walk -> WalkPushes walk ->
  walkEmbeddedTypes walk node namespace st = Ok (node', st') ->
  Pushed (fun h => (length (heap st) <= h)%nat) st st'.
Proof.
  intros Hok Hwalk. unfold walkEmbeddedTypes.
  destruct (_event node); [intros H; inv_M; apply Pushed_same; reflexivity|].
  intros H. apply bind_Ok in H as (walked & st1 & Hts & H).
  assert (st' = st1) as ->.
  { destruct (if hoistsProperties _ then _ else _); inv_M; reflexivity. }
  eapply (forEach_Pushed namespace); [| exact Hts].
  intros t s y s' _ Hc. cbv beta in Hc. split.
  - eapply walkChild_Walked; eassumption.
  - eapply walkChild_Pushed; eassumption.
Qed.

Lemma walk_body_pushes walk :
  WalkOK walk -> WalkPushes walk -> WalkPushes (walk_body JSON_parse walk).
Proof.
  intros Hok Hwalk self node parent namespace st node' st' H Hself.
  unfold walk_body in H.
  apply bind_Ok in H as (n1 & st1 & Hplace & H).
  apply bind_Ok in H as ([] & st2 & Hindex & H).
  apply bind_Ok in H as ([n3 p3] & st3 & Href & H).
  apply bind_Ok in H as (n4 & st4 & Hchildren & H).
  apply bind_Ok in H as ([n5 p5] & st5 & Hsigs & H).
  apply bind_Ok in H as (n6 & st6 & Hemb & H).
  apply bind_Ok in H as (n7 & st7 & Htags & H).
  apply bind_Ok in H as (n8 & st8 & Hpage & H).
  apply bind_Ok in H as ([] & st9 & Hstore & H).
  apply ret_Ok in H as [-> ->].
  pose proof (walkPlace_parts _ _ _ _ _ _ _ Hplace) as [Hty1 _].
  assert (Hst2 : heap st2 = heap st
                 /\ pendingReferences st2 = pendingReferences st).
  { unfold walkPlace, walkIndex, setAllByName, setIndexForReferences in *.
    destruct parent; destruct (0 <? id n1); inv_M; split; reflexivity. }
  destruct Hst2 as [Hh2 Hp2].
  pose proof (walkReference_keeps _ _ _ _ _ _ _ _ Href) as K3.
  pose proof (walkChildren_keeps _ _ _ _ _ _ Hchildren) as K4.
  pose proof (walkSignatures_keeps _ _ _ _ _ _ _ Hsigs) as K5.
  pose proof (walkEmbeddedTypes_keeps _ _ _ _ _ _ Hemb) as K6.
  pose proof (walkTags_keeps _ _ _ _ Htags) as K7.
  pose proof (walkPageId_keeps _ _ _ _ _ _ _ Hpage) as K8.
  simpl in K3, K5.
  assert (K : keepsReference node n8).
  { eapply keepsReference_trans; [apply keepsReference_type, Hty1|].
    repeat (eapply keepsReference_trans; [eassumption|]).
    apply keepsReference_refl. }
  pose proof (walkChildren_Pushed _ _ _ _ _ _ Hok Hwalk Hchildren) as P4.
  pose proof (walkSignatures_Pushed _ _ _ _ _ _ _ Hok Hwalk Hsigs) as P5.
  pose proof (walkEmbeddedTypes_Pushed _ _ _ _ _ _ Hok Hwalk Hemb) as P6.
  assert (P3 : Pushed (fun h => h = self \/ (length (heap st) <= h)%nat)
                      st2 st3).
  { unfold walkReference in Href.
    destruct (type n1) as [[rid rname targs| | | | | | |]|] eqn:E;
      try (inv_M; apply Pushed_same; reflexivity).
    destruct (includes chromeEventRefTypes rname).
    - apply bind_Ok in Href as ([n1' cs] & st1' & Hup & Href).
      apply lift_Ok in Hup as [Hup ->].
      apply bind_Ok in Href as (walked & st2' & Hcs & Href).
      apply ret_Ok in Href as [_ ->].
      eapply Pushed_weaken;
        [| eapply forEach_walkChild_Pushed; eassumption].
      intros h Hh. right. rewrite <- Hh2. exact Hh.
    - unfold pushPendingReference in Href. inv_M. exists [self].
      split; [reflexivity|]. intros h Hh.
      apply list_elem_of_singleton in Hh. subst h.
      split; [left; reflexivity|]. simpl.
      exists node. split; [rewrite Hh2; exact Hself|].
      unfold refersTo. rewrite <- Hty1. eauto. }
  apply (walkReference_Walked _ _ _ _ _ _ _ _ _ Hok) in Href as [W3 _].
  apply (walkChildren_Walked _ _ _ _ _ _ Hok) in Hchildren as [W4 _].
  apply (walkSignatures_Walked _ _ _ _ _ _ _ _ Hok) in Hsigs as [W5 _].
  apply (walkEmbeddedTypes_Walked _ _ _ _ _ _ Hok) in Hemb as [W6 _].
  apply walkTags_Ok in Htags as [-> _].
  apply walkPageId_Ok in Hpage as [-> _].
  unfold store in Hstore. injection Hstore as <-.
  assert (Hweak : forall s, (length (heap st2) <= length (heap s))%nat ->
            forall h, (length (heap s) <= h)%nat ->
                      h = self \/ (length (heap st) <= h)%nat).
  { intros s Hs h Hh. right. rewrite <- Hh2. lia. }
  pose proof (walked_heap _ _ _ W3) as L3.
  pose proof (walked_heap _ _ _ W4) as L4.
  pose proof (walked_heap _ _ _ W5) as L5.
  assert (P : Pushed (fun h => h = self \/ (length (heap st) <= h)%nat)
                     st2 st6).
  { eapply Pushed_frame; [| | apply (walked_frame _ _ _ W6)].
    - eapply Pushed_frame; [| | apply (walked_frame _ _ _ W5)].
      + eapply Pushed_frame; [exact P3 | | apply (walked_frame _ _ _ W4)].
        eapply Pushed_weaken; [apply (Hweak st3); lia | exact P4].
      + eapply Pushed_weaken; [apply (Hweak st4); lia | exact P5].
    - eapply Pushed_weaken; [apply (Hweak st5); lia | exact P6]. }
  destruct P as (pushed & Hp & Hall).
  assert (Hlt : (self < length (heap st))%nat)
    by (eapply lookup_lt_Some; eassumption).
  assert (Hlen2 : length (heap st2) = length (heap st)) by congruence.
  assert (Hself6 : heap st6 !! self = Some node).
  { rewrite (walked_frame _ _ _ W6) by lia.
    rewrite (walked_frame _ _ _ W5) by lia.
    rewrite (walked_frame _ _ _ W4) by lia.
    rewrite (walked_frame _ _ _ W3) by lia.
    rewrite Hh2. exact Hself. }
  exists pushed. split.
  - rewrite <- Hp2, <- Hp. reflexivity.
  - intros h Hh. destruct (Hall h Hh) as (Hok' & n & Hn & Href').
    split; [exact Hok'|]. cbn [heap].
    destruct (decide (h = self)) as [-> | Hne].
    + exists n8. split.
      * apply list_lookup_insert_eq.
        pose proof (walked_heap _ _ _ W6). lia.
      * rewrite Hself6 in Hn. injection Hn as <-.
        rewrite (K Href'). exact Href'.
    + exists n. split; [| exact Href'].
      rewrite list_lookup_insert_ne by congruence. exact Hn.
Qed.

Lemma walk_pushes fuel : WalkPushes (walk JSON_parse fuel).
Proof.
  induction fuel as [|fuel IH].
  - intros self node parent namespace st node' st' H. discriminate H.
  - apply walk_body_pushes; [apply walk_OK | exact IH].
Qed.

(** The walks of some page roots leave the others as they are. *)
Lemma forEach_walkRoot_frame fuel hs :
  forall st ys st' h,
    forEach (walkRoot fuel) hs st = Ok (ys, st') ->
    h ∉ hs -> (h < length (heap st))%nat ->
    heap st' !! h = heap st !! h.
Proof.
  induction hs as [|r hs IH]; intros st ys st' h H Hh Hlt; simpl in H.
  - inv_M. reflexivity.
  - apply bind_Ok in H as (y & st1 & Hwalk & H).
    apply bind_Ok in H as (ys' & st2 & Hrest & H).
    apply ret_Ok in H as [-> ->].
    apply not_elem_of_cons in Hh as [Hne Hh].
    unfold walkRoot in Hwalk.
    apply bind_Ok in Hwalk as (o & st0 & Ho & Hwalk).
    injection Ho as <- <-.
    destruct (heap st !! r) as [namespace|] eqn:Hself; [| discriminate].
    pose proof (walk_OK fuel _ _ _ _ _ _ _ Hwalk Hself) as W.
    rewrite (IH _ _ _ h Hrest Hh).
    + apply (wn_frame _ _ _ _ _ _ _ W); assumption.
    + pose proof (wn_heap _ _ _ _ _ _ _ W). lia.
Qed.

Lemma forEach_walkRoot_Pushed L fuel hs :
  NoDup hs ->
  forall st ys st',
    (L <= length (heap st))%nat -> Forall (fun h => (h < L)%nat) hs ->
    forEach (walkRoot fuel) hs st = Ok (ys, st') ->
    Pushed (fun h => h ∈ hs \/ (L <= h)%nat) st st'.
Proof.
  induction 1 as [|r hs Hr Hnd IH]; intros st ys st' HL Hhs H.
  - simpl in H. inv_M. apply Pushed_same. reflexivity.
  - simpl in H.
    apply bind_Ok in H as (y & st1 & Hwalk & H).
    apply bind_Ok in H as (ys' & st2 & Hrest & H).
    apply ret_Ok in H as [-> ->].
    inversion Hhs as [|? ? Hlt Hhs']; subst.
    unfold walkRoot in Hwalk.
    apply bind_Ok in Hwalk as (o & st0 & Ho & Hwalk).
    injection Ho as <- <-.
    destruct (heap st !! r) as [namespace|] eqn:Hself; [| discriminate].
    pose proof (walk_OK fuel _ _ _ _ _ _ _ Hwalk Hself) as W.
    pose proof (wn_heap _ _ _ _ _ _ _ W) as Hgrow.
    pose proof (walk_pushes fuel _ _ _ _ _ _ _ Hwalk Hself) as P1.
    assert (HL1 : (L <= length (heap st1))%nat) by lia.
    pose proof (forEach_walkRoot L fuel hs st1 ys' st2 HL1 Hhs' Hrest) as HR.
    eapply Pushed_trans; [exact P1 | exact (IH st1 ys' st2 HL1 Hhs' Hrest)
                          | | |].
    + intros h [-> | Hh]; [left; constructor | right; lia].
    + intros h [Hh | Hh]; [left; constructor; exact Hh | right; exact Hh].
    + intros h n Hok Hn Href. exists n. split; [| exact Href].
      pose proof (lookup_lt_Some _ _ _ Hn) as Hh1.
      destruct Hok as [-> | Hh].
      * rewrite (forEach_walkRoot_frame _ _ _ _ _ r Hrest Hr); [exact Hn | lia].
      * rewrite (rw_frame _ _ _ _ HR h); [exact Hn | lia | exact Hh1].
Qed.

(** After the walks every pending reference is a visited object whose
    type is still a reference. *)
Lemma pending_references (project : ProjectReflection) (fuel : nat)
    (st : State) :
  walkRoots JSON_parse fuel project = Ok st ->
  forall h,
    h ∈ pendingReferences st ->
    visited project st h
    /\ exists node, heap st !! h = Some node /\ is_Some (refersTo node).
Proof.
  intros Hrun.
  pose proof (walkRoots_RootsWalked _ _ _ Hrun) as HR. cbv zeta in HR.
  revert Hrun. rewrite walkRoots_unfold.
  set (roots := locateRoots project) in *.
  set (st0 := registered roots newTransform) in *.
  destruct (forEach _ _ _) as [[ys st1] | e |] eqn:E; try discriminate.
  intros [= ->].
  apply (forEach_walkRoot_Pushed (length roots)) in E
    as (pushed & Hp & Hall).
  - assert (Hp0 : pendingReferences st0 = [])
      by (unfold st0; apply registered_indices).
    rewrite Hp0 in Hp. simpl in Hp. rewrite Hp.
    intros h Hh. destruct (Hall h Hh) as [Hok Hn]. split; [| exact Hn].
    destruct Hok as [Hok | Hok]; [left | right; exact Hok].
    rewrite (rw_namespaces _ _ _ _ HR). exact Hok.
  - apply registered_NoDup.
  - unfold st0. rewrite registered_heap. simpl. lia.
  - apply Forall_forall. intros h Hh.
    apply list_elem_of_fmap in Hh as ([k h'] & -> & Hin).
    eapply registered_handles. exact Hin.
Qed.

(** So the loop over the pending references does not throw. *)
Lemma fixReferences_total (project : ProjectReflection) (fuel : nat)
    (st : State) :
  walkRoots JSON_parse fuel project = Ok st -> is_Some (fixReferences st).
Proof.
  intros Hrun. unfold fixReferences.
  apply mapM_is_Some, Forall_forall. intros h Hh.
  destruct (pending_references _ _ _ Hrun h Hh) as (_ & node & Hn & Href).
  apply refersTo_Some in Href as (rid & rname & targs & Hty).
  simpl. rewrite Hn. simpl. unfold fixReference. rewrite Hty.
  destruct (referenceTarget st rid); simpl; eauto.
Qed.

(** X4. After the walk every pending reference is a visited object whose type
    is still a reference, so the loop that fixes the references never
    throws [bad pendingReference].  It assigns an href exactly to the
    references whose id is the id of a visited object, and the href leads
    from the node to such an object. *)
Theorem references_fixed (project : ProjectReflection) (fuel : nat)
    (st : State) :
  walkRoots JSON_parse fuel project = Ok st ->
  (forall h,
     h ∈ pendingReferences st ->
     visited project st h
     /\ exists node, heap st !! h = Some node /\ is_Some (refersTo node))
  /\ (exists fixed,
        fixReferences st = Some fixed
        /\ map fst fixed = pendingReferences st)
  /\ (forall node href,
        fixReference st node = Some (Href href) ->
        exists i rname targs ht target,
          type node = Some (TyReference (Some i) rname targs)
          /\ visited project st ht /\ heap st !! ht = Some target
          /\ id target = i /\ href = createHref node target)
  /\ (forall node i rname targs,
        type node = Some (TyReference (Some i) rname targs) ->
        (forall h n, visited project st h -> heap st !! h = Some n ->
                     id n <> i) ->
        fixReference st node = Some NoTarget).
Proof.
  intros Hrun.
  destruct (index_visited _ _ _ Hrun) as [Hentries Hindexed].
  split; [exact (pending_references _ _ _ Hrun)|]. split; [| split].
  - destruct (fixReferences_total _ _ _ Hrun) as [fixed Hfixed].
    exists fixed. split; [exact Hfixed|].
    unfold fixReferences in Hfixed. apply mapM_Some in Hfixed.
    induction Hfixed as [|h [h' f] l k Hh _ IH]; [reflexivity|].
    simpl. rewrite IH. f_equal.
    destruct (heap st !! h) as [node|]; simpl in Hh; [| discriminate Hh].
    destruct (fixReference st node); simpl in Hh; [| discriminate Hh].
    congruence.
  - intros node href. unfold fixReference, referenceTarget.
    destruct (type node) as [[[i|] rname targs| | | | | | |]|];
      try discriminate.
    destruct (i =? 0); [discriminate|].
    destruct (indexForReferences st !! i) as [ht|] eqn:Hi; [| discriminate].
    simpl. destruct (heap st !! ht) as [target|] eqn:Ht; [| discriminate].
    intros [= <-].
    destruct (Hentries _ _ Hi) as (Hv & n & Hn & Hid).
    exists i, rname, targs, ht, target.
    repeat split; try assumption; congruence.
  - intros node i rname targs Hty Hnone.
    unfold fixReference, referenceTarget. rewrite Hty.
    destruct (i =? 0); [reflexivity|].
    destruct (indexForReferences st !! i) as [ht|] eqn:Hi; [| reflexivity].
    destruct (Hentries _ _ Hi) as (Hv & n & Hn & Hid).
    exfalso. exact (Hnone ht n Hv Hn Hid).
Qed.

(** ** What a run can throw *)



























(** ** The page roots and the page ids below them *)










End Properties.

(** * The scenarios of the specification, and other examples

    They are run with TypeDoc's reflection kinds and, for [JSON.parse], with
    [parseJsonLiteral]. *)

#[local] Existing Instance typedoc_ReflectionKind.

Definition hrefExampleTo : Node :=
  set__pageId (Some "property-gamma")
    (set__pageHref (Some "alpha_beta")
       (declaration 3 "gamma" 1024 (mkFlags false) None None None None)).

Definition hrefExampleFrom : Node :=
  set__pageHref (Some "alpha_beta")
    (declaration 2 "beta" 4 (mkFlags false) None None None None).

Lemma createHref_spec_witness :
  createHref hrefExampleFrom hrefExampleTo = Some "#property-gamma".
Proof.
  apply (proj1 (proj1 (createHref_spec hrefExampleFrom hrefExampleTo
                         "alpha_beta" "alpha_beta" eq_refl eq_refl) eq_refl)
               "property-gamma" eq_refl).
  discriminate.
Defined.

(** The two enum tags of the specification's scenario: the members come out
    in order, each with its value and description. *)
Example chromeEnum_scenario :
  _processTagsForChromeEnum parseJsonLiteral
    [mkTag "chrome-enum" (dquote +:+ "foo_bar" +:+ dquote +:+ " The Foo value");
     mkTag "chrome-enum" (dquote +:+ "baz" +:+ dquote +:+ " The Baz value")]
  = Ok (Some [mkEnumPair (JString "foo_bar") "The Foo value";
              mkEnumPair (JString "baz") "The Baz value"]).
Proof. reflexivity. Qed.

(** C8. The description is cut after the length of the token as it is once
    the escapes are undone, not as it stands in the text: with two escaped
    underscores in the token, the description starts one character early and
    keeps the closing quote of the token. *)
Theorem chromeEnum_description_keeps_quote :
  _processTagsForChromeEnum parseJsonLiteral
    [mkTag "chrome-enum" (dquote +:+ "a\_b\_c" +:+ dquote +:+ " Desc")]
  = Ok (Some [mkEnumPair (JString "a_b_c") (dquote +:+ " Desc")]).
Proof. reflexivity. Qed.


(** ** Event shapes *)

Definition refTo (n : string) : SomeType := TyReference None n None.

(** A property whose type is the custom event marker applied to an intrinsic
    type other than [never]. *)
Definition customEventOfString : Node :=
  declaration 7 "onCustom" 1024 (mkFlags false) None
    (Some (TyReference None "CustomChromeEvent" (Some [TyIntrinsic "string"])))
    None None.

(** A property whose type is the custom event marker applied to [never] and
    two more arguments. *)
Definition customEventOfNever : Node :=
  declaration 8 "onCustom" 1024 (mkFlags false) None
    (Some (TyReference None "CustomChromeEvent"
             (Some [TyIntrinsic "never"; refTo "ConditionA"; refTo "ActionB"])))
    None None.

(** The declarative event of the specification's scenario. *)
Definition declarativeEvent : Node :=
  declaration 9 "onRule" 1024 (mkFlags false) None
    (Some (TyReference None "events.Event"
             (Some [TyIntrinsic "never"; refTo "ConditionA";
                    TyUnion [refTo "ActionB"; refTo "ActionC"]])))
    None None.

(** C3, as first stated, has the upgrader throw whenever the first type
    argument is an intrinsic type other than [never].  On the custom event
    marker it returns: the listener has no parameters. *)
Lemma upgradeEventNode_custom_intrinsic_returns :
  upgradeEventNode customEventOfString
  = Ok (set__event (Some EventCallback)
          (set__method (Some (mkMethod [] None false)) customEventOfString),
        []).
Proof. reflexivity. Qed.

Lemma upgradeEventNode_throws_iff_witness :
  (exists e, upgradeEventNode declarativeEvent = Throw e)
  <-> malformedEvent "events.Event"
        (Some [TyIntrinsic "never"; refTo "ConditionA";
               TyUnion [refTo "ActionB"; refTo "ActionC"]]).
Proof.
  exact (proj1 (upgradeEventNode_throws_iff parseJsonLiteral declarativeEvent
                  None "events.Event" _ eq_refl)).
Defined.

(** C4, as first stated, takes every event whose first type argument is
    [never] for a declarative one, and counts four wrapped types in the
    scenario.  On the custom event marker, [never] and two more arguments
    give a callback event without wrappers; and the scenario has three
    wrappers, one per condition and action, none for [never]. *)
Lemma upgradeEventNode_never_not_always_declarative :
  upgradeEventNode customEventOfNever
  = Ok (set__event (Some EventCallback)
          (set__method (Some (mkMethod [] None false)) customEventOfNever),
        [])
  /\ exists node' wrappers,
      upgradeEventNode declarativeEvent = Ok (node', wrappers)
      /\ length wrappers = 3%nat.
Proof. split; [reflexivity|]. eexists _, _. split; reflexivity. Qed.

Lemma upgradeEventNode_declarative_witness :
  upgradeEventNode declarativeEvent
  = Ok (set__event
          (Some (EventDeclarative [refTo "ConditionA"]
                                  [refTo "ActionB"; refTo "ActionC"]))
          declarativeEvent,
        map declarativeFake
            [refTo "ConditionA"; refTo "ActionB"; refTo "ActionC"]).
Proof.
  apply (upgradeEventNode_declarative declarativeEvent None
           "events.Event" (refTo "ConditionA")
           (TyUnion [refTo "ActionB"; refTo "ActionC"]) [] eq_refl).
  discriminate.
Defined.

(** ** Overloaded methods *)

Definition parameterA (typeName : string) (optional : bool) : Node :=
  declaration 11 "a" 32768 (mkFlags optional) None
              (Some (TyIntrinsic typeName)) None None.



(** An optional later occurrence does overwrite. *)
Example later_optional_parameter_overwrites :
  map type
      (mapValues
         (allParams
            (scanSignatures
               [mkSignature (Some [parameterA "string" false]) None None;
                mkSignature (Some [parameterA "number" true]) None None]
               None)))
  = [Some (TyIntrinsic "number")].
Proof. reflexivity. Qed.





(** The scenario of the specification: a method of a namespace with a void
    signature without comment and a signature that returns a string, with
    the comment "Does X". *)
Definition doesX : Comment := mkComment (Some "Does X") None None None.

Definition methodWithTwoSignatures : Node :=
  declaration 21 "doX" 64 (mkFlags false) None None
    (Some [mkSignature None (Some (TyIntrinsic "void")) None;
           mkSignature None (Some (TyIntrinsic "string")) (Some doesX)])
    None.

Definition apiProject : ProjectReflection :=
  mkProject
    (Some [declaration 20 "api" 4 (mkFlags false)
             (Some [methodWithTwoSignatures]) None None None]).

Example method_scenario :
  (st ← finalState (walkRoots parseJsonLiteral 3 apiProject);
   method ← nodeByName st "api.doX";
   Some (comment method, methodReturnType method, _pageId method))
  = Some (Some doesX, Some (TyIntrinsic "string"), Some "method-doX").
Proof. vm_compute. reflexivity. Qed.



(** ** Dotted-name lookup *)

Definition onlyFooBar : gmap string Handle := {[ "foo.Bar" := 7%nat ]}.

(** The scenario of the specification: the names tried for the link [Bar]
    from [foo.bar.zing.Hello], and the match at the fourth. *)
Example resolveLink_scenario :
  candidateNames "foo.bar.zing.Hello" "Bar"
  = ["foo.bar.zing.Hello.Bar"; "foo.bar.zing.Bar"; "foo.bar.Bar"; "foo.Bar";
     "Bar"]
  /\ Forall (fun key => onlyFooBar !! key = None)
            ["foo.bar.zing.Hello.Bar"; "foo.bar.zing.Bar"; "foo.bar.Bar"]
  /\ onlyFooBar !! "foo.Bar" = Some 7%nat.
Proof.
  split; [reflexivity|]. split; [| reflexivity].
  repeat constructor.
Qed.

Lemma resolveLink_first_match_witness :
  resolveLink onlyFooBar "foo.bar.zing.Hello" "Bar" = Some (Entry 7%nat).
Proof.
  rewrite (resolveLink_first_match onlyFooBar "foo.bar.zing.Hello" "Bar")
    by (vm_compute; discriminate).
  reflexivity.
Defined.

(** C6. The index of the scenario holds none of the names that the lookup
    tries for the link [toString], and the lookup answers all the same:
    the index is a plain object, and the read of the last name, [toString]
    alone, yields the function that every object inherits from
    [Object.prototype].  The specification has no match here.  The same
    holds for every member of [Object.prototype], over any index that does
    not hold the names tried, the empty one included. *)
Lemma resolveLink_inherited_member :
  Forall (fun key => onlyFooBar !! key = None)
         (candidateNames "foo.bar.zing.Hello" "toString")
  /\ resolveLink onlyFooBar "foo.bar.zing.Hello" "toString"
     = Some (Inherited "toString")
  /\ resolveLink ∅ "" "constructor" = Some (Inherited "constructor").
Proof.
  split; [vm_compute; repeat constructor|].
  split; unfold resolveLink; simpl; rewrite resolveLinkLoop_candidates;
    reflexivity.
Qed.

(** ** Nested namespaces *)

(** The scenario of the specification: the namespace [alpha] holds only the
    namespace [beta], which holds the property [gamma]. *)
Definition gamma : Node :=
  declaration 3 "gamma" 1024 (mkFlags false) None None None None.

Definition beta : Node :=
  declaration 2 "beta" 4 (mkFlags false) (Some [gamma]) None None None.

Definition alpha : Node :=
  declaration 1 "alpha" 4 (mkFlags false) (Some [beta]) None None None.

Definition alphaProject : ProjectReflection := mkProject (Some [alpha]).

(** The state that the walks of this project end with. *)
Definition alphaFinal : State :=
  Eval vm_compute in
    default newTransform (finalState (walkRoots parseJsonLiteral 3 alphaProject)).

Lemma alphaRun : walkRoots parseJsonLiteral 3 alphaProject = Ok alphaFinal.
Proof. vm_compute. reflexivity. Qed.



(** [alpha] is not a page root, [alpha.beta] is the only one, and the page
    id of [gamma] is [property-gamma]. *)
Example nested_namespace_scenario :
  map (fun root => (Js.str (_name root), id root)) (locateRoots alphaProject)
  = [("alpha.beta", 2)]
  /\ hasNonNamespaceChild alpha = false
  /\ namespaces alphaFinal = [("alpha.beta", 0%nat)]
  /\ (nodeByName alphaFinal "alpha.beta.gamma" ≫= _pageId)
     = Some "property-gamma"
  /\ (nodeByName alphaFinal "alpha.beta.gamma" ≫= _pageHref)
     = Some "alpha_beta".
Proof. repeat split. Qed.


Lemma page_placement_witness :
  exists root node qn,
    heap alphaFinal !! 0%nat = Some root
    /\ Reached alphaProject node qn /\ id root = id node
    /\ _name root = Some qn
    /\ "alpha.beta" = pageKey qn
    /\ _pageHref root = Some (pageSlug "alpha.beta").
Proof.
  apply (proj1 (page_placement parseJsonLiteral alphaProject 3 alphaFinal
                  alphaRun) "alpha.beta" 0%nat).
  constructor.
Defined.

(** C9, as first stated, has an entry in the id index for every input node
    with a positive id.  The ids of the scenario are distinct and positive,
    and [alpha], which is not a page root and so is never walked, has no
    entry. *)
Lemma pure_namespace_container_not_indexed :
  walkRoots parseJsonLiteral 3 alphaProject = Ok alphaFinal
  /\ id alpha = 1
  /\ indexForReferences alphaFinal !! 1 = None
  /\ indexForReferences alphaFinal !! 2 = Some 0%nat
  /\ indexForReferences alphaFinal !! 3 = Some 1%nat.
Proof. split; [exact alphaRun|]. repeat split. Qed.

Lemma id_index_after_walk_witness :
  0 < 2 /\ visited alphaProject alphaFinal 0%nat
  /\ exists n, heap alphaFinal !! 0%nat = Some n /\ id n = 2.
Proof.
  apply (proj1 (id_index_after_walk parseJsonLiteral alphaProject 3 alphaFinal
                  alphaRun) 2 0%nat).
  reflexivity.
Defined.

(** The walks of the nested example end on a counter of its size. *)
Lemma run_terminates_witness :
  (size_project alphaProject <= 12)%nat
  /\ ((exists st, walkRoots parseJsonLiteral 12 alphaProject = Ok st)
      \/ (exists e, walkRoots parseJsonLiteral 12 alphaProject = Throw e)).
Proof.
  split; [vm_compute; lia|].
  apply (run_terminates parseJsonLiteral alphaProject 12). vm_compute. lia.
Defined.

Lemma run_fuel_independent_witness :
  (size_project alphaProject <= 12)%nat /\ (12 <= 40)%nat
  /\ walkRoots parseJsonLiteral 40 alphaProject = walkRoots parseJsonLiteral 12 alphaProject.
Proof.
  split; [vm_compute; lia|]. split; [lia|].
  apply (run_fuel_independent parseJsonLiteral alphaProject 12 40);
    [vm_compute; lia | lia].
Defined.

(** ** Examples for the further properties *)

Lemma distinct_ids_indexed_witness :
  NoDup (ids_project alphaProject)
  /\ indexForReferences alphaFinal !! 3 = Some 1%nat.
Proof.
  assert (Hnd : NoDup (ids_project alphaProject))
    by (apply (bool_decide_unpack (NoDup (ids_project alphaProject)));
        vm_compute; exact I).
  split; [exact Hnd|].
  change (indexForReferences alphaFinal
            !! id (default gamma (heap alphaFinal !! 1%nat))
          = Some 1%nat).
  apply (proj2 (distinct_ids_indexed parseJsonLiteral alphaProject 3
                  alphaFinal Hnd alphaRun)
               1%nat (default gamma (heap alphaFinal !! 1%nat))).
  - right. vm_compute. lia.
  - reflexivity.
  - reflexivity.
Defined.

(** The enum member of the comment in the source, with its one escaped
    underscore. *)
Lemma chromeEnumPair_one_escape_witness :
  chromeEnumPair parseJsonLiteral
    (mkTag "chrome-enum"
           (dquote +:+ "foo\_bar" +:+ dquote +:+ " The Foo value"))
  = Ok (mkEnumPair (JString "foo_bar") "The Foo value").
Proof.
  apply (chromeEnumPair_one_escape parseJsonLiteral _
           (dquote +:+ "foo\_bar" +:+ dquote) "The Foo value").
  - reflexivity.
  - reflexivity.
  - vm_compute. lia.
Defined.

(** The property [gamma], walked below the page root [alpha.beta]. *)
Lemma walk_pageId_witness :
  exists node' st',
    walk parseJsonLiteral 2 0%nat gamma
         (Some (fst (locate beta "alpha.beta"))) (fst (locate beta "alpha.beta"))
         newTransform
    = Ok (node', st')
    /\ _pageId node' = Some "property-gamma".
Proof.
  destruct (walk parseJsonLiteral 2 0%nat gamma
              (Some (fst (locate beta "alpha.beta")))
              (fst (locate beta "alpha.beta")) newTransform)
    as [[node' st'] | e |] eqn:E;
    [| vm_compute in E; discriminate E | vm_compute in E; discriminate E].
  destruct (walk_pageId parseJsonLiteral _ _ _ _ _ _ _ _ E)
    as (namespaceName & Hns & Hid).
  vm_compute in Hns. injection Hns as <-.
  exists node', st'. split; [reflexivity | exact Hid].
Defined.

(** A property whose type refers to [Event] without a type argument. *)
Definition brokenEvent : Node :=
  declaration 2 "onFoo" 1024 (mkFlags false) None
              (Some (TyReference None "Event" None)) None None.

Definition brokenProject : ProjectReflection :=
  mkProject
    (Some [declaration 1 "api" 4 (mkFlags false) (Some [brokenEvent])
                       None None None]).

(** The walk of the property throws the exception of the event upgrade,
    and so does the run. *)
Example broken_event_scenario :
  walkRoots parseJsonLiteral 3 brokenProject
  = Throw (EventWithoutArgument (Some "Event"))
  /\ run parseJsonLiteral 3 brokenProject
     = Throw (EventWithoutArgument (Some "Event")).
Proof. split; vm_compute; reflexivity. Qed.

(** A namespace with a type [Bar] and a property [foo] of that type. *)
Definition barType : Node :=
  declaration 5 "Bar" 4194304 (mkFlags false) None None None None.

Definition fooProperty : Node :=
  declaration 6 "foo" 1024 (mkFlags false) None
              (Some (TyReference (Some 5) "Bar" None)) None None.

Definition referenceProject : ProjectReflection :=
  mkProject
    (Some [declaration 4 "api" 4 (mkFlags false)
                       (Some [barType; fooProperty]) None None None]).

Definition referenceFinal : State :=
  Eval vm_compute in
    default newTransform
            (finalState (walkRoots parseJsonLiteral 3 referenceProject)).

Lemma referenceRun :
  walkRoots parseJsonLiteral 3 referenceProject = Ok referenceFinal.
Proof. vm_compute. reflexivity. Qed.

(** The property is the one pending reference, and its type gets the href
    of the type on the same page. *)
Example reference_scenario :
  pendingReferences referenceFinal = [2%nat]
  /\ fixReferences referenceFinal = Some [(2%nat, Href (Some "#type-Bar"))].
Proof. split; reflexivity. Qed.

Lemma references_fixed_witness :
  exists fixed,
    fixReferences referenceFinal = Some fixed
    /\ map fst fixed = pendingReferences referenceFinal.
Proof.
  exact (proj1 (proj2 (references_fixed parseJsonLiteral referenceProject 3
                         referenceFinal referenceRun))).
Defined.

(** The namespaces [chrome.foo] and [foo] share the page key [foo]: the one
    found last owns the page, at the place of the first, and both keep
    their qualified names. *)
Definition sharedKeyProject : ProjectReflection :=
  mkProject
    (Some [declaration 1 "chrome" 4 (mkFlags false)
             (Some [declaration 2 "foo" 4 (mkFlags false)
                                (Some [barType]) None None None])
             None None None;
           declaration 3 "foo" 4 (mkFlags false) (Some [fooProperty])
                       None None None]).

Example shared_page_key :
  let st := registered (locateRoots sharedKeyProject) newTransform in
  map (fun root => Js.str (_name root)) (heap st) = ["chrome.foo"; "foo"]
  /\ namespaces st = [("foo", 1%nat)]
  /\ allByName st !! "chrome.foo" = Some 0%nat
  /\ allByName st !! "foo" = Some 1%nat.
Proof. vm_compute. repeat split. Qed.

(** Its walks end well, with [chrome.foo] filed under its name and never
    walked: the comment loop finds it without [_feature], and the run
    throws. *)
Example shared_page_key_run :
  (exists st,
     walkRoots parseJsonLiteral 3 sharedKeyProject = Ok st
     /\ (nodeByName st "chrome.foo" ≫= _feature) = None
     /\ is_Some (nodeByName st "foo" ≫= _feature))
  /\ run parseJsonLiteral 3 sharedKeyProject = Throw (TypeError "_feature").
Proof.
  split; [eexists; split; [vm_compute; reflexivity|]|].
  - split; [reflexivity | vm_compute; eauto].
  - vm_compute. reflexivity.
Qed.


(** The feature information of a deprecated beta member. *)
Example feature_scenario :
  _processTagsToFeature
    [mkTag "chrome-channel" "beta"; mkTag "deprecated" " Use bar. ";
     mkTag "chrome-permission" "tabs"; mkTag "since" "Chrome 90";
     mkTag "chrome-permission" "history"; mkTag "see" "elsewhere";
     mkTag "chrome-deprecated-since" "Chrome 95"]
  = mkFeature "beta" (Some "Chrome 90")
              (Some (mkDeprecated "Use bar." (Some "Chrome 95")))
              (Some ["tabs"; "history"]) None None None None None.
Proof. reflexivity. Qed.
